(** * The playlist and download coordinator of [DiscordBot/Cogs/Music/playlist.py]

    A shallow embedding of [Playlist] and [PlaylistEntry]: Python objects
    live in a heap and are referred to by their index, coroutines are
    resumptions that stop at every awaited operation, and the asyncio event
    loop is a step relation over a queue of such resumptions. *)

From Stdlib Require Import ZArith Lia Bool Ascii String.
From stdpp Require Import base option list strings.

Set Warnings "-register-all".

Local Open Scope string_scope.
Local Open Scope list_scope.

(** ** Python strings *)

(** The characters that a string literal cannot hold. *)
Definition dquote : string := String "034"%char EmptyString.
Definition nl : string := String "010"%char EmptyString.

Module PyStr.

(** [s.startswith(p)] *)
Definition startswith (s p : string) : bool := String.prefix p s.

(** [sub in s] *)
Fixpoint contains (sub s : string) : bool :=
  String.prefix sub s ||
  match s with
  | EmptyString => false
  | String _ s' => contains sub s'
  end.

(** [c in s] for a single character. *)
Fixpoint has_char (c : ascii) (s : string) : bool :=
  match s with
  | EmptyString => false
  | String a s' => Ascii.eqb a c || has_char c s'
  end.

(** [s.split(c)[0]]: what precedes the first [c]. *)
Fixpoint split_head (c : ascii) (s : string) : string :=
  match s with
  | EmptyString => EmptyString
  | String a s' => if Ascii.eqb a c then EmptyString else String a (split_head c s')
  end.

(** The two sides of the last [c] of [s], when there is one. *)
Fixpoint rcut (c : ascii) (s : string) : option (string * string) :=
  match s with
  | EmptyString => None
  | String a s' =>
      match rcut c s' with
      | Some (l, r) => Some (String a l, r)
      | None => if Ascii.eqb a c then Some (EmptyString, s') else None
      end
  end.

(** [s.rsplit(c, 1)] *)
Definition rsplit1 (c : ascii) (s : string) : list string :=
  match rcut c s with
  | Some (l, r) => [l; r]
  | None => [s]
  end.

(** [sep.join(xs)] *)
Fixpoint join (sep : string) (xs : list string) : string :=
  match xs with
  | [] => EmptyString
  | [x] => x
  | x :: rest => x +:+ sep +:+ join sep rest
  end.

(** The characters of a string, as [str.join] sees an iterated string. *)
Fixpoint chars (s : string) : list string :=
  match s with
  | EmptyString => []
  | String a s' => String a EmptyString :: chars s'
  end.

(** [s[-limit:]] for [limit >= 0]; [s[-0:]] is the whole of [s]. *)
Definition last_chars (limit : nat) (s : string) : string :=
  match limit with
  | O => s
  | _ => String.substring (String.length s - limit) limit s
  end.

(** [xs.index(x)] when [x in xs]. *)
Fixpoint index_of (x : string) (xs : list string) : option nat :=
  match xs with
  | [] => None
  | y :: rest => if String.eqb y x then Some O else S <$> index_of x rest
  end.

(** [x in xs] *)
Definition mem (x : string) (xs : list string) : bool :=
  existsb (String.eqb x) xs.

(** [os.path.basename(p)] (posixpath). *)
Definition basename (p : string) : string :=
  match rcut "/" p with
  | Some (_, r) => r
  | None => p
  end.

Definition endswith_slash (s : string) : bool :=
  match rcut "/" s with
  | Some (_, EmptyString) => true
  | _ => false
  end.

(** [os.path.join(a, b)] (posixpath, two components). *)
Definition path_join (a b : string) : string :=
  if startswith b "/" then b
  else if String.eqb a EmptyString || endswith_slash a then a +:+ b
  else a +:+ "/" +:+ b.

(** The rest of [s] after the prefix [p]. *)
Fixpoint strip_prefix (p s : string) : option string :=
  match p, s with
  | EmptyString, _ => Some s
  | String a p', String b s' => if Ascii.eqb a b then strip_prefix p' s' else None
  | String _ _, EmptyString => None
  end.

End PyStr.

(** ** Python values, exceptions and the collaborators' objects *)

(** The values that travel through the code untyped: what [json.loads]
    returns and what the resolver puts in its [info] dictionaries.  Numbers
    are integers; a dictionary is its list of items. *)
Inductive pyval : Type :=
| PNone
| PBool (b : bool)
| PInt (z : Z)
| PStr (s : string)
| PList (l : list pyval)
| PDict (d : list (string * pyval)).

Abbreviation dict := (list (string * pyval)).

(** The headers of a response, under their upper-case names. *)
Abbreviation headers := (list (string * string)).

(** [bool(v)] *)
Definition truthy (v : pyval) : bool :=
  match v with
  | PNone => false
  | PBool b => b
  | PInt z => negb (Z.eqb z 0)
  | PStr s => negb (String.eqb s EmptyString)
  | PList l => match l with [] => false | _ => true end
  | PDict d => match d with [] => false | _ => true end
  end.

(** [a or b] *)
Definition py_or (a b : pyval) : pyval := if truthy a then a else b.

(** [v == s] for a string literal [s]. *)
Definition eq_str (v : pyval) (s : string) : bool :=
  match v with
  | PStr t => String.eqb t s
  | _ => false
  end.

(** Lookup in a list of items. *)
Fixpoint assoc {V : Type} (k : string) (d : list (string * V)) : option V :=
  match d with
  | [] => None
  | (k', v) :: rest => if String.eqb k' k then Some v else assoc k rest
  end.

(** [d.get(k, dflt)] *)
Definition dict_get (d : dict) (k : string) (dflt : pyval) : pyval :=
  default dflt (assoc k d).

(** [d[k] = v] *)
Fixpoint assoc_set {V : Type} (k : string) (v : V) (d : list (string * V)) : list (string * V) :=
  match d with
  | [] => [(k, v)]
  | (k', v') :: rest =>
      if String.eqb k' k then (k', v) :: rest else (k', v') :: assoc_set k v rest
  end.

Inductive exn : Type :=
| ExtractionError (msg : string)
| WrongEntryTypeError (msg : string) (is_playlist : bool) (use_url : pyval)
| KeyError (key : string)
| TypeError (msg : string)
| ValueError (msg : string)
| AttributeError (msg : string)
| FileNotFoundError (path : string)
| FileExistsError (path : string)
| IsADirectoryError (path : string)
| NotADirectoryError (path : string)
| OSError (msg : string)
| IndexError
| InvalidStateError
| CancelledError
| TimeoutError
| ExternalError (msg : string).

(** [e.__class__.__name__] *)
Definition class_name (e : exn) : string :=
  match e with
  | ExtractionError _ => "ExtractionError"
  | WrongEntryTypeError _ _ _ => "WrongEntryTypeError"
  | KeyError _ => "KeyError"
  | TypeError _ => "TypeError"
  | ValueError _ => "ValueError"
  | AttributeError _ => "AttributeError"
  | FileNotFoundError _ => "FileNotFoundError"
  | FileExistsError _ => "FileExistsError"
  | IsADirectoryError _ => "IsADirectoryError"
  | NotADirectoryError _ => "NotADirectoryError"
  | OSError _ => "OSError"
  | IndexError => "IndexError"
  | InvalidStateError => "InvalidStateError"
  | CancelledError => "CancelledError"
  | TimeoutError => "TimeoutError"
  | ExternalError _ => "Exception"
  end.

(** [str(e)] *)
Definition exn_str (e : exn) : string :=
  match e with
  | ExtractionError m | WrongEntryTypeError m _ _ | TypeError m | ValueError m
  | AttributeError m | OSError m | ExternalError m => m
  | KeyError k => "'" +:+ k +:+ "'"
  | FileNotFoundError p => "[Errno 2] No such file or directory: '" +:+ p +:+ "'"
  | FileExistsError p => "[Errno 17] File exists: '" +:+ p +:+ "'"
  | IsADirectoryError p => "[Errno 21] Is a directory: '" +:+ p +:+ "'"
  | NotADirectoryError p => "[Errno 20] Not a directory: '" +:+ p +:+ "'"
  | IndexError => "list index out of range"
  | InvalidStateError => "invalid state"
  | CancelledError | TimeoutError => EmptyString
  end.

(** [d[k]] *)
Definition getitem (d : dict) (k : string) : exn + pyval :=
  match assoc k d with
  | Some v => inr v
  | None => inl (KeyError k)
  end.

(** The chat objects stored in an entry's metadata: each has an [id] and a
    [name]; a channel reaches the members of its server. *)
Record Member : Type := mkMember { member_id : pyval; member_name : pyval }.

Record Channel : Type := mkChannel {
  channel_id : pyval;
  channel_name : pyval;
  server_get_member : pyval -> option Member   (* [channel.server.get_member] *)
}.

Inductive metaval : Type :=
| MChannel (c : Channel)
| MMember (m : Member)
| MVal (v : pyval).

(** The functions of the collaborators that the code calls and that return
    at once: the resolver's file naming, [hashlib.md5(..).hexdigest()] of a
    file's bytes, [int(..)] of a header string, the bot's channel lookup. *)
Record Externals : Type := mkExternals {
  prepare_filename : dict -> string;
  md5_hexdigest : string -> string;
  int_of_str : string -> option Z;
  get_channel : pyval -> option Channel
}.

(** ** The filesystem *)

Module FS.

(** What a path names: a directory, or a file with its bytes. *)
Inductive node : Type :=
| Dir
| File (content : string).

(** The paths that exist, in the order in which the directory that holds
    them lists them, and the size that the system reports for a directory.
    Paths are taken as they are written, without [.], [..] and doubled or
    trailing separators, in a tree without links in which every call is
    permitted. *)
Record t : Type := mk { nodes : list (string * node); dir_size : string -> Z }.

Definition lookup (p : string) (fs : t) : option node := assoc p (nodes fs).

(** [os.path.isdir(p)] *)
Definition is_dir (p : string) (fs : t) : bool :=
  match lookup p fs with Some Dir => true | _ => false end.

(** [os.path.isfile(p)] *)
Definition isfile (p : string) (fs : t) : bool :=
  match lookup p fs with Some (File _) => true | _ => false end.

(** [os.path.exists(p)] *)
Definition exists_ (p : string) (fs : t) : bool :=
  match lookup p fs with Some _ => true | None => false end.

(** What keeps the name [p] from being made: the directory that is to
    hold it is missing, or is a file.  The working directory, which holds
    a bare name, and the root are there. *)
Definition parent_error (p shown : string) (fs : t) : option exn :=
  match PyStr.rcut "/" p with
  | None | Some (EmptyString, _) => None
  | Some (d, _) =>
      match lookup d fs with
      | Some Dir => None
      | Some (File _) => Some (NotADirectoryError shown)
      | None => Some (FileNotFoundError shown)
      end
  end.

(** [os.mkdir(p)] *)
Definition mkdir (p : string) (fs : t) : exn + t :=
  match lookup p fs with
  | Some _ => inl (FileExistsError p)
  | None =>
      match parent_error p p fs with
      | Some e => inl e
      | None => inr (mk (nodes fs ++ [(p, Dir)]) (dir_size fs))
      end
  end.

(** [os.makedirs(p)]: the directory above [p] is made first when it is
    missing, and so on upwards; [n] bounds the number of directories
    above [p]. *)
Fixpoint makedirs_from (n : nat) (p : string) (fs : t) : exn + t :=
  match n with
  | O => mkdir p fs
  | S n' =>
      match PyStr.rcut "/" p with
      | Some (head, tail) =>
          if negb (String.eqb head EmptyString) && negb (String.eqb tail EmptyString)
             && negb (exists_ head fs)
          then match makedirs_from n' head fs with
               | inr fs' => mkdir p fs'
               | inl (FileExistsError _) => mkdir p fs
               | inl e => inl e
               end
          else mkdir p fs
      | None => mkdir p fs
      end
  end.

Definition makedirs (p : string) (fs : t) : exn + t :=
  makedirs_from (String.length p) p fs.

(** The name of [p] inside the directory [d], when [p] lies directly in it. *)
Definition child_name (d p : string) : option string :=
  match PyStr.strip_prefix (PyStr.path_join d EmptyString) p with
  | Some n => if String.eqb n EmptyString || PyStr.has_char "/" n then None else Some n
  | None => None
  end.

(** [os.listdir(d)]: the files and the directories that [d] holds. *)
Definition listdir (d : string) (fs : t) : exn + list string :=
  match lookup d fs with
  | Some Dir => inr (omap (fun pn => child_name d pn.1) (nodes fs))
  | Some (File _) => inl (NotADirectoryError d)
  | None => inl (FileNotFoundError d)
  end.

(** [os.path.getsize(p)] *)
Definition getsize (p : string) (fs : t) : exn + Z :=
  match lookup p fs with
  | Some (File c) => inr (Z.of_nat (String.length c))
  | Some Dir => inr (dir_size fs p)
  | None => inl (FileNotFoundError p)
  end.

(** [open(p, "rb").read()] *)
Definition read (p : string) (fs : t) : exn + string :=
  match lookup p fs with
  | Some (File c) => inr c
  | Some Dir => inl (IsADirectoryError p)
  | None => inl (FileNotFoundError p)
  end.

Fixpoint remove (p : string) (l : list (string * node)) : list (string * node) :=
  match l with
  | [] => []
  | (k, n) :: rest => if String.eqb k p then remove p rest else (k, n) :: remove p rest
  end.

(** [os.unlink(p)] *)
Definition unlink (p : string) (fs : t) : exn + t :=
  match lookup p fs with
  | Some (File _) => inr (mk (remove p (nodes fs)) (dir_size fs))
  | Some Dir => inl (IsADirectoryError p)
  | None => inl (FileNotFoundError p)
  end.

(** Whether [p] lies in the directory [d], at any depth. *)
Definition inside (d p : string) : bool :=
  match PyStr.strip_prefix (d +:+ "/") p with
  | Some _ => true
  | None => false
  end.

(** The path [p] once the directory [src] is named [dst]. *)
Definition moved (src dst p : string) : string :=
  if String.eqb p src then dst
  else match PyStr.strip_prefix (src +:+ "/") p with
       | Some rest => dst +:+ "/" +:+ rest
       | None => p
       end.

(** The two paths, as the message of a failed [os.rename] shows them. *)
Definition both (src dst : string) : string := src +:+ "' -> '" +:+ dst.

(** [os.rename(src, dst)]: a file takes the place of the file [dst], a
    directory that of the empty directory [dst]; the directory that is to
    hold [dst] has to be there. *)
Definition rename (src dst : string) (fs : t) : exn + t :=
  match lookup src fs with
  | None => inl (FileNotFoundError (both src dst))
  | Some n =>
      match parent_error dst (both src dst) fs with
      | Some e => inl e
      | None =>
          if String.eqb src dst then inr fs
          else
            match n, lookup dst fs with
            | File _, Some Dir => inl (IsADirectoryError (both src dst))
            | File _, _ =>
                inr (mk (map (fun pn => if String.eqb pn.1 src then (dst, pn.2) else pn)
                             (remove dst (nodes fs)))
                        (dir_size fs))
            | Dir, Some (File _) => inl (NotADirectoryError (both src dst))
            | Dir, _ =>
                if inside src dst then inl (OSError "[Errno 22] Invalid argument")
                else if existsb (fun pn => inside dst pn.1) (nodes fs)
                then inl (OSError "[Errno 39] Directory not empty")
                else inr (mk (map (fun pn => (moved src dst pn.1, pn.2))
                                  (remove dst (nodes fs)))
                             (dir_size fs))
            end
      end
  end.

End FS.

(** ** Objects and the heap *)

(** The attributes of a [PlaylistEntry].  [download_folder] is the copy of
    [playlist.downloader.download_folder] taken by [__init__]. *)
Record PlaylistEntry : Type := mkEntry {
  url : pyval;
  title : pyval;
  duration : pyval;
  expected_filename : pyval;
  meta : list (string * metaval);
  filename : pyval;
  _is_downloading : bool;
  _waiting_futures : list nat;
  download_folder : string
}.

Definition set_filename (v : pyval) (x : PlaylistEntry) : PlaylistEntry :=
  mkEntry (url x) (title x) (duration x) (expected_filename x) (meta x)
          v (_is_downloading x) (_waiting_futures x) (download_folder x).

Definition set_is_downloading (b : bool) (x : PlaylistEntry) : PlaylistEntry :=
  mkEntry (url x) (title x) (duration x) (expected_filename x) (meta x)
          (filename x) b (_waiting_futures x) (download_folder x).

Definition set_waiting_futures (l : list nat) (x : PlaylistEntry) : PlaylistEntry :=
  mkEntry (url x) (title x) (duration x) (expected_filename x) (meta x)
          (filename x) (_is_downloading x) l (download_folder x).

(** [PlaylistEntry.__init__] *)
Definition new_entry (folder : string) (u t d : pyval) (expected : pyval)
    (m : list (string * metaval)) : PlaylistEntry :=
  mkEntry u t d expected m PNone false [] folder.

(** [PlaylistEntry.is_downloaded] *)
Definition is_downloaded (x : PlaylistEntry) : bool :=
  if _is_downloading x then false else truthy (filename x).

(** An [asyncio.Future] whose result, if any, is an entry. *)
Inductive Future : Type :=
| Pending
| Cancelled
| Finished (r : exn + nat).

(** Everything the coroutines read and write.  [entries] and [futures] are
    the object stores: an entry or a future is named by its index.  [queue]
    is the deque [Playlist.entries]; [spawned] lists the entries for which
    [asyncio.ensure_future(self._download())] was called and whose task the
    loop has not started yet; [emitted] lists the entries announced by
    ['entry-added']. *)
Record Heap : Type := mkHeap {
  entries : list PlaylistEntry;
  futures : list Future;
  queue : list nat;
  fs : FS.t;
  spawned : list nat;
  emitted : list nat;
  folder : string          (* [bot.downloader.download_folder] *)
}.

Definition with_entries (l : list PlaylistEntry) (h : Heap) : Heap :=
  mkHeap l (futures h) (queue h) (fs h) (spawned h) (emitted h) (folder h).
Definition with_futures (l : list Future) (h : Heap) : Heap :=
  mkHeap (entries h) l (queue h) (fs h) (spawned h) (emitted h) (folder h).
Definition with_queue (l : list nat) (h : Heap) : Heap :=
  mkHeap (entries h) (futures h) l (fs h) (spawned h) (emitted h) (folder h).
Definition with_fs (f : FS.t) (h : Heap) : Heap :=
  mkHeap (entries h) (futures h) (queue h) f (spawned h) (emitted h) (folder h).
Definition with_spawned (l : list nat) (h : Heap) : Heap :=
  mkHeap (entries h) (futures h) (queue h) (fs h) l (emitted h) (folder h).
Definition with_emitted (l : list nat) (h : Heap) : Heap :=
  mkHeap (entries h) (futures h) (queue h) (fs h) (spawned h) l (folder h).

(** ** Coroutines *)

(** Where a coroutine stands after it has run as far as it can: finished,
    with a value or an exception, or suspended on the resolver, on a HEAD
    request or on a future, with what it does once the answer is there.
    The heap it resumes on is the heap of that later moment. *)
Inductive Res (A : Type) : Type :=
| Done (r : exn + A) (h : Heap)
| AwaitInfo (u : pyval) (download : bool) (h : Heap)
    (k : exn + option dict -> Heap -> Res A)
| AwaitHead (u : pyval) (timeout : Z) (h : Heap)
    (k : exn + headers -> Heap -> Res A)
| AwaitFuture (f : nat) (h : Heap) (k : exn + nat -> Heap -> Res A).

Arguments Done {A} r h.
Arguments AwaitInfo {A} u download h k.
Arguments AwaitHead {A} u timeout h k.
Arguments AwaitFuture {A} f h k.

Definition M (A : Type) : Type := Heap -> Res A.

Definition ret {A} (a : A) : M A := fun h => Done (inr a) h.
Definition raise {A} (e : exn) : M A := fun h => Done (inl e) h.

(** Return or raise, as a call that cannot suspend does. *)
Definition lift {A} (r : exn + A) : M A := fun h => Done r h.

Fixpoint bindR {A B} (r : Res A) (f : A -> M B) : Res B :=
  match r with
  | Done (inr a) h => f a h
  | Done (inl e) h => Done (inl e) h
  | AwaitInfo u d h k => AwaitInfo u d h (fun x h' => bindR (k x h') f)
  | AwaitHead u fld h k => AwaitHead u fld h (fun x h' => bindR (k x h') f)
  | AwaitFuture fu h k => AwaitFuture fu h (fun x h' => bindR (k x h') f)
  end.

Definition bind {A B} (m : M A) (f : A -> M B) : M B := fun h => bindR (m h) f.

(** [try: m  except Exception as e: handler e] *)
Fixpoint catchR {A} (r : Res A) (handler : exn -> M A) : Res A :=
  match r with
  | Done (inr a) h => Done (inr a) h
  | Done (inl e) h => handler e h
  | AwaitInfo u d h k => AwaitInfo u d h (fun x h' => catchR (k x h') handler)
  | AwaitHead u fld h k => AwaitHead u fld h (fun x h' => catchR (k x h') handler)
  | AwaitFuture fu h k => AwaitFuture fu h (fun x h' => catchR (k x h') handler)
  end.

Definition try_except {A} (m : M A) (handler : exn -> M A) : M A :=
  fun h => catchR (m h) handler.

(** [try: m  finally: fin], where [fin] only updates the heap. *)
Fixpoint finallyR {A} (r : Res A) (fin : Heap -> Heap) : Res A :=
  match r with
  | Done x h => Done x (fin h)
  | AwaitInfo u d h k => AwaitInfo u d h (fun x h' => finallyR (k x h') fin)
  | AwaitHead u fld h k => AwaitHead u fld h (fun x h' => finallyR (k x h') fin)
  | AwaitFuture fu h k => AwaitFuture fu h (fun x h' => finallyR (k x h') fin)
  end.

Definition try_finally {A} (m : M A) (fin : Heap -> Heap) : M A :=
  fun h => finallyR (m h) fin.

Notation "x <- m ;; k" := (bind m (fun x => k))
  (at level 90, m at level 89, right associativity).
Notation "m ;;; k" := (bind m (fun _ => k))
  (at level 90, right associativity).

Definition get_heap : M Heap := fun h => Done (inr h) h.
Definition modify (f : Heap -> Heap) : M unit := fun h => Done (inr tt) (f h).

(** [await downloader.extract_info(loop, u, download=d)] *)
Definition extract_info (u : pyval) (d : bool) : M (option dict) :=
  fun h => AwaitInfo u d h (fun x h' => Done x h').

(** [async with session.head(u) as response] under [aiohttp.Timeout(timeout)]:
    the headers of the response, or the exception of a request that fails
    or takes longer. *)
Definition session_head (u : pyval) (timeout : Z) : M headers :=
  fun h => AwaitHead u timeout h (fun x h' => Done x h').

(** [get_header(session, u, headerfield)], with the default [timeout=5] and a
    header name, as in both calls of it. *)
Definition get_header (u : pyval) (headerfield : string) : M (option string) :=
  response_headers <- session_head u 5 ;;
  ret (assoc headerfield response_headers).

(** The attributes of the entry object [e]. *)
Definition entry_at (e : nat) (h : Heap) : PlaylistEntry :=
  default (new_entry EmptyString PNone PNone PNone PNone []) (entries h !! e).

Definition self (e : nat) : M PlaylistEntry := fun h => Done (inr (entry_at e h)) h.

Definition update_entry (e : nat) (f : PlaylistEntry -> PlaylistEntry) : M unit :=
  modify (fun h => with_entries (alter f e (entries h)) h).

(** Filesystem calls. *)
Definition fs_read {A} (f : FS.t -> exn + A) : M A := fun h => Done (f (fs h)) h.
Definition fs_write (f : FS.t -> exn + FS.t) : M unit :=
  fun h => match f (fs h) with
           | inr fs' => Done (inr tt) (with_fs fs' h)
           | inl e => Done (inl e) h
           end.
Definition fs_test (f : FS.t -> bool) : M bool := fun h => Done (inr (f (fs h))) h.

Fixpoint for_each {A} (l : list A) (body : A -> M unit) : M unit :=
  match l with
  | [] => ret tt
  | x :: rest => body x ;;; for_each rest body
  end.

(** ** Futures *)

(** [asyncio.Future()] *)
Definition new_future : M nat :=
  fun h => Done (inr (length (futures h))) (with_futures (futures h ++ [Pending]) h).

Definition future_at (f : nat) (h : Heap) : Future := default Pending (futures h !! f).

(** [future.cancelled()] *)
Definition cancelled (f : nat) : M bool :=
  fun h => Done (inr (match future_at f h with Cancelled => true | _ => false end)) h.

(** [future.set_result(v)] and [future.set_exception(e)]: only a pending
    future takes an outcome. *)
Definition settle (f : nat) (r : exn + nat) : M unit :=
  fun h => match future_at f h with
           | Pending => Done (inr tt) (with_futures (<[f := Finished r]> (futures h)) h)
           | _ => Done (inl InvalidStateError) h
           end.

Definition set_result (f : nat) (v : nat) : M unit := settle f (inr v).
Definition set_exception (f : nat) (e : exn) : M unit := settle f (inl e).

(** [await future]: no suspension when the future is already done. *)
Definition await_future (f : nat) : M nat :=
  fun h => match future_at f h with
           | Finished r => Done r h
           | Cancelled => Done (inl CancelledError) h
           | Pending => AwaitFuture f h (fun x h' => Done x h')
           end.

(** [asyncio.ensure_future(self._download())] *)
Definition ensure_future_download (e : nat) : M unit :=
  modify (fun h => with_spawned (spawned h ++ [e]) h).

(** ** PlaylistEntry *)

(** [digest.join('-.').join(fname.rsplit('.', 1))] *)
Definition spliced (digest fname : string) : string :=
  PyStr.join (PyStr.join digest (PyStr.chars "-.")) (PyStr.rsplit1 "." fname).

Section Entry.

Context (X : Externals).

(** [os.path.basename(v)] of an attribute. *)
Definition os_path_basename (v : pyval) : exn + string :=
  match v with
  | PStr s => inr (PyStr.basename s)
  | _ => inl (TypeError "expected str, bytes or os.PathLike object")
  end.

(** [a, b = xs] *)
Definition unpack2 (xs : list string) : exn + string * string :=
  match xs with
  | [a; b] => inr (a, b)
  | _ => inl (ValueError "not enough values to unpack (expected 2)")
  end.

(** [f.rsplit(c, 1)[0]] *)
Definition rsplit1_head (c : ascii) (f : string) : string :=
  match PyStr.rcut c f with
  | Some (l, _) => l
  | None => f
  end.

(** [xs.index(x)] *)
Definition list_index (x : string) (xs : list string) : exn + nat :=
  match PyStr.index_of x xs with
  | Some i => inr i
  | None => inl (ValueError "is not in list")
  end.

(** [xs[i]] *)
Definition list_item (xs : list string) (i : nat) : exn + string :=
  match xs !! i with
  | Some x => inr x
  | None => inl IndexError
  end.

(** [int(v)] of a header value. *)
Definition py_int (v : option string) : exn + Z :=
  match v with
  | None => inl (TypeError "int() argument must be a string, a bytes-like object or a number")
  | Some s =>
      match int_of_str X s with
      | Some z => inr z
      | None => inl (ValueError "invalid literal for int() with base 10")
      end
  end.

(** [md5sum(filename, limit)] *)
Definition md5sum (fname : string) (limit : nat) : M string :=
  c <- fs_read (FS.read fname) ;;
  ret (PyStr.last_chars limit (md5_hexdigest X c)).

(** [PlaylistEntry._for_each_future] *)
Definition _for_each_future (e : nat) (cb : nat -> M unit) : M unit :=
  me <- self e ;;
  let futures := _waiting_futures me in
  update_entry e (set_waiting_futures []) ;;;
  for_each futures (fun future =>
    c <- cancelled future ;;
    if c then ret tt
    else try_except (cb future) (fun _ => ret tt)).

(** [PlaylistEntry._really_download] *)
Definition _really_download (e : nat) (hash : bool) : M unit :=
  me <- self e ;;
  result <- try_except (extract_info (url me) true)
              (fun ex => raise (ExtractionError (exn_str ex))) ;;
  match result with
  | None => raise (ExtractionError "ytdl broke and hell if I know why")
  | Some result =>
      let unhashed_fname := prepare_filename X result in
      update_entry e (set_filename (PStr unhashed_fname)) ;;;
      if hash then
        digest <- md5sum unhashed_fname 8 ;;
        let fname := spliced digest unhashed_fname in
        update_entry e (set_filename (PStr fname)) ;;;
        there <- fs_test (FS.isfile fname) ;;
        if there then fs_write (FS.unlink unhashed_fname)
        else fs_write (FS.rename unhashed_fname fname)
      else ret tt
  end.

(** The [try] block of [_download], up to the ready callbacks. *)
Definition download_body (e : nat) : M unit :=
  me <- self e ;;
  there <- fs_test (FS.exists_ (download_folder me)) ;;
  (if there then ret tt else fs_write (FS.makedirs (download_folder me))) ;;;
  base <- lift (os_path_basename (expected_filename me)) ;;
  let extractor := PyStr.split_head "-" base in
  if String.eqb extractor "generic" then
    ldir <- fs_read (FS.listdir (download_folder me)) ;;
    let flistdir := map (rsplit1_head "-") ldir in
    parts <- lift (unpack2 (PyStr.rsplit1 "." base)) ;;
    let expected_fname_noex := parts.1 in
    if PyStr.mem expected_fname_noex flistdir then
      rsize <- try_except
                 (v <- get_header (url me) "CONTENT-LENGTH" ;; lift (py_int v))
                 (fun _ => ret 0%Z) ;;
      me <- self e ;;
      ldir' <- fs_read (FS.listdir (download_folder me)) ;;
      i <- lift (list_index expected_fname_noex flistdir) ;;
      name <- lift (list_item ldir' i) ;;
      let lfile := PyStr.path_join (download_folder me) name in
      lsize <- fs_read (FS.getsize lfile) ;;
      if negb (Z.eqb lsize rsize) then _really_download e true
      else update_entry e (set_filename (PStr lfile))
    else _really_download e true
  else
    ldir <- fs_read (FS.listdir (download_folder me)) ;;
    let flistdir := map (rsplit1_head ".") ldir in
    let expected_fname_base := base in
    let expected_fname_noex := rsplit1_head "." expected_fname_base in
    if PyStr.mem expected_fname_base ldir then
      update_entry e (set_filename (PStr (PyStr.path_join (download_folder me) expected_fname_base)))
    else if PyStr.mem expected_fname_noex flistdir then
      i <- lift (list_index expected_fname_noex flistdir) ;;
      name <- lift (list_item ldir i) ;;
      update_entry e (set_filename (PStr (PyStr.path_join (download_folder me) name)))
    else _really_download e false.

(** [PlaylistEntry._download] *)
Definition _download (e : nat) : M unit :=
  me <- self e ;;
  if _is_downloading me then ret tt
  else
    update_entry e (set_is_downloading true) ;;;
    try_finally
      (try_except
         (download_body e ;;;
          _for_each_future e (fun future => set_result future e))
         (fun ex => _for_each_future e (fun future => set_exception future ex)))
      (fun h => with_entries (alter (set_is_downloading false) e (entries h)) h).

(** [PlaylistEntry.get_ready_future] *)
Definition get_ready_future (e : nat) : M nat :=
  future <- new_future ;;
  me <- self e ;;
  (if is_downloaded me then set_result future e
   else
     ensure_future_download e ;;;
     update_entry e (fun x => set_waiting_futures (_waiting_futures x ++ [future]) x)) ;;;
  ret future.

End Entry.

(** ** Playlist *)

Section Playlist.

Context (X : Externals).

(** Modelled from the spec: [EventEmitter.emit] (the class is imported
    from [..Utils.event_emitter]) calls the registered handlers at once
    and swallows what they raise.  The handlers belong to the listeners;
    the announcement is recorded and the playlist is left as it is. *)
Definition emit_entry_added (e : nat) : M unit :=
  modify (fun h => with_emitted (emitted h ++ [e]) h).

(** [Playlist.peek] *)
Definition peek : M (option nat) := fun h => Done (inr (head (queue h))) h.

(** [Playlist._add_entry] *)
Definition _add_entry (entry : nat) : M unit :=
  modify (fun h => with_queue (queue h ++ [entry]) h) ;;;
  emit_entry_added entry ;;;
  head <- peek ;;
  match head with
  | Some e => if Nat.eqb e entry then get_ready_future entry ;;; ret tt else ret tt
  | None => ret tt
  end.

(** [Playlist.get_next_entry] *)
Definition get_next_entry (predownload_next : bool) : M (option nat) :=
  h <- get_heap ;;
  match queue h with
  | [] => ret None
  | entry :: rest =>
      modify (with_queue rest) ;;;
      (if predownload_next then
         next_entry <- peek ;;
         match next_entry with
         | Some n => get_ready_future n ;;; ret tt
         | None => ret tt
         end
       else ret tt) ;;;
      future <- get_ready_future entry ;;
      r <- await_future future ;;
      ret (Some r)
  end.

(** The first keyword of [**m] that names a parameter of the function
    that is called with it. *)
Fixpoint clash (params : list string) (m : list (string * metaval)) : option string :=
  match m with
  | [] => None
  | (k, _) :: rest => if PyStr.mem k params then Some k else clash params rest
  end.

(** What the call of [f] raises for such a keyword. *)
Definition multiple_values (f k : string) : exn :=
  TypeError (f +:+ "() got multiple values for argument '" +:+ k +:+ "'").

(** The parameters of [PlaylistEntry.__init__]. *)
Definition init_parameters : list string :=
  ["self"; "playlist"; "url"; "title"; "duration"; "expected_filename"].

(** The construction of a [PlaylistEntry] object,
    [PlaylistEntry(playlist, u, t, d, expected, **m)]: a new cell of the
    store, unless a key of [m] names a parameter of [__init__]. *)
Definition construct (u t d expected : pyval) (m : list (string * metaval)) : M nat :=
  fun h =>
    match clash init_parameters m with
    | Some k => Done (inl (multiple_values "__init__" k)) h
    | None =>
        Done (inr (length (entries h)))
             (with_entries (entries h ++ [new_entry (folder h) u t d expected m]) h)
    end.

(** The content type check of [add_entry] (the block under
    [if info['extractor'] in ['generic', 'Dropbox']]). *)
Definition check_content_type (song_url : string) (info : dict) : M unit :=
  extractor <- lift (getitem info "extractor") ;;
  if eq_str extractor "generic" || eq_str extractor "Dropbox" then
    content_type <- try_except
                      (u <- lift (getitem info "url") ;;
                       get_header u "CONTENT-TYPE")
                      (fun _ => ret None) ;;
    match content_type with
    | None | Some EmptyString => ret tt
    | Some content_type =>
        if PyStr.startswith content_type "application/"
           || PyStr.startswith content_type "image/" then
          if negb (PyStr.contains "/ogg" content_type) then
            raise (ExtractionError
              ("Invalid content type " +:+ dquote +:+ content_type
                 +:+ dquote +:+ " for url " +:+ song_url))
          else ret tt
        else ret tt
    end
  else ret tt.

(** The end of [add_entry]: the entry is constructed and added; the
    result is the entry and [len(self.entries)]. *)
Definition enqueue (song_url : string) (meta : list (string * metaval)) (info : dict)
    : M (nat * nat) :=
  entry <- construct (PStr song_url)
             (dict_get info "title" (PStr "Untitled"))
             (py_or (dict_get info "duration" (PInt 0)) (PInt 0))
             (PStr (prepare_filename X info))
             meta ;;
  _add_entry entry ;;;
  h <- get_heap ;;
  ret (entry, length (queue h)).

(** [Playlist.add_entry]; [meta] is what the call has bound to [**meta],
    which holds no keyword that names a parameter of [add_entry] itself. *)
Definition add_entry (song_url : string) (meta : list (string * metaval)) : M (nat * nat) :=
  info <- try_except (extract_info (PStr song_url) false)
            (fun e => raise (ExtractionError
               ("Could not extract information from " +:+ song_url +:+ nl +:+ nl +:+ exn_str e))) ;;
  match info with
  | None | Some [] =>
      raise (ExtractionError ("Cound not extract information from " +:+ song_url))
  | Some info =>
      if eq_str (dict_get info "_type" PNone) "playlist" then
        raise (WrongEntryTypeError "This is a playlist." true
                 (py_or (dict_get info "webpage_url" PNone) (dict_get info "url" PNone)))
      else
        check_content_type song_url info ;;;
        enqueue song_url meta info
  end.

End Playlist.

(** ** Snapshots of an entry *)

Definition ebind {A B} (r : exn + A) (f : A -> exn + B) : exn + B :=
  match r with
  | inr a => f a
  | inl e => inl e
  end.

Notation "x <~ r ;; k" := (ebind r (fun x => k))
  (at level 90, r at level 89, right associativity).

(** [v[k]] *)
Definition subscript (v : pyval) (k : string) : exn + pyval :=
  match v with
  | PDict d => getitem d k
  | PStr _ => inl (TypeError "string indices must be integers")
  | PList _ => inl (TypeError "list indices must be integers or slices, not str")
  | _ => inl (TypeError "object is not subscriptable")
  end.

(** [k in v] *)
Definition py_in (k : string) (v : pyval) : exn + bool :=
  match v with
  | PDict d => inr (match assoc k d with Some _ => true | None => false end)
  | PStr s => inr (PyStr.contains k s)
  | PList l => inr (existsb (fun x => eq_str x k) l)
  | _ => inl (TypeError "argument is not iterable")
  end.

Section Snapshot.

Context (X : Externals).

(** [PlaylistEntry.from_json], from [data = json.loads(json_string)] on;
    [folder] is the playlist's download folder.  The fifth positional
    argument of the constructor is [expected_filename]. *)
Definition from_json (folder : string) (data : pyval) : exn + PlaylistEntry :=
  url <~ subscript data "url" ;;
  title <~ subscript data "title" ;;
  duration <~ subscript data "duration" ;;
  downloaded <~ subscript data "downloaded" ;;
  filename <~ (if truthy downloaded then subscript data "filename" else inr PNone) ;;
  let meta : list (string * metaval) := [] in
  dmeta <~ subscript data "meta" ;;
  has_channel <~ py_in "channel" dmeta ;;
  meta <~ (if has_channel : bool then
             dmeta <~ subscript data "meta" ;;
             dch <~ subscript dmeta "channel" ;;
             id <~ subscript dch "id" ;;
             match get_channel X id with
             | Some ch => inr (assoc_set "channel" (MChannel ch) meta)
             | None =>
                 name <~ subscript dch "name" ;;
                 inr (assoc_set "channel" (MVal name) meta)
             end
           else inr meta) ;;
  dmeta <~ subscript data "meta" ;;
  has_author <~ py_in "author" dmeta ;;
  meta <~ (if has_author : bool then
             match assoc "channel" meta with
             | None => inl (KeyError "channel")
             | Some (MChannel ch) =>
                 dmeta <~ subscript data "meta" ;;
                 dau <~ subscript dmeta "author" ;;
                 id <~ subscript dau "id" ;;
                 inr (assoc_set "author"
                        (match server_get_member ch id with
                         | Some m => MMember m
                         | None => MVal PNone
                         end) meta)
             | Some _ => inl (AttributeError "object has no attribute 'server'")
             end
           else inr meta) ;;
  inr (new_entry folder url title duration filename meta).

(** One item of the [meta] dictionary built by [to_json]. *)
Definition meta_item (v : metaval) : exn + pyval :=
  match v with
  | MChannel c =>
      inr (PDict [("type", PStr "Channel"); ("id", channel_id c); ("name", channel_name c)])
  | MMember m =>
      inr (PDict [("type", PStr "Member"); ("id", member_id m); ("name", member_name m)])
  | MVal _ => inl (AttributeError "object has no attribute 'id'")
  end.

Fixpoint meta_items (m : list (string * metaval)) : exn + dict :=
  match m with
  | [] => inr []
  | (i, v) :: rest =>
      x <~ meta_item v ;;
      xs <~ meta_items rest ;;
      inr ((i, x) :: xs)
  end.

(** [PlaylistEntry.to_json], up to [json.dumps]. *)
Definition to_json (x : PlaylistEntry) : exn + pyval :=
  m <~ meta_items (meta x) ;;
  inr (PDict [("version", PInt 1);
              ("url", url x);
              ("title", title x);
              ("duration", duration x);
              ("downloaded", PBool (is_downloaded x));
              ("filename", filename x);
              ("meta", PDict m)]).

End Snapshot.

(** ** The event loop *)

(** What the loop will run next: a [_download] task that was scheduled and
    has not started, or a task whose awaited operation has completed. *)
Inductive Ready : Type :=
| Start (e : nat)
| Resume (e : nat) (c : Heap -> Res unit).

(** The heap, the queue of callbacks in the order in which the loop will
    run them, and the [_download] tasks that wait for an operation, each
    with the entry it belongs to. *)
Record Loop : Type := mkLoop {
  heap : Heap;
  ready : list Ready;
  parked : list (nat * Res unit)
}.

(** Tasks created by [ensure_future] join the queue in creation order. *)
Definition flush (h : Heap) (r : list Ready) (p : list (nat * Res unit)) : Loop :=
  mkLoop (with_spawned [] h) (r ++ map Start (spawned h)) p.

(** The loop after a task of entry [e] has run up to [r]. *)
Definition settle_task (e : nat) (r : Res unit) (rest : list Ready)
    (p : list (nat * Res unit)) : Loop :=
  match r with
  | Done _ h => flush h rest p
  | AwaitInfo _ _ h _ | AwaitHead _ _ h _ | AwaitFuture _ h _ =>
      flush h rest (p ++ [(e, r)])
  end.

Section EventLoop.

Context (X : Externals).

(** The loop runs the first callback of its queue. *)
Definition run_next (l : Loop) : option Loop :=
  match ready l with
  | [] => None
  | Start e :: rest => Some (settle_task e (_download X e (heap l)) rest (parked l))
  | Resume e c :: rest => Some (settle_task e (c (heap l)) rest (parked l))
  end.

(** What happens to the loop, one event at a time: a caller asks an
    entry for its ready future; the loop runs its next callback; the
    resolver, or a header probe, answers (or fails, or times out for) the
    task parked at some position, which makes the task ready again; the
    resolver's download, or anyone else, changes the files; a caller
    abandons a pending waiter. *)
Inductive action : Type :=
| Request (e : nat)
| Run
| AnswerInfo (i : nat) (x : exn + option dict)
| AnswerHead (i : nat) (x : exn + headers)
| Files (fs' : FS.t)
| Cancel (f : nat).

Definition exec (a : action) (l : Loop) : option Loop :=
  match a with
  | Request e =>
      if (e <? length (entries (heap l)))%nat then
        match get_ready_future e (heap l) with
        | Done _ h' => Some (flush h' (ready l) (parked l))
        | _ => None
        end
      else None
  | Run => run_next l
  | AnswerInfo i x =>
      match parked l !! i with
      | Some (e, AwaitInfo _ _ _ k) =>
          Some (mkLoop (heap l) (ready l ++ [Resume e (k x)]) (delete i (parked l)))
      | _ => None
      end
  | AnswerHead i x =>
      match parked l !! i with
      | Some (e, AwaitHead _ _ _ k) =>
          Some (mkLoop (heap l) (ready l ++ [Resume e (k x)]) (delete i (parked l)))
      | _ => None
      end
  | Files fs' => Some (mkLoop (with_fs fs' (heap l)) (ready l) (parked l))
  | Cancel f =>
      match future_at f (heap l) with
      | Pending =>
          Some (mkLoop (with_futures (<[f := Cancelled]> (futures (heap l))) (heap l))
                       (ready l) (parked l))
      | _ => None
      end
  end.

Definition step (l l' : Loop) : Prop := exists a, exec a l = Some l'.

Inductive steps : Loop -> Loop -> Prop :=
| steps_refl l : steps l l
| steps_step l1 l2 l3 : steps l1 l2 -> step l2 l3 -> steps l1 l3.

(** A schedule, from its first event on. *)
Fixpoint run (sched : list action) (l : Loop) : option Loop :=
  match sched with
  | [] => Some l
  | a :: rest =>
      match exec a l with
      | Some l' => run rest l'
      | None => None
      end
  end.

End EventLoop.

(** The tasks that wait for a download of the resolver. *)
Definition awaits_download (t : nat * Res unit) : bool :=
  match t.2 with
  | AwaitInfo _ true _ _ => true
  | _ => false
  end.

Definition downloads_parked (l : Loop) : nat :=
  length (List.filter awaits_download (parked l)).

(** Whether the callback that the loop runs next is a [_download] that
    will pass its guard. *)
Definition begins (l : Loop) : nat :=
  match ready l with
  | Start e :: _ => if _is_downloading (entry_at e (heap l)) then 0 else 1
  | _ => 0
  end.

(** How often a [_download] passes its guard along a schedule. *)
Fixpoint routines_begun (X : Externals) (sched : list action) (l : Loop) : nat :=
  match sched with
  | [] => 0
  | a :: rest =>
      match exec X a l with
      | Some l' =>
          (match a with
           | Run => begins l
           | _ => 0
           end) + routines_begun X rest l'
      | None => 0
      end
  end.

(** How often the resolver is asked to download along a schedule: each time
    a task that the loop runs stops on [extract_info(.., download=True)]. *)
Fixpoint invocations (X : Externals) (sched : list action) (l : Loop) : nat :=
  match sched with
  | [] => 0
  | a :: rest =>
      match exec X a l with
      | Some l' =>
          (match a with
           | Run => downloads_parked l' - downloads_parked l
           | _ => 0
           end) + invocations X rest l'
      | None => 0
      end
  end.

(** ** Running a coroutine by hand *)

(** The coroutine after the resolver, or a probe, has answered [x] on the
    heap [h']; nothing when the coroutine waits for something else. *)
Definition answer_info {A} (r : Res A) (x : exn + option dict) (h' : Heap) : option (Res A) :=
  match r with
  | AwaitInfo _ _ _ k => Some (k x h')
  | _ => None
  end.

Definition answer_head {A} (r : Res A) (x : exn + headers) (h' : Heap) : option (Res A) :=
  match r with
  | AwaitHead _ _ _ k => Some (k x h')
  | _ => None
  end.

(** The heap on which a coroutine stops for the first time. *)
Definition stop_heap {A} (r : Res A) : Heap :=
  match r with
  | Done _ h | AwaitInfo _ _ h _ | AwaitHead _ _ h _ | AwaitFuture _ h _ => h
  end.

(** What may happen to the heap while a coroutine is suspended, or between
    two calls: the download tasks and the collaborators change files,
    futures and the attributes of entries, and new objects may appear; the
    queue is not touched and no object goes away. *)
Definition drift (h h' : Heap) : Prop :=
  queue h' = queue h /\ length (entries h) <= length (entries h').

(** A coroutine runs to its end, answered by the resolver and the probes. *)
Inductive finishes {A} : Res A -> exn + A -> Heap -> Prop :=
| finishes_done r h : finishes (Done r h) r h
| finishes_info u d h k x h1 r h' :
    drift h h1 -> finishes (k x h1) r h' -> finishes (AwaitInfo u d h k) r h'
| finishes_head u fld h k x h1 r h' :
    drift h h1 -> finishes (k x h1) r h' -> finishes (AwaitHead u fld h k) r h'.

(** The message of the content type rejection. *)
Definition invalid_content_type (content_type song_url : string) : string :=
  "Invalid content type " +:+ dquote +:+ content_type +:+ dquote +:+ " for url " +:+ song_url.

(** [content_type.startswith(('application/', 'image/'))] without ['/ogg']. *)
Definition rejected_type (content_type : string) : bool :=
  (PyStr.startswith content_type "application/" || PyStr.startswith content_type "image/")
  && negb (PyStr.contains "/ogg" content_type).

(** What the content type check makes of the answer of the probe. *)
Definition checked (song_url : string) (x : exn + headers) : exn + unit :=
  match x with
  | inr response_headers =>
      match assoc "CONTENT-TYPE" response_headers with
      | Some content_type =>
          if rejected_type content_type
          then inl (ExtractionError (invalid_content_type content_type song_url))
          else inr tt
      | None => inr tt
      end
  | inl _ => inr tt
  end.

(** ** What a readiness request leaves behind *)

Definition add_waiter (f : nat) (x : PlaylistEntry) : PlaylistEntry :=
  set_waiting_futures (_waiting_futures x ++ [f]) x.

(** The heap after [entry.get_ready_future()]: a new future, which holds the
    entry already when the entry is downloaded, and which otherwise joins
    the entry's waiters while a [_download] task is scheduled. *)
Definition ready_heap (e : nat) (h : Heap) : Heap :=
  if is_downloaded (entry_at e h)
  then with_futures (futures h ++ [Finished (inr e)]) h
  else with_entries (alter (add_waiter (length (futures h))) e (entries h))
         (with_spawned (spawned h ++ [e]) (with_futures (futures h ++ [Pending]) h)).

(** The heap after [_add_entry(entry)]. *)
Definition added_heap (e : nat) (h : Heap) : Heap :=
  let h1 := with_emitted (emitted h ++ [e]) (with_queue (queue h ++ [e]) h) in
  match queue h with
  | [] => ready_heap e h1
  | e0 :: _ => if Nat.eqb e0 e then ready_heap e h1 else h1
  end.

(** The heap after [add_entry] has accepted [info]: the entry object is
    constructed and handed to [_add_entry]. *)
Definition entered (X : Externals) (song_url : string) (meta : list (string * metaval))
    (info : dict) (h : Heap) : Heap :=
  added_heap (length (entries h))
    (with_entries (entries h ++
       [new_entry (folder h) (PStr song_url)
          (dict_get info "title" (PStr "Untitled"))
          (py_or (dict_get info "duration" (PInt 0)) (PInt 0))
          (PStr (prepare_filename X info)) meta]) h).

(** What the end of [add_entry] comes to on the heap [h]: the entry is
    added and returned with its position, or the constructor has refused
    a keyword and the heap is as it was. *)
Definition enqueued (X : Externals) (song_url : string) (meta : list (string * metaval))
    (info : dict) (h : Heap) : Res (nat * nat) :=
  match clash init_parameters meta with
  | Some k => Done (inl (multiple_values "__init__" k)) h
  | None =>
      Done (inr (length (entries h), S (length (queue h))))
           (entered X song_url meta info h)
  end.

(** ** Sequences of calls on a playlist *)


(** ** Traces of a readiness request *)

(** Between [h] and [h'] the ready future of [e] was requested once: there
    is one more future; when [e] was downloaded it holds [e] and no task is
    scheduled; otherwise it is pending, it has joined the waiters of [e],
    and one [_download] task of [e] has been scheduled. *)
Definition readied (e : nat) (h h' : Heap) : Prop :=
  length (futures h') = S (length (futures h))
  /\ if is_downloaded (entry_at e h)
     then future_at (length (futures h)) h' = Finished (inr e)
          /\ spawned h' = spawned h
          /\ entries h' = entries h
     else future_at (length (futures h)) h' = Pending
          /\ spawned h' = spawned h ++ [e]
          /\ _waiting_futures (entry_at e h')
             = _waiting_futures (entry_at e h) ++ [length (futures h)].

(** Between [h] and [h'] no ready future was requested. *)
Definition not_readied (h h' : Heap) : Prop :=
  futures h' = futures h /\ spawned h' = spawned h /\ entries h' = entries h.

(** ** File names with a digest *)

(** Hexadecimal digits, in lower case as [hexdigest] prints them. *)
Definition is_hex (a : ascii) : bool :=
  let n := nat_of_ascii a in
  ((48 <=? n)%nat && (n <=? 57)%nat) || ((97 <=? n)%nat && (n <=? 102)%nat).

Fixpoint all_hex (s : string) : bool :=
  match s with
  | EmptyString => true
  | String a s' => is_hex a && all_hex s'
  end.

(** ** Download tasks in flight *)

(** The heap without its files and without the file name of [e]: what the
    [try] block of [_download] leaves alone. *)
Definition erase (e : nat) (h : Heap) : Heap :=
  with_fs (FS.mk [] (fun _ => 0%Z))
    (with_entries (alter (set_filename PNone) e (entries h)) h).

(** A coroutine that touches the files and the file name of [e] only, and
    awaits the resolver and the probes only. *)
Fixpoint quiet {A} (e : nat) (h0 : Heap) (r : Res A) : Prop :=
  match r with
  | Done _ h => erase e h = erase e h0
  | AwaitInfo _ _ h k => erase e h = erase e h0 /\ forall x h1, quiet e h1 (k x h1)
  | AwaitHead _ _ h k => erase e h = erase e h0 /\ forall x h1, quiet e h1 (k x h1)
  | AwaitFuture _ _ _ => False
  end.

Definition quietM {A} (e : nat) (m : M A) : Prop := forall h, quiet e h (m h).

(** A pending future takes the outcome; any other is left as it is. *)
Definition settle_one (r : exn + nat) (fs : list Future) (f : nat) : list Future :=
  match default Pending (fs !! f) with
  | Pending => <[f := Finished r]> fs
  | _ => fs
  end.

Definition settle_all (r : exn + nat) (l : list nat) (fs : list Future) : list Future :=
  foldl (settle_one r) fs l.

(** The heap after [_for_each_future] has handed [r] to the waiters of [e]. *)
Definition resolved (e : nat) (r : exn + nat) (h : Heap) : Heap :=
  with_futures (settle_all r (_waiting_futures (entry_at e h)) (futures h))
    (with_entries (alter (set_waiting_futures []) e (entries h)) h).

(** The heap at the end of [_download]: the waiters have their outcome and
    the flag is cleared. *)
Definition finished (e : nat) (r : exn + nat) (h : Heap) : Heap :=
  with_entries (alter (set_is_downloading false) e (entries (resolved e r h)))
    (resolved e r h).

(** A [_download] of [e] that has passed its guard: while it is suspended
    the heap differs from the heap it started or resumed on in the files
    and in the file name of [e] at most; where it ends, the waiters of [e]
    have one outcome, the entry or an exception, and the flag is cleared;
    the task itself ends without exception. *)
Fixpoint completes (e : nat) (h0 : Heap) (r : Res unit) : Prop :=
  match r with
  | Done x h =>
      x = inr tt
      /\ exists hb out,
           erase e hb = erase e h0
           /\ h = finished e out hb
           /\ (out = inr e \/ exists ex, out = inl ex)
  | AwaitInfo _ _ h k => erase e h = erase e h0 /\ forall x h1, completes e h1 (k x h1)
  | AwaitHead _ _ h k => erase e h = erase e h0 /\ forall x h1, completes e h1 (k x h1)
  | AwaitFuture _ _ _ => False
  end.

(** ** The loop invariant *)

(** The entries whose [_download] is past its guard and not at its end:
    the tasks that wait for an answer and those that have one and wait for
    the loop. *)
Definition resumed (r : Ready) : option nat :=
  match r with
  | Resume e _ => Some e
  | Start _ => None
  end.

Definition owners (l : Loop) : list nat :=
  map fst (parked l) ++ omap resumed (ready l).

(** The number of routines of [e] in progress. *)
Definition active (e : nat) (l : Loop) : nat := count_occ Nat.eq_dec (owners l) e.

(** A parked task of [e] carries on as a [_download] of [e], on whatever
    heap it is resumed. *)
Definition parked_ok (n : nat) (t : nat * Res unit) : Prop :=
  t.1 < n
  /\ match t.2 with
     | AwaitInfo _ _ _ k => forall x h1, completes t.1 h1 (k x h1)
     | AwaitHead _ _ _ k => forall x h1, completes t.1 h1 (k x h1)
     | _ => False
     end.

Definition ready_ok (n : nat) (r : Ready) : Prop :=
  match r with
  | Start e => e < n
  | Resume e c => e < n /\ forall h1, completes e h1 (c h1)
  end.

(** The waiters of every entry are futures of the heap. *)
Definition waiters_exist (h : Heap) : Prop :=
  forall e f, f ∈ _waiting_futures (entry_at e h) -> f < length (futures h).

Definition inv (l : Loop) : Prop :=
  spawned (heap l) = []
  /\ Forall (parked_ok (length (entries (heap l)))) (parked l)
  /\ Forall (ready_ok (length (entries (heap l)))) (ready l)
  /\ (forall e, active e l = if _is_downloading (entry_at e (heap l)) then 1 else 0)
  /\ waiters_exist (heap l).

(** A step hands the pending waiters of [e] one outcome, the entry or an
    exception, and leaves [e] without waiters and with its flag cleared. *)
Definition settles (e : nat) (h h' : Heap) : Prop :=
  _waiting_futures (entry_at e h') = []
  /\ _is_downloading (entry_at e h') = false
  /\ exists out,
       (out = inr e \/ exists ex, out = inl ex)
       /\ forall f, f ∈ _waiting_futures (entry_at e h) ->
                    future_at f h = Pending ->
                    future_at f h' = Finished out.

(** A step keeps the waiters of [e], perhaps with one more. *)
Definition keeps_waiters (e : nat) (h h' : Heap) : Prop :=
  _waiting_futures (entry_at e h) `prefix_of` _waiting_futures (entry_at e h').

(** ** The length probe of the generic path *)

(** [rsize]: the length the probe reports, or 0 when the probe or the
    conversion of its answer raises. *)
Definition remote_size (X : Externals) (x : exn + headers) : Z :=
  match x with
  | inr response_headers =>
      match py_int X (assoc "CONTENT-LENGTH" response_headers) with
      | inr z => z
      | inl _ => 0%Z
      end
  | inl _ => 0%Z
  end.

(** ** Sample collaborators, for worked examples *)

Module Sample.

Definition str_of (v : pyval) : string :=
  match v with
  | PStr s => s
  | _ => "NA"
  end.

(** File naming after the template [extractor-id.ext] in [audio_cache]. *)
Definition naming (info : dict) : string :=
  "audio_cache/" +:+ str_of (dict_get info "extractor" PNone) +:+ "-"
    +:+ str_of (dict_get info "id" PNone) +:+ "." +:+ str_of (dict_get info "ext" PNone).

Definition hex_digit (n : nat) : ascii :=
  nth (n mod 16) (list_ascii_of_string "0123456789abcdef") "0"%char.

Fixpoint repeat_char (a : ascii) (n : nat) : string :=
  match n with
  | O => EmptyString
  | S n' => String a (repeat_char a n')
  end.

(** A stand-in for a digest: 32 hexadecimal digits that depend on the
    length of the contents only. *)
Definition digest (c : string) : string :=
  repeat_char "0" 24 +:+ repeat_char (hex_digit (String.length c)) 8.

(** Decimal digits only. *)
Fixpoint digits (s : string) (acc : Z) : option Z :=
  match s with
  | EmptyString => Some acc
  | String a r =>
      let n := nat_of_ascii a in
      if (48 <=? n)%nat && (n <=? 57)%nat
      then digits r (acc * 10 + Z.of_nat (n - 48))%Z
      else None
  end.

Definition int (s : string) : option Z :=
  match s with
  | EmptyString => None
  | _ => digits s 0%Z
  end.

Definition alice : Member := mkMember (PStr "77") (PStr "alice").

Definition lobby : Channel :=
  mkChannel (PStr "5") (PStr "lobby")
    (fun id => if eq_str id "77" then Some alice else None).

Definition X : Externals :=
  mkExternals naming digest int (fun id => if eq_str id "5" then Some lobby else None).

(** The directories, then the files with their bytes, as a file system in
    which every directory has the size of one block. *)
Definition disk (dirs : list string) (files : list (string * string)) : FS.t :=
  FS.mk (map (fun d => (d, FS.Dir)) dirs ++ map (fun pc => (pc.1, FS.File pc.2)) files)
        (fun _ => 4096%Z).

Definition empty_heap : Heap := mkHeap [] [] [] (disk [] []) [] [] "audio_cache".

(** A zip archive behind a generic URL. *)
Definition zip_info : dict :=
  [("extractor", PStr "generic"); ("id", PStr "a"); ("ext", PStr "zip");
   ("url", PStr "http://example.com/a.zip"); ("title", PStr "a")].

(** Two videos of a named extractor. *)
Definition video_a : dict :=
  [("extractor", PStr "youtube"); ("id", PStr "a"); ("ext", PStr "m4a");
   ("title", PStr "A"); ("duration", PInt 120)].
Definition video_b : dict :=
  [("extractor", PStr "youtube"); ("id", PStr "b"); ("ext", PStr "m4a");
   ("title", PStr "B"); ("duration", PInt 90)].

(** An entry that is constructed and not yet added. *)
Definition constructed : Heap :=
  with_entries [new_entry "audio_cache" (PStr "http://youtu.be/a") (PStr "A") (PInt 120)
                  (PStr (naming video_a)) []] empty_heap.

(** The playlist after the first, and after both, have been added. *)
Definition one_entry : Heap := entered X "http://youtu.be/a" [] video_a empty_heap.
Definition two_entries : Heap := entered X "http://youtu.be/b" [] video_b one_entry.

(** A file behind a generic URL, and what the resolver says of it. *)
Definition file_a : dict :=
  [("extractor", PStr "generic"); ("id", PStr "a"); ("ext", PStr "mp3");
   ("url", PStr "http://example.com/a.mp3"); ("title", PStr "a")].

Definition generic_entry : PlaylistEntry :=
  new_entry "audio_cache" (PStr "http://example.com/a.mp3") (PStr "a") (PInt 0)
    (PStr (naming file_a)) [].

(** One such entry and an empty download folder; then the downloaded
    file is there. *)
Definition generic_a : Heap :=
  mkHeap [generic_entry] [] [] (disk ["audio_cache"] []) [] [] "audio_cache".
Definition fetched_a : Heap :=
  with_fs (disk ["audio_cache"] [("audio_cache/generic-a.mp3", "AAAA")]) generic_a.

(** A second entry of the same name, after the first download; then its
    own download, with other bytes, is there. *)
Definition generic_a2 : Heap :=
  mkHeap [set_filename (PStr "audio_cache/generic-a-44444444.mp3") generic_entry;
          generic_entry] [] []
    (disk ["audio_cache"] [("audio_cache/generic-a-44444444.mp3", "AAAA")]) [] []
    "audio_cache".
Definition fetched_a2 : Heap :=
  with_fs (disk ["audio_cache"] [("audio_cache/generic-a-44444444.mp3", "AAAA");
                                  ("audio_cache/generic-a.mp3", "BBBBB")]) generic_a2.

(** The loop with the one generic entry and nothing to run. *)
Definition idle : Loop := mkLoop generic_a [] [].

(** The files once the resolver has downloaded the entry's file. *)
Definition files_a : FS.t :=
  disk ["audio_cache"] [("audio_cache/generic-a.mp3", "AAAA")].

(** Two callers and one entry.  The first caller's request starts a
    download of the resolver; its answer arrives, and before the loop
    resumes the task a second caller requests the entry, which is still
    downloading.  The loop resumes the first task, which finishes, and
    starts the second, whose probe times out. *)
Definition two_callers : list action :=
  [Request 0; Run; Files files_a; AnswerInfo 0 (inr (Some file_a));
   Request 0; Run; Run; AnswerHead 0 (inl TimeoutError); Run].

(** An entry of a named extractor whose file is in the folder already, and
    two callers that request it before the loop runs anything. *)
Definition named_cached : Loop :=
  mkLoop (mkHeap [new_entry "audio_cache" (PStr "http://youtu.be/a") (PStr "A") (PInt 120)
                    (PStr (naming video_a)) []]
            [] [] (disk ["audio_cache"] [("audio_cache/youtube-a.m4a", "AAAA")]) [] []
            "audio_cache") [] [].

Definition same_tick : list action := [Request 0; Request 0; Run; Run].

(** One caller; the resolver answers and the file it names is not there. *)
Definition lost_file : list action :=
  [Request 0; Run; AnswerInfo 0 (inr (Some file_a)); Run].

(** The download folder holds an empty file of the entry's name. *)
Definition empty_cached : Loop :=
  mkLoop (with_fs (disk ["audio_cache"] [("audio_cache/generic-a-44444444.mp3", EmptyString)])
                  generic_a) [] [].

(** One caller; the length probe times out. *)
Definition probe_times_out : list action :=
  [Request 0; Run; AnswerHead 0 (inl TimeoutError); Run].

(** A snapshot without metadata. *)
Definition snapshot (downloaded : bool) (fname : pyval) : pyval :=
  PDict [("version", PInt 1);
         ("url", PStr "http://example.com/a");
         ("title", PStr "a");
         ("duration", PInt 10);
         ("downloaded", PBool downloaded);
         ("filename", fname);
         ("meta", PDict [])].

(** A snapshot that names its requester and no channel. *)
Definition orphan_snapshot : pyval :=
  PDict [("version", PInt 1);
         ("url", PStr "http://example.com/a");
         ("title", PStr "a");
         ("duration", PInt 10);
         ("downloaded", PBool false);
         ("filename", PNone);
         ("meta", PDict [("author", PDict [("type", PStr "Member"); ("id", PStr "77");
                                           ("name", PStr "alice")])])].

End Sample.

(** ** The steps of a download *)

(** The heap once [_download] has set the flag of [e]. *)
Definition begun (e : nat) (h : Heap) : Heap :=
  with_entries (alter (set_is_downloading true) e (entries h)) h.

(** The heap once the file name of [e] is [v]. *)
Definition named (v : pyval) (e : nat) (h : Heap) : Heap :=
  with_entries (alter (set_filename v) e (entries h)) h.

(** The name with the end of the digest of the bytes [content] in it. *)
Definition hashed_name (X : Externals) (content unhashed : string) : string :=
  spliced (PyStr.last_chars 8 (md5_hexdigest X content)) unhashed.

(** What [_really_download] does to the downloaded file once the entry
    has the name [fname]: the file is unlinked when a file of that name
    is there, and renamed otherwise. *)
Definition settle_file (unhashed fname : string) (fs : FS.t) : exn + FS.t :=
  if FS.isfile fname fs then FS.unlink unhashed fs else FS.rename unhashed fname fs.

(** ** Queries on the playlist *)

(** A number as [+] and [-] take it: an [int], or a [bool] as 0 or 1. *)
Definition as_number (v : pyval) : option Z :=
  match v with
  | PInt z => Some z
  | PBool b => Some (if b then 1 else 0)%Z
  | _ => None
  end.

(** [sum(xs)], from the start value on. *)
Fixpoint py_sum (acc : Z) (xs : list pyval) : exn + Z :=
  match xs with
  | [] => inr acc
  | x :: rest =>
      match as_number x with
      | Some z => py_sum (acc + z) rest
      | None => inl (TypeError "unsupported operand type(s) for +")
      end
  end.

(** [sys.maxsize] of a 64-bit build. *)
Definition sys_maxsize : Z := (2 ^ 63 - 1)%Z.

(** [islice(xs, stop)] *)
Definition islice {A} (xs : list A) (stop : Z) : exn + list A :=
  if ((stop <? 0) || (sys_maxsize <? stop))%Z
  then inl (ValueError "Stop argument for islice() must be None or an integer: 0 <= x <= sys.maxsize.")
  else inr (take (Z.to_nat stop) xs).

(** What [estimate_time_until] reads of the player. *)
Record Player : Type := mkPlayer {
  is_stopped : bool;
  current_entry : option nat;
  progress : Z
}.

(** [Playlist.estimate_time_until], up to [datetime.timedelta]: the
    seconds that are handed to it. *)
Definition estimate_time_until (position : Z) (player : Player) : M Z :=
  h <- get_heap ;;
  ahead <- lift (islice (queue h) (position - 1)) ;;
  estimated_time <- lift (py_sum 0 (map (fun e => duration (entry_at e h)) ahead)) ;;
  if negb (is_stopped player) then
    match current_entry player with
    | Some c =>
        match as_number (duration (entry_at c h)) with
        | Some d => ret (estimated_time + (d - progress player))%Z
        | None => raise (TypeError "unsupported operand type(s) for -")
        end
    | None => ret estimated_time
    end
  else ret estimated_time.

(** [m.get(k, None)] on the metadata of an entry. *)
Definition meta_get (m : list (string * metaval)) (k : string) : metaval :=
  default (MVal PNone) (assoc k m).

(** [Playlist.count_for_user]; [is_user v] is [v == user], as the classes
    of the two objects decide it. *)
Definition count_for_user (is_user : metaval -> bool) (h : Heap) : nat :=
  length (List.filter (fun e => is_user (meta_get (meta (entry_at e h)) "author")) (queue h)).

(** [Playlist.clear] *)
Definition clear : M unit := modify (with_queue []).

(** ** Metadata that a snapshot gives back *)

(** The metadata that [from_json] builds: none, a channel that the bot
    knows, or such a channel and a member that its server knows. *)
Inductive known (X : Externals) : list (string * metaval) -> Prop :=
| known_none : known X []
| known_channel c :
    get_channel X (channel_id c) = Some c ->
    known X [("channel", MChannel c)]
| known_author c a :
    get_channel X (channel_id c) = Some c ->
    server_get_member c (member_id a) = Some a ->
    known X [("channel", MChannel c); ("author", MMember a)].

(** ** Importing a playlist *)

(** [await downloader.safe_extract_info(loop, u, download=d)]: a call of
    the resolver that suspends the coroutine as [extract_info] does and is
    answered in the same way, by a result, by [None] or by an exception.
    The keyword [process], where it is given, goes to the resolver with
    the call and does not show in the suspension. *)
Definition safe_extract_info (u : pyval) (d : bool) : M (option dict) :=
  fun h => AwaitInfo u d h (fun x h' => Done x h').

(** [for x in v]: what a value yields when it is iterated. *)
Definition py_iter (v : pyval) : exn + list pyval :=
  match v with
  | PList l => inr l
  | PDict d => inr (map (fun kv => PStr kv.1) d)
  | PStr s => inr (map PStr (PyStr.chars s))
  | _ => inl (TypeError "object is not iterable")
  end.

Section Importing.

Context (X : Externals).

(** The [try] block in the loop of [import_from]: the entry is
    constructed from the item and added. *)
Definition import_entry (url_field : string) (meta : list (string * metaval))
    (entry_data : pyval) : M nat :=
  u <- lift (subscript entry_data url_field) ;;
  match entry_data with
  | PDict d =>
      entry <- construct u
                 (dict_get d "title" (PStr "Untitled"))
                 (py_or (dict_get d "duration" (PInt 0)) (PInt 0))
                 (PStr (prepare_filename X d))
                 meta ;;
      _add_entry entry ;;;
      ret entry
  | _ => raise (AttributeError "object has no attribute 'get'")
  end.

(** The loop of [import_from] over the items that are left. *)
Fixpoint import_entries (url_field : string) (meta : list (string * metaval))
    (items : list pyval) (good_entries : list nat) (bad_entries : nat)
    : M (list nat * nat) :=
  match items with
  | [] => ret (good_entries, bad_entries)
  | entry_data :: rest =>
      if truthy entry_data then
        r <- try_except
               (entry <- import_entry url_field meta entry_data ;; ret (Some entry))
               (fun _ => ret None) ;;
        match r with
        | Some entry => import_entries url_field meta rest (good_entries ++ [entry]) bad_entries
        | None => import_entries url_field meta rest good_entries (S bad_entries)
        end
      else import_entries url_field meta rest good_entries (S bad_entries)
  end.

(** [Playlist.import_from] *)
Definition import_from (playlist_url : string) (meta : list (string * metaval))
    : M (list nat * nat) :=
  h <- get_heap ;;
  let position := S (length (queue h)) in
  info <- try_except (safe_extract_info (PStr playlist_url) false)
            (fun e => raise (ExtractionError
               ("Could not extract information from " +:+ playlist_url +:+ nl +:+ nl
                  +:+ exn_str e))) ;;
  match info with
  | None | Some [] =>
      raise (ExtractionError ("Could not extract information from " +:+ playlist_url))
  | Some info =>
      let url_field :=
        if eq_str (dict_get info "extractor" PNone) "generic" then "url" else "webpage_url" in
      entries_data <- lift (getitem info "entries") ;;
      items <- lift (py_iter entries_data) ;;
      r <- import_entries url_field meta items [] 0 ;;
      ret (r.1, position)
  end.

End Importing.

(** The items of which [import_from] makes an entry: the dictionaries
    that have the URL field, as long as no key of the metadata names a
    parameter of the constructor. *)
Definition usable (meta : list (string * metaval)) (url_field : string)
    (entry_data : pyval) : bool :=
  match clash init_parameters meta, entry_data with
  | None, PDict d => match assoc url_field d with Some _ => true | None => false end
  | _, _ => false
  end.

(** The entry that [import_from] makes of an item, when it makes one. *)
Definition item_entry (X : Externals) (url_field : string) (meta : list (string * metaval))
    (folder : string) (entry_data : pyval) : option PlaylistEntry :=
  match entry_data with
  | PDict d =>
      match assoc url_field d with
      | Some u =>
          if usable meta url_field entry_data
          then Some (new_entry folder u
                       (dict_get d "title" (PStr "Untitled"))
                       (py_or (dict_get d "duration" (PInt 0)) (PInt 0))
                       (PStr (prepare_filename X d)) meta)
          else None
      | None => None
      end
  | _ => None
  end.

(** The heap after the entry object [x] has been constructed and handed to
    [_add_entry]. *)
Definition appended (x : PlaylistEntry) (h : Heap) : Heap :=
  added_heap (length (entries h)) (with_entries (entries h ++ [x]) h).

(** The heap after [import_from] has gone through the items. *)
Definition imported (X : Externals) (url_field : string) (meta : list (string * metaval))
    (items : list pyval) (h : Heap) : Heap :=
  foldl (fun h entry_data =>
           match item_entry X url_field meta (folder h) entry_data with
           | Some x => appended x h
           | None => h
           end) h items.

(** The field that holds the URL of an item. *)
Definition url_field_of (info : dict) : string :=
  if eq_str (dict_get info "extractor" PNone) "generic" then "url" else "webpage_url".

(** ** Going through a playlist of videos *)

(** [s.split(sep)[0]] for a separator that is not empty: what precedes
    its first occurrence, or all of [s]. *)
Fixpoint split_before (sep s : string) : string :=
  if String.prefix sep s then EmptyString
  else match s with
       | EmptyString => EmptyString
       | String a s' => String a (split_before sep s')
       end.

(** [v.split(sep)[0]] *)
Definition py_split_before (v : pyval) (sep : string) : exn + string :=
  match v with
  | PStr s => inr (split_before sep s)
  | _ => inl (AttributeError "object has no attribute 'split'")
  end.

(** The parameters of [Playlist.add_entry]. *)
Definition add_entry_parameters : list string := ["self"; "song_url"].

Section Process.

Context (X : Externals).

(** [str(v)], as ['%s' % v] prints a value. *)
Context (py_str : pyval -> string).

(** Whether [WrongEntryTypeError] derives from [ExtractionError]; the two
    classes are imported from [.exceptions]. *)
Context (wrong_type_is_extraction : bool).

(** [isinstance(e, ExtractionError)] *)
Definition is_extraction_error (e : exn) : bool :=
  match e with
  | ExtractionError _ => true
  | WrongEntryTypeError _ _ _ => wrong_type_is_extraction
  | _ => false
  end.

(** The call [self.add_entry(song_url, **meta)]: a keyword that names a
    parameter of [add_entry] makes the call itself raise. *)
Definition call_add_entry (song_url : string) (meta : list (string * metaval))
    : M (nat * nat) :=
  match clash add_entry_parameters meta with
  | Some k => raise (multiple_values "add_entry" k)
  | None => add_entry X song_url meta
  end.

(** The loop of [async_process_youtube_playlist] over the items that are
    left. *)
Fixpoint youtube_entries (info : dict) (meta : list (string * metaval))
    (items : list pyval) (good_entries : list nat) (bad_entries : nat)
    : M (list nat * nat) :=
  match items with
  | [] => ret (good_entries, bad_entries)
  | entry_data :: rest =>
      if truthy entry_data then
        webpage_url <- lift (getitem info "webpage_url") ;;
        base_url <- lift (py_split_before webpage_url "playlist?list=") ;;
        id <- lift (subscript entry_data "id") ;;
        let song_url := base_url +:+ "watch?v=" +:+ py_str id in
        r <- try_except
               (r <- call_add_entry song_url meta ;; ret (Some r.1))
               (fun e =>
                  if is_extraction_error e then ret None
                  else lift (subscript entry_data "id") ;;; ret None) ;;
        match r with
        | Some entry => youtube_entries info meta rest (good_entries ++ [entry]) bad_entries
        | None => youtube_entries info meta rest good_entries (S bad_entries)
        end
      else youtube_entries info meta rest good_entries (S bad_entries)
  end.

(** [Playlist.async_process_youtube_playlist] *)
Definition async_process_youtube_playlist (playlist_url : string)
    (meta : list (string * metaval)) : M (list nat) :=
  info <- try_except (safe_extract_info (PStr playlist_url) false)
            (fun e => raise (ExtractionError
               ("Could not extract information from " +:+ playlist_url +:+ nl +:+ nl
                  +:+ exn_str e))) ;;
  match info with
  | None | Some [] =>
      raise (ExtractionError ("Could not extract information from " +:+ playlist_url))
  | Some info =>
      entries_data <- lift (getitem info "entries") ;;
      items <- lift (py_iter entries_data) ;;
      r <- youtube_entries info meta items [] 0 ;;
      ret r.1
  end.

End Process.

(** The URL of the video of an item. *)
Definition watch_url (py_str : pyval -> string) (w : string) (id : pyval) : string :=
  split_before "playlist?list=" w +:+ "watch?v=" +:+ py_str id.

(** ** Shuffling *)

(** [x[i], x[j] = x[j], x[i]] on the deque of the playlist. *)
Definition exchange (i j : nat) : M unit :=
  fun h =>
    match queue h !! j, queue h !! i with
    | Some b, Some a => Done (inr tt) (with_queue (<[j := a]> (<[i := b]> (queue h))) h)
    | _, _ => Done (inl IndexError) h
    end.

(** The loop of [random.shuffle], from the index [i] down to 1: the
    element at [i] is exchanged with one at a random index that is not
    greater.  [randbelow n] is the draw below [n]; a call asks for each
    bound once. *)
Fixpoint shuffle_down (randbelow : nat -> nat) (i : nat) : M unit :=
  match i with
  | O => ret tt
  | S i' => exchange i (randbelow (S i)) ;;; shuffle_down randbelow i'
  end.

(** [Playlist.shuffle] *)
Definition shuffle (randbelow : nat -> nat) : M unit :=
  h <- get_heap ;;
  shuffle_down randbelow (length (queue h) - 1).

(** ** Progress of the loop *)

(** A coroutine that ends after at most [n] answers, whatever they are. *)
Fixpoint within {A} (r : Res A) (n : nat) : Prop :=
  match r with
  | Done _ _ => True
  | AwaitInfo _ _ _ k =>
      match n with
      | O => False
      | S n' => forall x h1, within (k x h1) n'
      end
  | AwaitHead _ _ _ k =>
      match n with
      | O => False
      | S n' => forall x h1, within (k x h1) n'
      end
  | AwaitFuture _ _ k =>
      match n with
      | O => False
      | S n' => forall x h1, within (k x h1) n'
      end
  end.

Definition withinM {A} (m : M A) (n : nat) : Prop := forall h, within (m h) n.

(** The entry of a [_download] task that waits for the loop to start it. *)
Definition starts (r : Ready) : option nat :=
  match r with
  | Start e => Some e
  | Resume _ _ => None
  end.

(** An entry that has waiters has a [_download] in progress, or one that
    the loop is going to start. *)
Definition served (l : Loop) : Prop :=
  forall e,
    _waiting_futures (entry_at e (heap l)) <> [] ->
    _is_downloading (entry_at e (heap l)) = true \/ e ∈ omap starts (ready l).

(** Every pending future is a waiter of some entry. *)
Definition tracked (h : Heap) : Prop :=
  forall f, futures h !! f = Some Pending -> exists e, f ∈ _waiting_futures (entry_at e h).

(** Nothing to run and nothing in flight. *)
Definition at_rest (l : Loop) : Prop := ready l = [] /\ parked l = [].

Section Drain.

Context (X : Externals).

(** What the resolver and the probes answer, by request. *)
Context (info_answer : pyval -> bool -> exn + option dict).
Context (head_answer : pyval -> Z -> exn + headers).

(** The answer to the task that was parked last. *)
Definition answer_last (l : Loop) : option action :=
  match last (parked l) with
  | Some (_, AwaitInfo u d _ _) =>
      Some (AnswerInfo (length (parked l) - 1) (info_answer u d))
  | Some (_, AwaitHead u t _ _) =>
      Some (AnswerHead (length (parked l) - 1) (head_answer u t))
  | _ => None
  end.

(** The loop runs what is in its queue; when the queue is empty, the
    task that was parked last is answered. *)
Definition next_action (l : Loop) : option action :=
  match ready l with
  | _ :: _ => Some Run
  | [] => answer_last l
  end.

Fixpoint drain (fuel : nat) (l : Loop) : Loop :=
  match fuel with
  | O => l
  | S n =>
      match next_action l with
      | Some a =>
          match exec X a l with
          | Some l' => drain n l'
          | None => l
          end
      | None => l
      end
  end.

End Drain.

(** ** Callers on the loop *)

(** What [await future] gives once the future is done. *)
Definition outcome (f : nat) (h : Heap) : option (exn + nat) :=
  match future_at f h with
  | Finished r => Some r
  | Cancelled => Some (inl CancelledError)
  | Pending => None
  end.

(** A coroutine of a caller, run as a task beside the [_download] tasks.
    It runs until it ends or awaits; the loop goes on meanwhile, in
    whatever way; the coroutine is resumed with the answer of the
    resolver or of the probe, whatever it is, or with the outcome of the
    future it awaits, once there is one.  [calls X r rd pk x l'] says
    that the coroutine that has come to [r], beside the queue [rd] and
    the parked tasks [pk], ends with [x] and leaves the loop [l']. *)
Inductive calls {A : Type} (X : Externals)
  : Res A -> list Ready -> list (nat * Res unit) -> exn + A -> Loop -> Prop :=
| calls_done x h rd pk :
    calls X (Done x h) rd pk x (flush h rd pk)
| calls_info u d h k rd pk l2 y x l' :
    steps X (flush h rd pk) l2 ->
    calls X (k y (heap l2)) (ready l2) (parked l2) x l' ->
    calls X (AwaitInfo u d h k) rd pk x l'
| calls_head u t h k rd pk l2 y x l' :
    steps X (flush h rd pk) l2 ->
    calls X (k y (heap l2)) (ready l2) (parked l2) x l' ->
    calls X (AwaitHead u t h k) rd pk x l'
| calls_future f h k rd pk l2 y x l' :
    steps X (flush h rd pk) l2 ->
    outcome f (heap l2) = Some y ->
    calls X (k y (heap l2)) (ready l2) (parked l2) x l' ->
    calls X (AwaitFuture f h k) rd pk x l'.

(** The call of [m] on the loop [l]. *)
Definition call {A : Type} (X : Externals) (m : M A) (l : Loop) (x : exn + A) (l' : Loop)
    : Prop :=
  calls X (m (heap l)) (ready l) (parked l) x l'.


(** Calls of [get_next_entry], one after the other while the loop runs,
    and how they end. *)
Inductive pops_on (X : Externals) (predownload_next : bool)
  : Loop -> list (exn + option nat) -> Loop -> Prop :=
| pops_on_nil l : pops_on X predownload_next l [] l
| pops_on_cons l r l1 l1' rs l2 :
    call X (get_next_entry predownload_next) l r l1 ->
    steps X l1 l1' ->
    pops_on X predownload_next l1' rs l2 ->
    pops_on X predownload_next l (r :: rs) l2.




(** Two heaps that the loop cannot tell apart: the flags, the waiters,
    the futures and the scheduled tasks are the same, and no entry has
    gone. *)
Definition alike (h h' : Heap) : Prop :=
  (forall e, _is_downloading (entry_at e h') = _is_downloading (entry_at e h)
             /\ _waiting_futures (entry_at e h') = _waiting_futures (entry_at e h))
  /\ futures h' = futures h
  /\ spawned h' = spawned h
  /\ length (entries h) <= length (entries h').


(** *** Calls with the events written out *)

(** What wakes a coroutine that waits. *)
Inductive wake : Type :=
| WakeInfo (x : exn + option dict)
| WakeHead (x : exn + headers)
| WakeFuture.

(** A call with the events of the loop written out: for each time the
    coroutine waits, the schedule of the loop until it is resumed and
    what it is resumed with. *)
Fixpoint calls_with {A : Type} (X : Externals) (script : list (list action * wake))
    (r : Res A) (rd : list Ready) (pk : list (nat * Res unit)) : option ((exn + A) * Loop) :=
  match r with
  | Done x h => Some (x, flush h rd pk)
  | AwaitInfo _ _ h k =>
      match script with
      | (sched, WakeInfo y) :: rest =>
          match run X sched (flush h rd pk) with
          | Some l2 => calls_with X rest (k y (heap l2)) (ready l2) (parked l2)
          | None => None
          end
      | _ => None
      end
  | AwaitHead _ _ h k =>
      match script with
      | (sched, WakeHead y) :: rest =>
          match run X sched (flush h rd pk) with
          | Some l2 => calls_with X rest (k y (heap l2)) (ready l2) (parked l2)
          | None => None
          end
      | _ => None
      end
  | AwaitFuture f h k =>
      match script with
      | (sched, WakeFuture) :: rest =>
          match run X sched (flush h rd pk) with
          | Some l2 =>
              match outcome f (heap l2) with
              | Some y => calls_with X rest (k y (heap l2)) (ready l2) (parked l2)
              | None => None
              end
          | None => None
          end
      | _ => None
      end
  end.

Definition call_with {A : Type} (X : Externals) (m : M A)
    (script : list (list action * wake)) (l : Loop) : option ((exn + A) * Loop) :=
  calls_with X script (m (heap l)) (ready l) (parked l).

(** Calls of [get_next_entry], one after the other, each with its
    script. *)
Fixpoint pops_with (X : Externals) (predownload_next : bool)
    (scripts : list (list (list action * wake))) (l : Loop)
    : option (list (exn + option nat) * Loop) :=
  match scripts with
  | [] => Some ([], l)
  | script :: rest =>
      match call_with X (get_next_entry predownload_next) script l with
      | Some (r, l1) =>
          match pops_with X predownload_next rest l1 with
          | Some (rs, l2) => Some (r :: rs, l2)
          | None => None
          end
      | None => None
      end
  end.

(** ** Further worked examples *)

Module Cases.

(** An entry that was added by a member in a channel. *)
Definition requested : PlaylistEntry :=
  new_entry "audio_cache" (PStr "http://youtu.be/a") (PStr "A") (PInt 120)
    (PStr (Sample.naming Sample.video_a))
    [("channel", MChannel Sample.lobby); ("author", MMember Sample.alice)].

(** The heap that holds one entry, with the files given. *)
Definition holding (x : PlaylistEntry) (files : list (string * string)) : Heap :=
  mkHeap [x] [] [] (Sample.disk ["audio_cache"] files) [] [] "audio_cache".

(** A snapshot taken in a channel that the bot does not know. *)
Definition stray_snapshot : pyval :=
  PDict [("version", PInt 1);
         ("url", PStr "http://example.com/a");
         ("title", PStr "a");
         ("duration", PInt 10);
         ("downloaded", PBool false);
         ("filename", PNone);
         ("meta", PDict [("channel", PDict [("type", PStr "Channel"); ("id", PStr "9");
                                            ("name", PStr "general")])])].



(** A playlist of two videos with an item in between that is [None]. *)
Definition video_list : dict :=
  [("extractor", PStr "youtube:playlist");
   ("webpage_url", PStr "http://tube.example/playlist?list=PL1");
   ("entries", PList [PDict [("id", PStr "a"); ("webpage_url", PStr "http://tube.example/watch?v=a");
                             ("title", PStr "A"); ("duration", PInt 120)];
                      PNone;
                      PDict [("id", PStr "b"); ("title", PStr "B")]])].

(** The loop after a caller has added the first video to the empty
    playlist, and after a caller has added the second. *)
Definition one_added : Loop := flush Sample.one_entry [] [].

Definition added : Loop :=
  flush (entered Sample.X "http://youtu.be/b" [] Sample.video_b (heap one_added))
    (ready one_added) (parked one_added).

(** What the loop does while a caller of [get_next_entry] waits for the
    first video: it runs the three [_download] tasks that were created
    (for the first entry when it was added, for the second as the new
    head, for the first again by the caller's own request; the third
    returns at once, a download being under way), the resolver answers
    for the first, and the task of the first is resumed.  Then, for the
    second: the task created by the caller's request returns at once,
    the resolver answers, and the parked task is resumed. *)
Definition first_arrives : list (list action * wake) :=
  [([Run; Run; Run; AnswerInfo 0 (inr (Some Sample.video_a)); Run], WakeFuture)].

Definition second_arrives : list (list action * wake) :=
  [([Run; AnswerInfo 0 (inr (Some Sample.video_b)); Run], WakeFuture)].


End Cases.
(** * Properties *)

(** ** Python strings *)

Example split_head_ex : PyStr.split_head "-" "youtube-9R8aSKwTEMg-NOMA.m4a" = "youtube".
Proof. reflexivity. Qed.

Example rsplit1_ex : PyStr.rsplit1 "." "generic-a.b.mp3" = ["generic-a.b"; "mp3"].
Proof. reflexivity. Qed.

Example rsplit1_none_ex : PyStr.rsplit1 "." "generic-a" = ["generic-a"].
Proof. reflexivity. Qed.

Example join_ex : PyStr.join "abcd1234" (PyStr.chars "-.") = "-abcd1234.".
Proof. reflexivity. Qed.

Example last_chars_ex : PyStr.last_chars 8 "0123456789abcdef" = "89abcdef".
Proof. reflexivity. Qed.

Example path_join_ex : PyStr.path_join "audio_cache" "x.mp3" = "audio_cache/x.mp3".
Proof. reflexivity. Qed.

(** ** Readiness requests and enqueueing *)

Lemma get_ready_future_eq e h :
  get_ready_future e h = Done (inr (length (futures h))) (ready_heap e h).
Proof.
  unfold get_ready_future, ready_heap, bind, new_future, self. cbn [bindR].
  replace (entry_at e (with_futures (futures h ++ [Pending]) h)) with (entry_at e h) by reflexivity.
  destruct (is_downloaded (entry_at e h)).
  - unfold set_result, settle, future_at. cbn [futures with_futures].
    rewrite lookup_app_r by lia. rewrite Nat.sub_diag. cbn.
    rewrite insert_app_r_alt by lia. rewrite Nat.sub_diag. reflexivity.
  - reflexivity.
Qed.

Lemma _add_entry_eq e h : _add_entry e h = Done (inr tt) (added_heap e h).
Proof.
  unfold _add_entry, added_heap, bind, modify, emit_entry_added, peek. cbn [bindR].
  cbn [queue with_emitted with_queue].
  destruct (queue h) as [|e0 q]; simpl.
  - rewrite Nat.eqb_refl. rewrite get_ready_future_eq. reflexivity.
  - destruct (Nat.eqb e0 e); [rewrite get_ready_future_eq|]; reflexivity.
Qed.

Lemma ready_heap_queue e h : queue (ready_heap e h) = queue h.
Proof. unfold ready_heap. destruct (is_downloaded _); reflexivity. Qed.

Lemma ready_heap_length e h : length (entries (ready_heap e h)) = length (entries h).
Proof.
  unfold ready_heap. destruct (is_downloaded _); cbn; [reflexivity|].
  apply length_alter.
Qed.

Lemma added_heap_queue e h : queue (added_heap e h) = queue h ++ [e].
Proof.
  unfold added_heap. destruct (queue h) as [|e0 q] eqn:E.
  - rewrite ready_heap_queue. reflexivity.
  - destruct (Nat.eqb e0 e); [rewrite ready_heap_queue|]; reflexivity.
Qed.

Lemma added_heap_length e h : length (entries (added_heap e h)) = length (entries h).
Proof.
  unfold added_heap. destruct (queue h) as [|e0 q].
  - rewrite ready_heap_length. reflexivity.
  - destruct (Nat.eqb e0 e); [rewrite ready_heap_length|]; reflexivity.
Qed.

(** ** Runs to the end *)

Lemma finishes_done_inv {A} (r0 r : exn + A) h0 h' :
  finishes (Done r0 h0) r h' -> r = r0 /\ h' = h0.
Proof. intros H. inversion H. auto. Qed.

Lemma finishes_info_inv {A} u d h (k : exn + option dict -> Heap -> Res A) r h' :
  finishes (AwaitInfo u d h k) r h' -> exists x h1, drift h h1 /\ finishes (k x h1) r h'.
Proof. intros H. inversion H; subst. eauto. Qed.

Lemma finishes_head_inv {A} u fld h (k : exn + headers -> Heap -> Res A) r h' :
  finishes (AwaitHead u fld h k) r h' -> exists x h1, drift h h1 /\ finishes (k x h1) r h'.
Proof. intros H. inversion H; subst. eauto. Qed.

Lemma drift_refl h : drift h h.
Proof. split; [reflexivity|lia]. Qed.

Lemma drift_trans h1 h2 h3 : drift h1 h2 -> drift h2 h3 -> drift h1 h3.
Proof. intros [Hq1 Hl1] [Hq2 Hl2]. split; [congruence|lia]. Qed.

(** ** Adding a single entry *)

Section AddEntry.

Context (X : Externals).

Lemma add_entry_awaits song_url meta h :
  exists k, add_entry X song_url meta h = AwaitInfo (PStr song_url) false h k.
Proof. eexists. reflexivity. Qed.

Lemma playlist_info_nonempty (info : dict) :
  eq_str (dict_get info "_type" PNone) "playlist" = true -> info <> [].
Proof. intros H ->. discriminate H. Qed.

(** C3. A URL that resolves to a playlist makes [add_entry] raise
    [WrongEntryTypeError] with the flag set and the page URL, or else the
    URL, of the result, on the heap as it was: nothing is enqueued.  When
    the resolver raises, or returns [None] or an empty result, it raises
    [ExtractionError]. *)
Theorem add_entry_rejects_playlist song_url meta h h' (info : dict) :
  eq_str (dict_get info "_type" PNone) "playlist" = true ->
  answer_info (add_entry X song_url meta h) (inr (Some info)) h'
    = Some (Done (inl (WrongEntryTypeError "This is a playlist." true
               (py_or (dict_get info "webpage_url" PNone) (dict_get info "url" PNone)))) h')
  /\ (forall e,
       answer_info (add_entry X song_url meta h) (inl e) h'
         = Some (Done (inl (ExtractionError
              ("Could not extract information from " +:+ song_url +:+ nl +:+ nl +:+ exn_str e))) h'))
  /\ answer_info (add_entry X song_url meta h) (inr None) h'
       = Some (Done (inl (ExtractionError ("Cound not extract information from " +:+ song_url))) h')
  /\ answer_info (add_entry X song_url meta h) (inr (Some [])) h'
       = Some (Done (inl (ExtractionError ("Cound not extract information from " +:+ song_url))) h').
Proof.
  intros Hpl. repeat split; try reflexivity.
  destruct info as [|kv info]; [discriminate Hpl|].
  unfold add_entry, answer_info, bind, try_except, extract_info.
  cbn [bindR catchR]. rewrite Hpl. reflexivity.
Qed.

Lemma enqueue_eq song_url meta info h :
  enqueue X song_url meta info h = enqueued X song_url meta info h.
Proof.
  unfold enqueue, enqueued, bind, construct.
  destruct (clash init_parameters meta) as [k|]; cbn [bindR]; [reflexivity|].
  rewrite _add_entry_eq. cbn [bindR].
  unfold get_heap. cbn [bindR]. unfold ret, entered.
  rewrite added_heap_queue. cbn [queue with_entries]. rewrite length_app. cbn.
  do 2 f_equal. f_equal. lia.
Qed.

Lemma enqueued_plain song_url meta info h :
  clash init_parameters meta = None ->
  enqueued X song_url meta info h
  = Done (inr (length (entries h), S (length (queue h)))) (entered X song_url meta info h).
Proof. intros H. unfold enqueued. rewrite H. reflexivity. Qed.

Lemma enqueued_refused song_url meta info h k :
  clash init_parameters meta = Some k ->
  enqueued X song_url meta info h = Done (inl (multiple_values "__init__" k)) h.
Proof. intros H. unfold enqueued. rewrite H. reflexivity. Qed.

(** The content type check, by cases. *)
Lemma check_content_type_other song_url (info : dict) ext h :
  getitem info "extractor" = inr ext ->
  eq_str ext "generic" || eq_str ext "Dropbox" = false ->
  check_content_type song_url info h = Done (inr tt) h.
Proof.
  intros Hext Hgen. unfold check_content_type, bind, lift. rewrite Hext. cbn [bindR].
  rewrite Hgen. reflexivity.
Qed.

Lemma check_content_type_no_url song_url (info : dict) ext ex h :
  getitem info "extractor" = inr ext ->
  eq_str ext "generic" || eq_str ext "Dropbox" = true ->
  getitem info "url" = inl ex ->
  check_content_type song_url info h = Done (inr tt) h.
Proof.
  intros Hext Hgen Hurl. unfold check_content_type, bind, lift, try_except.
  rewrite Hext. cbn [bindR]. rewrite Hgen, Hurl. reflexivity.
Qed.

Lemma check_content_type_probe song_url (info : dict) ext u h :
  getitem info "extractor" = inr ext ->
  eq_str ext "generic" || eq_str ext "Dropbox" = true ->
  getitem info "url" = inr u ->
  exists k,
    check_content_type song_url info h = AwaitHead u 5 h k
    /\ forall x h', k x h' = Done (checked song_url x) h'.
Proof.
  intros Hext Hgen Hurl.
  unfold check_content_type, bind, lift, try_except, get_header, session_head, bind.
  rewrite Hext. cbn [bindR]. rewrite Hgen, Hurl. cbn [bindR catchR].
  eexists. split; [reflexivity|].
  intros [ex|hs] h'; cbn [bindR catchR checked ret]; [reflexivity|].
  destruct (assoc "CONTENT-TYPE" hs) as [ct|]; [|reflexivity].
  destruct ct as [|a ct]; [reflexivity|].
  unfold rejected_type, invalid_content_type.
  destruct (PyStr.startswith (String a ct) "application/" || PyStr.startswith (String a ct) "image/");
    [|reflexivity].
  cbn [andb]. destruct (negb (PyStr.contains "/ogg" (String a ct))); reflexivity.
Qed.

(** C4, as the code has it.  For a result of the generic or the Dropbox
    extractor, [add_entry] sends a HEAD request to the result's URL, with a
    timeout of 5, for the content type.  A type that starts with
    [application/] or [image/] and has no [/ogg] makes it raise
    [ExtractionError] with a message that quotes the type, on the heap as
    it was.  A request that raises, its timeout included, is the same as a
    response without the header: the entry is constructed, enqueued and
    returned with the length of the queue; only a keyword of [meta] that
    names a parameter of the constructor makes the construction raise
    [TypeError] then. *)
Theorem add_entry_content_type song_url meta h h1 (info : dict) ext u :
  info <> [] ->
  eq_str (dict_get info "_type" PNone) "playlist" = false ->
  getitem info "extractor" = inr ext ->
  eq_str ext "generic" || eq_str ext "Dropbox" = true ->
  getitem info "url" = inr u ->
  exists k,
    answer_info (add_entry X song_url meta h) (inr (Some info)) h1
      = Some (AwaitHead u 5 h1 k)
    /\ (forall response_headers content_type h2,
          assoc "CONTENT-TYPE" response_headers = Some content_type ->
          rejected_type content_type = true ->
          k (inr response_headers) h2
            = Done (inl (ExtractionError (invalid_content_type content_type song_url))) h2)
    /\ (forall ex h2,
          k (inl ex) h2 = k (inr []) h2
          /\ k (inl ex) h2 = enqueued X song_url meta info h2
          /\ (clash init_parameters meta = None ->
              k (inl ex) h2
              = Done (inr (length (entries h2), S (length (queue h2))))
                     (entered X song_url meta info h2))).
Proof.
  intros Hne Hpl Hext Hgen Hurl.
  destruct info as [|kv info]; [congruence|].
  destruct (check_content_type_probe song_url (kv :: info) ext u h1 Hext Hgen Hurl)
    as (k & Hk & Hans).
  unfold add_entry, answer_info, try_except, extract_info.
  unfold bind at 1. cbn [bindR catchR]. rewrite Hpl.
  unfold bind. rewrite Hk. cbn [bindR].
  eexists. split; [reflexivity|]. cbn beta. split.
  - intros hs ct h2 Hct Hrej. rewrite Hans. cbn [checked]. rewrite Hct, Hrej. reflexivity.
  - intros ex h2. rewrite !Hans. cbn [checked bindR assoc].
    split; [reflexivity|]. split; [apply enqueue_eq|].
    intros Hm. rewrite enqueue_eq. apply enqueued_plain, Hm.
Qed.

(** A call of [add_entry] that returns has constructed one entry and
    added it. *)
Lemma add_entry_finishes song_url meta h e n h1 :
  finishes (add_entry X song_url meta h) (inr (e, n)) h1 ->
  exists info hd, drift h hd
               /\ h1 = entered X song_url meta info hd
               /\ e = length (entries hd) /\ n = S (length (queue hd)).
Proof.
  unfold add_entry, try_except, extract_info. unfold bind at 1. cbn [bindR catchR].
  intros H. apply finishes_info_inv in H as (x & h0 & Hd0 & Hk).
  destruct x as [ex|[info|]]; cbn [bindR catchR] in Hk;
    try (apply finishes_done_inv in Hk as [? ?]; discriminate).
  destruct info as [|kv info];
    [apply finishes_done_inv in Hk as [? ?]; discriminate|].
  destruct (eq_str (dict_get (kv :: info) "_type" PNone) "playlist");
    [apply finishes_done_inv in Hk as [? ?]; discriminate|].
  exists (kv :: info).
  assert (Htail : forall (r : exn + unit) hd,
    drift h hd ->
    finishes (bindR (Done r hd) (fun _ => enqueue X song_url meta (kv :: info))) (inr (e, n)) h1 ->
    exists hd, drift h hd
      /\ h1 = entered X song_url meta (kv :: info) hd
      /\ e = length (entries hd) /\ n = S (length (queue hd))).
  { intros [ex|[]] hd Hd Hf; cbn [bindR] in Hf.
    - apply finishes_done_inv in Hf as [? ?]; discriminate.
    - rewrite enqueue_eq in Hf. unfold enqueued in Hf.
      destruct (clash init_parameters meta);
        [apply finishes_done_inv in Hf as [? ?]; discriminate|].
      apply finishes_done_inv in Hf as [Hr ->].
      injection Hr as -> ->. eauto. }
  unfold bind in Hk.
  destruct (getitem (kv :: info) "extractor") as [ex|ext] eqn:Hext.
  { unfold check_content_type, bind, lift in Hk. rewrite Hext in Hk. cbn [bindR] in Hk.
    apply finishes_done_inv in Hk as [? ?]; discriminate. }
  destruct (eq_str ext "generic" || eq_str ext "Dropbox") eqn:Hgen.
  - destruct (getitem (kv :: info) "url") as [ex|u] eqn:Hurl.
    + rewrite (check_content_type_no_url _ _ _ _ _ Hext Hgen Hurl) in Hk.
      apply (Htail (inr tt) h0 Hd0), Hk.
    + destruct (check_content_type_probe song_url _ _ _ h0 Hext Hgen Hurl) as (k & Hc & Hans).
      rewrite Hc in Hk. cbn [bindR] in Hk.
      apply finishes_head_inv in Hk as (y & h2 & Hd2 & Hk). rewrite Hans in Hk.
      apply (Htail _ h2 (drift_trans _ _ _ Hd0 Hd2) Hk).
  - rewrite (check_content_type_other _ _ _ _ Hext Hgen) in Hk.
    apply (Htail (inr tt) h0 Hd0), Hk.
Qed.

End AddEntry.

Lemma add_entry_rejects_playlist_witness :
  answer_info (add_entry Sample.X "http://example.com/list" [] Sample.empty_heap)
    (inr (Some [("_type", PStr "playlist"); ("webpage_url", PStr "http://example.com/list?page")]))
    Sample.empty_heap
  = Some (Done (inl (WrongEntryTypeError "This is a playlist." true
                       (PStr "http://example.com/list?page"))) Sample.empty_heap).
Proof.
  exact (proj1 (add_entry_rejects_playlist Sample.X "http://example.com/list" []
                  Sample.empty_heap Sample.empty_heap
                  [("_type", PStr "playlist"); ("webpage_url", PStr "http://example.com/list?page")]
                  eq_refl)).
Defined.

Lemma add_entry_content_type_witness :
  exists k,
    answer_info (add_entry Sample.X "http://example.com/a.zip" [] Sample.empty_heap)
      (inr (Some Sample.zip_info)) Sample.empty_heap
      = Some (AwaitHead (PStr "http://example.com/a.zip") 5 Sample.empty_heap k)
    /\ k (inr [("CONTENT-TYPE", "application/zip")]) Sample.empty_heap
        = Done (inl (ExtractionError
             (invalid_content_type "application/zip" "http://example.com/a.zip")))
            Sample.empty_heap
    /\ k (inl TimeoutError) Sample.empty_heap
        = Done (inr (0, 1))
            (entered Sample.X "http://example.com/a.zip" [] Sample.zip_info Sample.empty_heap).
Proof.
  destruct (add_entry_content_type Sample.X "http://example.com/a.zip" []
              Sample.empty_heap Sample.empty_heap Sample.zip_info
              (PStr "generic") (PStr "http://example.com/a.zip"))
    as (k & Hk & Hrej & Hfail).
  - discriminate.
  - reflexivity.
  - reflexivity.
  - reflexivity.
  - reflexivity.
  - exists k. split; [exact Hk|]. split.
    + apply (Hrej _ "application/zip"); reflexivity.
    + apply (proj2 (proj2 (Hfail TimeoutError Sample.empty_heap))). reflexivity.
Defined.

(** C4, as stated, at the zip archive: the exception that [add_entry] raises
    for the rejected type is an [ExtractionError], the class it raises when
    the resolver fails; there is no class of its own for the rejection. *)
Lemma add_entry_rejection_class :
  exists r e h,
    answer_info (add_entry Sample.X "http://example.com/a.zip" [] Sample.empty_heap)
      (inr (Some Sample.zip_info)) Sample.empty_heap = Some r
    /\ answer_head r (inr [("CONTENT-TYPE", "application/zip")]) Sample.empty_heap
     = Some (Done (inl e) h)
    /\ class_name e = "ExtractionError"
    /\ class_name e <> "ContentTypeRejected".
Proof.
  eexists. eexists. eexists. split; [reflexivity|]. split; [reflexivity|].
  split; [reflexivity|]. discriminate.
Qed.

(** ** Snapshots *)

Section SnapshotFacts.

Context (X : Externals).

(** C10. A snapshot whose [meta] has an ['author'] and no ['channel']
    cannot be restored: [from_json] raises instead of returning an entry,
    so a restored snapshot with an author has a channel. *)
Theorem from_json_author_needs_channel folder data (d : dict) :
  subscript data "meta" = inr (PDict d) ->
  assoc "author" d <> None ->
  (assoc "channel" d = None -> exists e, from_json X folder data = inl e)
  /\ (forall x, from_json X folder data = inr x -> assoc "channel" d <> None).
Proof.
  intros Hmeta Hau.
  assert (Hfail : assoc "channel" d = None -> exists e, from_json X folder data = inl e).
  { intros Hch. unfold from_json.
    destruct (subscript data "url") as [e|?]; [eexists; reflexivity|]; cbn [ebind].
    destruct (subscript data "title") as [e|?]; [eexists; reflexivity|]; cbn [ebind].
    destruct (subscript data "duration") as [e|?]; [eexists; reflexivity|]; cbn [ebind].
    destruct (subscript data "downloaded") as [e|dl]; [eexists; reflexivity|]; cbn [ebind].
    destruct (if truthy dl then subscript data "filename" else inr PNone) as [e|?];
      [eexists; reflexivity|]; cbn [ebind].
    rewrite Hmeta. cbn [ebind py_in]. rewrite Hch. cbn [ebind].
    destruct (assoc "author" d); [|congruence].
    cbn. eexists; reflexivity. }
  split; [exact Hfail|].
  intros x Hx Hch. destruct (Hfail Hch) as [e He]. congruence.
Qed.

(** C8 at a snapshot that says [downloaded] and names its file, without
    metadata: the restored entry has the file name as its expected file
    name and no file name, and its snapshot says not downloaded, without
    file name. *)
Theorem from_json_loses_filename folder (u t d : pyval) (fname : string) :
  let x := PDict [("version", PInt 1); ("url", u); ("title", t); ("duration", d);
                  ("downloaded", PBool true); ("filename", PStr fname);
                  ("meta", PDict [])] in
  from_json X folder x = inr (new_entry folder u t d (PStr fname) [])
  /\ filename (new_entry folder u t d (PStr fname) []) = PNone
  /\ to_json (new_entry folder u t d (PStr fname) [])
     = inr (PDict [("version", PInt 1); ("url", u); ("title", t); ("duration", d);
                   ("downloaded", PBool false); ("filename", PNone);
                   ("meta", PDict [])]).
Proof. repeat split. Qed.

(** A snapshot that says not downloaded, without file name and metadata,
    comes back as it was. *)
Lemma from_json_to_json_fresh folder (u t d : pyval) :
  let x := PDict [("version", PInt 1); ("url", u); ("title", t); ("duration", d);
                  ("downloaded", PBool false); ("filename", PNone);
                  ("meta", PDict [])] in
  (e <~ from_json X folder x ;; to_json e) = inr x.
Proof. reflexivity. Qed.

End SnapshotFacts.

Lemma from_json_author_needs_channel_witness :
  exists e, from_json Sample.X "audio_cache" Sample.orphan_snapshot = inl e.
Proof.
  refine (proj1 (from_json_author_needs_channel Sample.X "audio_cache" Sample.orphan_snapshot
                   [("author", PDict [("type", PStr "Member"); ("id", PStr "77");
                                      ("name", PStr "alice")])] eq_refl _) eq_refl).
  discriminate.
Defined.

Example from_json_orphan :
  from_json Sample.X "audio_cache" Sample.orphan_snapshot = inl (KeyError "channel").
Proof. reflexivity. Qed.

Example snapshot_round_trip_downloaded :
  (e <~ from_json Sample.X "audio_cache"
          (Sample.snapshot true (PStr "audio_cache/youtube-a.m4a")) ;; to_json e)
  = inr (Sample.snapshot false PNone).
Proof. reflexivity. Qed.

(** ** The queue *)

Section Queue.

Context (X : Externals).

Lemma entered_queue song_url meta info h :
  queue (entered X song_url meta info h) = queue h ++ [length (entries h)].
Proof. unfold entered. rewrite added_heap_queue. reflexivity. Qed.


Lemma get_next_entry_empty b h :
  queue h = [] -> get_next_entry b h = Done (inr None) h.
Proof. intros Hq. unfold get_next_entry, bind, get_heap. cbn [bindR]. rewrite Hq. reflexivity. Qed.

End Queue.

(** ** Prefetching the head *)

Lemma ready_heap_readied e h0 h :
  entries h0 = entries h -> futures h0 = futures h -> spawned h0 = spawned h ->
  e < length (entries h) ->
  readied e h (ready_heap e h0).
Proof.
  intros He Hf Hs Hlt. unfold readied, ready_heap, entry_at, future_at.
  rewrite He, Hf, Hs.
  destruct (is_downloaded (default _ (entries h !! e))) eqn:Hd;
    cbn [futures entries spawned with_futures with_entries with_spawned].
  - rewrite length_app, lookup_app_r by lia. rewrite Nat.sub_diag. cbn.
    repeat split; try lia; auto.
  - rewrite length_app, lookup_app_r by lia. rewrite Nat.sub_diag. cbn.
    destruct (lookup_lt_is_Some_2 (entries h) e Hlt) as [x Hx].
    rewrite list_lookup_alter_eq, Hx. cbn. repeat split; try lia; auto.
Qed.

(** C9, as the code has it: what [_add_entry] and [get_next_entry] do
    for the head.  An entry added to an empty playlist is the head, and
    [_add_entry] requests its ready future at once; an entry added behind
    another head is not requested.  [get_next_entry] with
    [predownload_next] requests the ready future of the new head, when
    there is one, before that of the entry it removes, and keeps no
    handle on it; without [predownload_next] it requests only the ready
    future of the entry it removes. *)
Theorem head_is_prefetched h e :
  e < length (entries h) ->
  (queue h = [] ->
     exists h', _add_entry e h = Done (inr tt) h' /\ queue h' = [e] /\ readied e h h')
  /\ (forall e0 q, queue h = e0 :: q -> e0 <> e ->
       exists h', _add_entry e h = Done (inr tt) h'
                  /\ queue h' = e0 :: q ++ [e] /\ not_readied h h')
  /\ (forall n rest, queue h = e :: n :: rest -> n < length (entries h) ->
       exists h1 h2,
         readied n h h1 /\ readied e h1 h2
         /\ stop_heap (get_next_entry true h) = h2
         /\ queue h2 = n :: rest)
  /\ (forall rest, queue h = e :: rest ->
       exists h2,
         readied e h h2
         /\ stop_heap (get_next_entry false h) = h2
         /\ queue h2 = rest).
Proof.
  intros Hlt. repeat split.
  - intros Hq. rewrite _add_entry_eq. eexists. split; [reflexivity|].
    rewrite added_heap_queue, Hq. split; [reflexivity|].
    unfold added_heap. rewrite Hq. apply ready_heap_readied; auto.
  - intros e0 q Hq Hne. rewrite _add_entry_eq. eexists. split; [reflexivity|].
    rewrite added_heap_queue, Hq. split; [reflexivity|].
    unfold added_heap. rewrite Hq.
    destruct (Nat.eqb_spec e0 e); [contradiction|]. repeat split.
  - intros n rest Hq Hn.
    exists (ready_heap n (with_queue (n :: rest) h)).
    exists (ready_heap e (ready_heap n (with_queue (n :: rest) h))).
    split; [apply ready_heap_readied; auto|].
    split; [apply ready_heap_readied; auto; rewrite ready_heap_length; exact Hlt|].
    split; [|rewrite !ready_heap_queue; reflexivity].
    unfold get_next_entry. unfold bind at 1, get_heap. cbn [bindR]. rewrite Hq.
    unfold bind at 1, modify. cbn [bindR]. unfold bind at 1.
    unfold bind at 1, peek. cbn [bindR queue with_queue head].
    unfold bind at 1. rewrite get_ready_future_eq. cbn [bindR ret].
    unfold bind. rewrite get_ready_future_eq. cbn [bindR].
    unfold await_future. destruct (future_at _ _) as [| |[?|?]]; reflexivity.
  - intros rest Hq. exists (ready_heap e (with_queue rest h)).
    split; [apply ready_heap_readied; auto|].
    split; [|rewrite !ready_heap_queue; reflexivity].
    unfold get_next_entry. unfold bind at 1, get_heap. cbn [bindR]. rewrite Hq.
    unfold bind at 1, modify. cbn [bindR]. unfold bind at 1. cbn [bindR ret].
    unfold bind. rewrite get_ready_future_eq. cbn [bindR].
    unfold await_future. destruct (future_at _ _) as [| |[?|?]]; reflexivity.
Qed.

Lemma head_is_prefetched_witness :
  (exists h', _add_entry 0 Sample.constructed = Done (inr tt) h'
              /\ queue h' = [0] /\ readied 0 Sample.constructed h')
  /\ (exists h1 h2,
        readied 1 Sample.two_entries h1 /\ readied 0 h1 h2
        /\ stop_heap (get_next_entry true Sample.two_entries) = h2
        /\ queue h2 = [1]).
Proof.
  split.
  - apply (proj1 (head_is_prefetched Sample.constructed 0 ltac:(cbn; lia))). reflexivity.
  - apply (proj1 (proj2 (proj2 (head_is_prefetched Sample.two_entries 0 ltac:(cbn; lia)))) 1 []).
    + reflexivity.
    + cbn. lia.
Defined.

(** C9, as an invariant of every playlist, at a playlist of two entries
    that is shuffled: the entry that comes to the head is not downloaded,
    and nothing has asked it to get ready: it has no waiter, its download
    is neither in progress nor scheduled, and no future was made. *)
Lemma shuffled_head_is_not_prefetched :
  exists h',
    shuffle (fun _ => 0) Sample.two_entries = Done (inr tt) h'
    /\ peek h' = Done (inr (Some 1)) h'
    /\ is_downloaded (entry_at 1 h') = false
    /\ _is_downloading (entry_at 1 h') = false
    /\ _waiting_futures (entry_at 1 h') = []
    /\ spawned h' = spawned Sample.two_entries
    /\ spawned h' = [0]
    /\ futures h' = futures Sample.two_entries.
Proof. eexists. repeat split. Qed.

(** ** Strings and files *)

Lemma append_nil (b : string) : EmptyString +:+ b = b.
Proof. reflexivity. Qed.

Lemma append_cons x (a b : string) : String x a +:+ b = String x (a +:+ b).
Proof. reflexivity. Qed.

Lemma append_assoc (a b c : string) : (a +:+ b) +:+ c = a +:+ b +:+ c.
Proof.
  induction a as [|x a IH]; [reflexivity|].
  rewrite !append_cons. f_equal. exact IH.
Qed.

Lemma length_append (a b : string) :
  String.length (a +:+ b) = String.length a + String.length b.
Proof.
  induction a as [|x a IH]; [reflexivity|].
  rewrite append_cons. cbn. rewrite IH. reflexivity.
Qed.

Lemma length_substring (s : string) : forall n m,
  n + m <= String.length s -> String.length (String.substring n m s) = m.
Proof.
  induction s as [|a s IH]; intros n m H; cbn in H.
  - assert (n = 0) by lia. assert (m = 0) by lia. subst. reflexivity.
  - destruct n as [|n].
    + destruct m as [|m]; [reflexivity|]. cbn. rewrite IH by lia. reflexivity.
    + cbn. apply IH. lia.
Qed.

Lemma all_hex_substring (s : string) : forall n m,
  all_hex s = true -> all_hex (String.substring n m s) = true.
Proof.
  induction s as [|a s IH]; intros n m H.
  - destruct n, m; reflexivity.
  - cbn in H. apply andb_true_iff in H as [Ha Hs].
    destruct n as [|n].
    + destruct m as [|m]; [reflexivity|]. cbn. rewrite Ha. cbn. apply IH, Hs.
    + cbn. apply IH, Hs.
Qed.

Lemma rcut_append c (base ext : string) :
  PyStr.has_char c ext = false ->
  PyStr.rcut c (base +:+ String c ext) = Some (base, ext).
Proof.
  intros Hext.
  assert (Hnone : PyStr.rcut c ext = None).
  { induction ext as [|a ext IH]; [reflexivity|].
    cbn in Hext. apply orb_false_iff in Hext as [Ha Hr].
    cbn. rewrite (IH Hr), Ha. reflexivity. }
  induction base as [|a base IH].
  - rewrite append_nil. cbn. rewrite Hnone, Ascii.eqb_refl. reflexivity.
  - rewrite append_cons. cbn. rewrite IH. reflexivity.
Qed.

Lemma spliced_extension digest (base ext : string) :
  PyStr.has_char "." ext = false ->
  spliced digest (base +:+ "." +:+ ext) = base +:+ "-" +:+ digest +:+ "." +:+ ext.
Proof.
  intros Hext. unfold spliced, PyStr.rsplit1.
  change (base +:+ "." +:+ ext) with (base +:+ String "." ext).
  rewrite rcut_append by exact Hext. cbn [PyStr.join PyStr.chars].
  rewrite !append_assoc. reflexivity.
Qed.


Lemma last_chars_8 (s : string) :
  8 <= String.length s -> String.length (PyStr.last_chars 8 s) = 8.
Proof. intros H. unfold PyStr.last_chars. apply length_substring. lia. Qed.

Lemma append_inj_l (a b c : string) : a +:+ b = a +:+ c -> b = c.
Proof.
  induction a as [|x a IH]; intros H; [exact H|].
  rewrite !append_cons in H. injection H as H. auto.
Qed.

Lemma append_inj_8 (a b c d : string) :
  String.length a = String.length c -> a +:+ b = c +:+ d -> a = c.
Proof.
  revert c. induction a as [|x a IH]; intros [|y c] Hlen H; try discriminate Hlen.
  - reflexivity.
  - rewrite !append_cons in H. injection H as -> H.
    f_equal. apply IH; [cbn in Hlen; lia|exact H].
Qed.


Lemma assoc_rename_dst (src dst : string) (l : list (string * FS.node)) :
  assoc dst l = None ->
  assoc dst (map (fun pn => if String.eqb pn.1 src then (dst, pn.2) else pn) l) = assoc src l.
Proof.
  induction l as [|[k v] l IH]; intros Hd; cbn in *; [reflexivity|].
  destruct (String.eqb_spec k dst) as [->|Hkd]; [discriminate|].
  destruct (String.eqb_spec k src) as [->|Hks]; cbn.
  - rewrite String.eqb_refl. reflexivity.
  - destruct (String.eqb_spec k dst); [congruence|]. apply IH, Hd.
Qed.

Lemma assoc_rename_src (src dst : string) (l : list (string * FS.node)) :
  src <> dst ->
  assoc src (map (fun pn => if String.eqb pn.1 src then (dst, pn.2) else pn) l) = None.
Proof.
  intros Hne. induction l as [|[k v] l IH]; cbn; [reflexivity|].
  destruct (String.eqb_spec k src) as [->|Hks]; cbn.
  - destruct (String.eqb_spec dst src); [congruence|exact IH].
  - destruct (String.eqb_spec k src); [congruence|exact IH].
Qed.

Lemma assoc_rename_other (src dst k : string) (l : list (string * FS.node)) :
  k <> src -> k <> dst ->
  assoc k (map (fun pn => if String.eqb pn.1 src then (dst, pn.2) else pn) l) = assoc k l.
Proof.
  intros Hs Hd. induction l as [|[k' v] l IH]; cbn; [reflexivity|].
  destruct (String.eqb_spec k' src) as [->|Hks]; cbn.
  - destruct (String.eqb_spec dst k); [congruence|].
    destruct (String.eqb_spec src k); [congruence|exact IH].
  - rewrite IH. reflexivity.
Qed.



Lemma alter_set_filename_twice v w e (l : list PlaylistEntry) :
  alter (set_filename v) e (alter (set_filename w) e l) = alter (set_filename v) e l.
Proof.
  apply list_eq. intros j. destruct (decide (e = j)) as [->|Hne].
  - rewrite !list_lookup_alter_eq. destruct (l !! j); reflexivity.
  - rewrite !list_lookup_alter_ne by exact Hne. reflexivity.
Qed.

Lemma filename_named v e h :
  e < length (entries h) -> filename (entry_at e (named v e h)) = v.
Proof.
  intros Hlt. unfold entry_at, named. cbn [entries with_entries].
  destruct (lookup_lt_is_Some_2 (entries h) e Hlt) as [x Hx].
  rewrite list_lookup_alter_eq, Hx. reflexivity.
Qed.

(** ** The real download *)

Section RealDownload.
Context (X : Externals).

Lemma really_download_fails e hash h h' ex :
  answer_info (_really_download X e hash h) (inl ex) h'
  = Some (Done (inl (ExtractionError (exn_str ex))) h').
Proof. reflexivity. Qed.

Lemma really_download_nothing e hash h h' :
  answer_info (_really_download X e hash h) (inr None) h'
  = Some (Done (inl (ExtractionError "ytdl broke and hell if I know why")) h').
Proof. reflexivity. Qed.

Lemma really_download_awaits e hash h :
  exists k, _really_download X e hash h = AwaitInfo (url (entry_at e h)) true h k.
Proof. eexists. reflexivity. Qed.

(** A download with [hash=True] of a file that can be read: the entry is
    given the name with the digest, and the file is unlinked or renamed;
    what that raises, the download raises. *)
Lemma really_download_hashed e h h' info content :
  FS.read (prepare_filename X info) (fs h') = inr content ->
  let unhashed := prepare_filename X info in
  let fname := hashed_name X content unhashed in
  answer_info (_really_download X e true h) (inr (Some info)) h'
  = Some (match settle_file unhashed fname (fs h') with
          | inr fs' => Done (inr tt) (with_fs fs' (named (PStr fname) e h'))
          | inl ex => Done (inl ex) (named (PStr fname) e h')
          end).
Proof.
  intros Hread unhashed fname.
  unfold _really_download, answer_info, try_except, extract_info, self.
  unfold bind at 1. cbn [bindR]. unfold bind at 1. cbn [bindR catchR].
  unfold bind at 1, update_entry, modify. cbn [bindR].
  unfold bind at 1, md5sum. unfold bind at 1, fs_read. cbn [fs with_entries].
  rewrite Hread. cbn [bindR ret].
  unfold bind at 1. cbn [bindR].
  unfold bind, fs_test. cbn [bindR fs with_entries entries].
  rewrite alter_set_filename_twice.
  subst fname unhashed. unfold settle_file, hashed_name, fs_write, named.
  destruct (FS.isfile _ (fs h')); cbn [fs with_entries];
    [destruct (FS.unlink _ (fs h'))|destruct (FS.rename _ _ (fs h'))];
    reflexivity.
Qed.

Lemma hashed_name_differs (base ext digest : string) :
  String.length digest = 8 ->
  base +:+ "." +:+ ext <> base +:+ "-" +:+ digest +:+ "." +:+ ext.
Proof.
  intros Hd Heq. apply (f_equal String.length) in Heq.
  rewrite !length_append, Hd in Heq. cbn in Heq. lia.
Qed.



End RealDownload.


(** ** The generic cache path *)

Section GenericCache.
Context (X : Externals).

Lemma listdir_is_dir d fs l : FS.listdir d fs = inr l -> FS.is_dir d fs = true.
Proof.
  unfold FS.listdir, FS.is_dir. destruct (FS.lookup d fs) as [[|c]|]; [reflexivity|discriminate..].
Qed.

Lemma listdir_exists d fs l : FS.listdir d fs = inr l -> FS.exists_ d fs = true.
Proof.
  unfold FS.listdir, FS.exists_. destruct (FS.lookup d fs) as [[|c]|]; [reflexivity|discriminate..].
Qed.

(** The generic path with a file of the entry's name in the folder: the
    task probes the remote length; with the local file of the same size
    it takes that file and asks the resolver for nothing, otherwise it
    starts the real download with [hash=True]. *)
Lemma generic_cache_probe e h p noex ext ldir i :
  expected_filename (entry_at e h) = PStr p ->
  PyStr.split_head "-" (PyStr.basename p) = "generic" ->
  PyStr.rsplit1 "." (PyStr.basename p) = [noex; ext] ->
  FS.listdir (download_folder (entry_at e h)) (fs h) = inr ldir ->
  PyStr.index_of noex (map (rsplit1_head "-") ldir) = Some i ->
  exists k,
    download_body X e h = AwaitHead (url (entry_at e h)) 5 h k
    /\ forall x h2 ldir2 name lsize,
         FS.listdir (download_folder (entry_at e h2)) (fs h2) = inr ldir2 ->
         ldir2 !! i = Some name ->
         FS.getsize (PyStr.path_join (download_folder (entry_at e h2)) name) (fs h2)
           = inr lsize ->
         k x h2
         = if Z.eqb lsize (remote_size X x)
           then Done (inr tt)
                  (with_entries
                     (alter (set_filename
                               (PStr (PyStr.path_join (download_folder (entry_at e h2)) name)))
                            e (entries h2)) h2)
           else _really_download X e true h2.
Proof.
  intros Hexp Hgen Hsplit Hdir Hidx.
  assert (Hmem : PyStr.mem noex (map (rsplit1_head "-") ldir) = true).
  { clear -Hidx. revert i Hidx. unfold PyStr.mem.
    induction (map (rsplit1_head "-") ldir) as [|y l IH];
      intros i Hidx; [discriminate|].
    cbn [PyStr.index_of existsb] in *. destruct (String.eqb_spec y noex) as [->|Hne].
    - rewrite String.eqb_refl. reflexivity.
    - destruct (PyStr.index_of noex l) as [j|]; [|discriminate].
      rewrite (IH j eq_refl). apply orb_true_r. }
  unfold download_body. unfold bind at 1, self. cbn [bindR].
  unfold bind at 1, fs_test. cbn [bindR]. 
  rewrite (listdir_exists _ _ _ Hdir).
  unfold bind at 1. cbn [bindR ret]. rewrite Hexp.
  unfold bind at 1, lift. cbn [bindR os_path_basename]. rewrite Hgen.
  change (String.eqb "generic" "generic") with true. cbn iota.
  unfold bind at 1, fs_read. rewrite Hdir. cbn [bindR].
  unfold bind at 1. rewrite Hsplit. cbn [bindR unpack2 fst]. rewrite Hmem.
  unfold bind at 1, try_except. unfold bind at 1, get_header, session_head.
  unfold bind at 1. cbn [bindR catchR].
  eexists. split; [reflexivity|].
  intros x h2 ldir2 name lsize Hdir2 Hname Hsize. cbn beta.
  assert (Hr : catchR
                 (bindR
                    (match x with
                     | inl e0 => Done (inl e0) h2
                     | inr a => ret (assoc "CONTENT-LENGTH" a) h2
                     end)
                    (fun (v : option string) (h0 : Heap) => Done (py_int X v) h0))
                 (fun _ => ret 0%Z)
               = Done (inr (remote_size X x)) h2).
  { destruct x as [ex|hs]; cbn [bindR catchR remote_size ret]; [reflexivity|].
    unfold ret. cbn [bindR]. destruct (py_int X (assoc "CONTENT-LENGTH" hs)); reflexivity. }
  rewrite Hr. cbn [bindR].
  unfold bind at 1. cbn [bindR].
  unfold bind at 1. rewrite Hdir2. cbn [bindR].
  unfold bind at 1, list_index. rewrite Hidx. cbn [bindR].
  unfold bind at 1, list_item. rewrite Hname. cbn [bindR].
  unfold bind. rewrite Hsize. cbn [bindR].
  destruct (Z.eqb lsize (remote_size X x)); reflexivity.
Qed.
End GenericCache.

(** ** Download tasks in flight *)

Lemma alter_alter {A} (f g : A -> A) i (l : list A) :
  alter f i (alter g i l) = alter (fun x => f (g x)) i l.
Proof.
  apply list_eq. intros j. destruct (decide (i = j)) as [->|Hne].
  - rewrite !list_lookup_alter_eq. destruct (l !! j); reflexivity.
  - rewrite !list_lookup_alter_ne by exact Hne. reflexivity.
Qed.

Lemma quiet_rebase {A} e h0 h1 (r : Res A) :
  erase e h1 = erase e h0 -> quiet e h1 r -> quiet e h0 r.
Proof.
  intros He. destruct r; cbn; try tauto.
  - intros ->. exact He.
  - intros [-> Hk]. auto.
  - intros [-> Hk]. auto.
Qed.

Lemma quiet_bindR {A B} e h0 (r : Res A) (f : A -> M B) :
  quiet e h0 r -> (forall a, quietM e (f a)) -> quiet e h0 (bindR r f).
Proof.
  intros Hr Hf. revert h0 Hr.
  induction r as [x h|u d h k IH|u fld h k IH|fu h k IH]; intros h0 Hr; cbn in *.
  - destruct x as [ex|a]; [exact Hr|].
    apply (quiet_rebase e h0 h); [exact Hr|apply Hf].
  - destruct Hr as [He Hk]. split; [exact He|]. intros x h1. apply IH, Hk.
  - destruct Hr as [He Hk]. split; [exact He|]. intros x h1. apply IH, Hk.
  - contradiction.
Qed.

Lemma quiet_catchR {A} e h0 (r : Res A) (handler : exn -> M A) :
  quiet e h0 r -> (forall ex, quietM e (handler ex)) -> quiet e h0 (catchR r handler).
Proof.
  intros Hr Hf. revert h0 Hr.
  induction r as [x h|u d h k IH|u fld h k IH|fu h k IH]; intros h0 Hr; cbn in *.
  - destruct x as [ex|a]; [|exact Hr].
    apply (quiet_rebase e h0 h); [exact Hr|apply Hf].
  - destruct Hr as [He Hk]. split; [exact He|]. intros x h1. apply IH, Hk.
  - destruct Hr as [He Hk]. split; [exact He|]. intros x h1. apply IH, Hk.
  - contradiction.
Qed.

Lemma quietM_bind {A B} e (m : M A) (f : A -> M B) :
  quietM e m -> (forall a, quietM e (f a)) -> quietM e (bind m f).
Proof. intros Hm Hf h. apply quiet_bindR; [apply Hm|exact Hf]. Qed.

Lemma quietM_try_except {A} e (m : M A) (handler : exn -> M A) :
  quietM e m -> (forall ex, quietM e (handler ex)) -> quietM e (try_except m handler).
Proof. intros Hm Hf h. apply quiet_catchR; [apply Hm|exact Hf]. Qed.

Lemma quietM_ret {A} e (a : A) : quietM e (ret a).
Proof. intros h. reflexivity. Qed.

Lemma quietM_raise {A} e ex : quietM e (@raise A ex).
Proof. intros h. reflexivity. Qed.

Lemma quietM_lift {A} e (r : exn + A) : quietM e (lift r).
Proof. intros h. reflexivity. Qed.

Lemma quietM_self e e' : quietM e (self e').
Proof. intros h. reflexivity. Qed.

Lemma quietM_fs_read {A} e (f : FS.t -> exn + A) : quietM e (fs_read f).
Proof. intros h. reflexivity. Qed.

Lemma quietM_fs_test e f : quietM e (fs_test f).
Proof. intros h. reflexivity. Qed.

Lemma quietM_fs_write e f : quietM e (fs_write f).
Proof. intros h. unfold fs_write. destruct (f (fs h)); reflexivity. Qed.

Lemma quietM_extract_info e u d : quietM e (extract_info u d).
Proof. intros h. cbn. split; [reflexivity|]. intros x h1. reflexivity. Qed.

Lemma quietM_get_header e u fld : quietM e (get_header u fld).
Proof.
  intros h. cbn. split; [reflexivity|]. intros [ex|hs] h1; reflexivity.
Qed.

Lemma set_filename_twice v w x : set_filename v (set_filename w x) = set_filename v x.
Proof. reflexivity. Qed.

Lemma erase_set_filename (e : nat) v (l : list PlaylistEntry) :
  alter (set_filename PNone) e (alter (set_filename v) e l) = alter (set_filename PNone) e l.
Proof.
  apply list_eq. intros j. destruct (decide (e = j)) as [->|Hne].
  - rewrite !list_lookup_alter_eq. destruct (l !! j); reflexivity.
  - rewrite !list_lookup_alter_ne by exact Hne. reflexivity.
Qed.

Lemma quietM_set_filename e v : quietM e (update_entry e (set_filename v)).
Proof.
  intros h. cbn. unfold erase, with_fs, with_entries. cbn.
  rewrite erase_set_filename. reflexivity.
Qed.

Create HintDb quiet.
#[local] Hint Resolve quietM_ret quietM_raise quietM_lift quietM_self quietM_fs_read
  quietM_fs_test quietM_fs_write quietM_extract_info quietM_get_header
  quietM_set_filename : quiet.

(** One step through a program: a sequence, a handler, a branch. *)
Ltac quiet_step :=
  match goal with
  | |- quietM _ (bind _ _) => apply quietM_bind; [|intros ?]
  | |- quietM _ (try_except _ _) => apply quietM_try_except; [|intros ?]
  | |- quietM _ (if ?b then _ else _) => destruct b
  | |- quietM _ (match ?x with _ => _ end) => destruct x
  | |- quietM _ _ => solve [auto with quiet]
  end.

Section InFlight.
Context (X : Externals).

Lemma quietM_md5sum e fname limit : quietM e (md5sum X fname limit).
Proof. unfold md5sum. repeat quiet_step. Qed.

Lemma quietM_really_download e hash : quietM e (_really_download X e hash).
Proof.
  unfold _really_download. pose proof (quietM_md5sum e). repeat quiet_step.
Qed.

Lemma quietM_download_body e : quietM e (download_body X e).
Proof.
  unfold download_body. pose proof (quietM_really_download e).
  repeat quiet_step.
Qed.

Lemma with_futures_same h : with_futures (futures h) h = h.
Proof. destruct h; reflexivity. Qed.

Lemma settle_body r f h :
  (c <- cancelled f ;;
   if c then ret tt else try_except (settle f r) (fun _ => ret tt)) h
  = Done (inr tt) (with_futures (settle_one r (futures h) f) h).
Proof.
  unfold bind, cancelled. cbn [bindR]. unfold settle_one, try_except, settle, future_at.
  destruct (default Pending (futures h !! f)) eqn:Hf; cbn beta iota; rewrite ?Hf;
    cbn [catchR ret]; rewrite ?with_futures_same; reflexivity.
Qed.

Lemma for_each_settle r l : forall h,
  for_each l (fun future =>
    c <- cancelled future ;;
    if c then ret tt else try_except (settle future r) (fun _ => ret tt)) h
  = Done (inr tt) (with_futures (settle_all r l (futures h)) h).
Proof.
  induction l as [|f l IH]; intros h; cbn [for_each].
  - unfold ret. cbn. rewrite with_futures_same. reflexivity.
  - unfold bind at 1. rewrite settle_body. cbn [bindR]. rewrite IH. reflexivity.
Qed.

Lemma for_each_future_settle e r h :
  _for_each_future e (fun future => settle future r) h = Done (inr tt) (resolved e r h).
Proof.
  unfold _for_each_future. unfold bind at 1, self. cbn [bindR].
  unfold bind at 1, update_entry, modify. cbn [bindR].
  rewrite for_each_settle. reflexivity.
Qed.

Lemma completes_wrap e (r : Res unit) : forall h0,
  quiet e h0 r ->
  completes e h0
    (finallyR
       (catchR
          (bindR r (fun _ => _for_each_future e (fun future => set_result future e)))
          (fun ex => _for_each_future e (fun future => set_exception future ex)))
       (fun h => with_entries (alter (set_is_downloading false) e (entries h)) h)).
Proof.
  induction r as [x h|u d h k IH|u fld h k IH|fu h k IH]; intros h0 Hq; cbn in Hq.
  - destruct x as [ex|[]]; cbn [bindR catchR].
    + unfold set_exception. rewrite for_each_future_settle. cbn.
      split; [reflexivity|]. exists h, (inl ex). eauto.
    + unfold set_result. rewrite for_each_future_settle. cbn.
      split; [reflexivity|]. exists h, (inr e). eauto.
  - destruct Hq as [He Hk]. cbn. split; [exact He|]. intros x h1. apply IH, Hk.
  - destruct Hq as [He Hk]. cbn. split; [exact He|]. intros x h1. apply IH, Hk.
  - contradiction.
Qed.

Lemma download_guard e h :
  _is_downloading (entry_at e h) = true -> _download X e h = Done (inr tt) h.
Proof.
  intros Hf. unfold _download. unfold bind at 1, self. cbn [bindR]. rewrite Hf. reflexivity.
Qed.

Lemma download_completes e h :
  _is_downloading (entry_at e h) = false ->
  completes e (with_entries (alter (set_is_downloading true) e (entries h)) h)
    (_download X e h).
Proof.
  intros Hf. unfold _download. unfold bind at 1, self. cbn [bindR]. rewrite Hf.
  unfold bind at 1, update_entry, modify. cbn [bindR].
  unfold try_finally, try_except. unfold bind at 1.
  apply completes_wrap. apply quietM_download_body.
Qed.
End InFlight.

(** ** At most one download at a time *)

(** What an equal erasure tells. *)
Lemma erase_entry {B} e h h0 (g : PlaylistEntry -> B) e' :
  erase e h = erase e h0 ->
  (forall v x, g (set_filename v x) = g x) ->
  g (entry_at e' h) = g (entry_at e' h0).
Proof.
  intros He Hg. apply (f_equal entries) in He. cbn in He.
  apply (f_equal (fun l => l !! e')) in He.
  unfold entry_at. destruct (decide (e = e')) as [->|Hne].
  - rewrite !list_lookup_alter_eq in He.
    destruct (entries h !! e') as [p|], (entries h0 !! e') as [p0|];
      try discriminate He; [|reflexivity].
    pose proof (f_equal (fun o => match o with Some y => g y | None => g p end) He) as He'.
    cbn beta iota in He'. change (g (set_filename PNone p) = g (set_filename PNone p0)) in He'.
    rewrite !Hg in He'. exact He'.
  - rewrite !list_lookup_alter_ne in He by exact Hne. rewrite He. reflexivity.
Qed.

Lemma erase_flag e h h0 e' :
  erase e h = erase e h0 ->
  _is_downloading (entry_at e' h) = _is_downloading (entry_at e' h0).
Proof. intros He. apply (erase_entry e h h0 _is_downloading e' He). reflexivity. Qed.

Lemma erase_waiting e h h0 e' :
  erase e h = erase e h0 ->
  _waiting_futures (entry_at e' h) = _waiting_futures (entry_at e' h0).
Proof. intros He. apply (erase_entry e h h0 _waiting_futures e' He). reflexivity. Qed.

Lemma erase_futures e h h0 : erase e h = erase e h0 -> futures h = futures h0.
Proof. intros He. apply (f_equal futures) in He. exact He. Qed.

Lemma erase_spawned e h h0 : erase e h = erase e h0 -> spawned h = spawned h0.
Proof. intros He. apply (f_equal spawned) in He. exact He. Qed.

Lemma erase_length e h h0 :
  erase e h = erase e h0 -> length (entries h) = length (entries h0).
Proof.
  intros He. apply (f_equal (fun x => length (entries x))) in He. cbn in He.
  rewrite !length_alter in He. exact He.
Qed.

(** The futures after the waiters have been settled. *)
Lemma settle_one_length r fs f : length (settle_one r fs f) = length fs.
Proof. unfold settle_one. destruct (default Pending (fs !! f)); rewrite ?length_insert; reflexivity. Qed.

Lemma settle_all_length r l : forall fs, length (settle_all r l fs) = length fs.
Proof.
  induction l as [|f l IH]; intros fs; [reflexivity|].
  unfold settle_all in *. cbn. rewrite IH. apply settle_one_length.
Qed.

Lemma settle_one_keeps r fs f g :
  fs !! g = Some (Finished r) -> settle_one r fs f !! g = Some (Finished r).
Proof.
  intros Hg. unfold settle_one. destruct (default Pending (fs !! f)) eqn:Hf; try exact Hg.
  destruct (decide (f = g)) as [->|Hne].
  - rewrite Hg in Hf. discriminate.
  - rewrite list_lookup_insert_ne by exact Hne. exact Hg.
Qed.

Lemma settle_all_keeps r l : forall fs g,
  fs !! g = Some (Finished r) -> settle_all r l fs !! g = Some (Finished r).
Proof.
  induction l as [|f l IH]; intros fs g Hg; [exact Hg|].
  unfold settle_all in *. cbn. apply IH, settle_one_keeps, Hg.
Qed.

Lemma settle_all_pending r l : forall fs f,
  f ∈ l -> fs !! f = Some Pending -> settle_all r l fs !! f = Some (Finished r).
Proof.
  induction l as [|g l IH]; intros fs f Hin Hf; [inversion Hin|].
  unfold settle_all in *. cbn.
  destruct (decide (f = g)) as [->|Hne].
  - apply settle_all_keeps. unfold settle_one. rewrite Hf. cbn.
    apply list_lookup_insert_eq. apply lookup_lt_Some in Hf. exact Hf.
  - apply IH.
    + apply elem_of_cons in Hin as [?|?]; [congruence|assumption].
    + unfold settle_one. destruct (default Pending (fs !! g)); try exact Hf.
      rewrite list_lookup_insert_ne by congruence. exact Hf.
Qed.

(** The end of a [_download]. *)
Lemma finished_flag e r h e' :
  _is_downloading (entry_at e' (finished e r h))
  = if decide (e = e') then false else _is_downloading (entry_at e' h).
Proof.
  unfold finished, resolved, entry_at. cbn [entries with_entries with_futures].
  destruct (decide (e = e')) as [->|Hne].
  - rewrite !list_lookup_alter_eq. destruct (entries h !! e'); reflexivity.
  - rewrite !list_lookup_alter_ne by exact Hne. reflexivity.
Qed.

Lemma finished_waiting e r h e' :
  _waiting_futures (entry_at e' (finished e r h))
  = if decide (e = e') then [] else _waiting_futures (entry_at e' h).
Proof.
  unfold finished, resolved, entry_at. cbn [entries with_entries with_futures].
  destruct (decide (e = e')) as [->|Hne].
  - rewrite !list_lookup_alter_eq. destruct (entries h !! e'); reflexivity.
  - rewrite !list_lookup_alter_ne by exact Hne. reflexivity.
Qed.

Lemma finished_futures e r h :
  futures (finished e r h) = settle_all r (_waiting_futures (entry_at e h)) (futures h).
Proof. reflexivity. Qed.

Lemma finished_length e r h : length (entries (finished e r h)) = length (entries h).
Proof. unfold finished, resolved. cbn. rewrite !length_alter. reflexivity. Qed.

Lemma finished_spawned e r h : spawned (finished e r h) = spawned h.
Proof. reflexivity. Qed.

(** Counting the routines in progress. *)
Lemma omap_resumed_app r1 r2 :
  omap resumed (r1 ++ r2) = omap resumed r1 ++ omap resumed r2.
Proof. induction r1 as [|[e|e c] r1 IH]; cbn; rewrite ?IH; reflexivity. Qed.

Lemma omap_resumed_start s : omap resumed (map Start s) = [].
Proof. induction s as [|e s IH]; cbn; [reflexivity|exact IH]. Qed.

Lemma count_one e e' : count_occ Nat.eq_dec [e] e' = if decide (e = e') then 1 else 0.
Proof. cbn. destruct (Nat.eq_dec e e'), (decide (e = e')); congruence. Qed.

Lemma count_parked_delete (p : list (nat * Res unit)) : forall i t e',
  p !! i = Some t ->
  count_occ Nat.eq_dec (map fst p) e'
  = count_occ Nat.eq_dec (map fst (delete i p)) e' + (if decide (t.1 = e') then 1 else 0).
Proof.
  induction p as [|t0 p IH]; intros i t e' Hi; [discriminate|].
  destruct i as [|i]; cbn in Hi.
  - injection Hi as ->. cbn.
    destruct (Nat.eq_dec t.1 e'), (decide (t.1 = e')); try congruence; lia.
  - cbn. rewrite (IH i t e' Hi).
    destruct (Nat.eq_dec t0.1 e'), (decide (t.1 = e')); reflexivity.
Qed.

Lemma parked_ok_mono n m t : n = m -> parked_ok n t -> parked_ok m t.
Proof. intros ->. auto. Qed.

(** The loop after one of its tasks has run a stretch. *)
Lemma run_task_inv e (r : Res unit) rest p h1 :
  e < length (entries h1) ->
  spawned h1 = [] ->
  Forall (parked_ok (length (entries h1))) p ->
  Forall (ready_ok (length (entries h1))) rest ->
  (forall e', count_occ Nat.eq_dec (map fst p ++ omap resumed rest) e'
              = if decide (e = e') then 0
                else if _is_downloading (entry_at e' h1) then 1 else 0) ->
  _is_downloading (entry_at e h1) = true ->
  waiters_exist h1 ->
  completes e h1 r ->
  inv (settle_task e r rest p).
Proof.
  intros He Hsp Hp Hr Hcount Hflag Hw Hc.
  assert (Hawait : forall h2,
    erase e h2 = erase e h1 ->
    parked_ok (length (entries h1)) (e, r) ->
    inv (flush h2 rest (p ++ [(e, r)]))).
  { intros h2 Her Hok. unfold inv, flush. cbn [heap ready parked].
    change (entries (with_spawned [] h2)) with (entries h2).
    rewrite (erase_spawned _ _ _ Her), Hsp, (erase_length _ _ _ Her). cbn [map].
    rewrite app_nil_r.
    split; [reflexivity|]. split; [apply Forall_app; split; [exact Hp|constructor; [exact Hok|constructor]]|].
    split; [exact Hr|]. split.
    - intros e'. unfold active, owners. cbn [parked ready].
      rewrite map_app. cbn [map fst].
      change (entry_at e' (with_spawned [] h2)) with (entry_at e' h2).
      rewrite (erase_flag _ _ _ e' Her).
      specialize (Hcount e'). rewrite count_occ_app in Hcount.
      rewrite !count_occ_app, count_one.
      destruct (decide (e = e')) as [->|Hne]; [rewrite Hflag|];
        destruct (_is_downloading (entry_at e' h1)); lia.
    - intros e' f. change (entry_at e' (with_spawned [] h2)) with (entry_at e' h2).
      change (futures (with_spawned [] h2)) with (futures h2).
      rewrite (erase_waiting _ _ _ e' Her), (erase_futures _ _ _ Her). apply Hw. }
  destruct r as [x h2|u d h2 k|u fld h2 k|fu h2 k]; cbn in Hc.
  - destruct Hc as (-> & hb & out & Her & -> & Hout).
    unfold settle_task, inv, flush. cbn [heap ready parked].
    change (entries (with_spawned [] (finished e out hb))) with (entries (finished e out hb)).
    rewrite finished_spawned, (erase_spawned _ _ _ Her), Hsp, finished_length,
      (erase_length _ _ _ Her). cbn [map]. rewrite app_nil_r.
    split; [reflexivity|]. split; [exact Hp|]. split; [exact Hr|]. split.
    + intros e'. unfold active, owners. cbn [parked ready].
      change (entry_at e' (with_spawned [] (finished e out hb)))
        with (entry_at e' (finished e out hb)).
      rewrite finished_flag, Hcount.
      destruct (decide (e = e')); [reflexivity|].
      rewrite (erase_flag _ _ _ e' Her). reflexivity.
    + intros e' f.
      change (entry_at e' (with_spawned [] (finished e out hb)))
        with (entry_at e' (finished e out hb)).
      change (futures (with_spawned [] (finished e out hb)))
        with (futures (finished e out hb)).
      rewrite finished_waiting, finished_futures, settle_all_length.
      destruct (decide (e = e')); [intros Hin; inversion Hin|].
      rewrite (erase_waiting _ _ _ e' Her), (erase_futures _ _ _ Her). apply Hw.
  - destruct Hc as [Her Hk]. apply Hawait; [exact Her|]. split; [exact He|exact Hk].
  - destruct Hc as [Her Hk]. apply Hawait; [exact Her|]. split; [exact He|exact Hk].
  - contradiction.
Qed.

Lemma keeps_waiters_same e h h' :
  _waiting_futures (entry_at e h) = _waiting_futures (entry_at e h') -> keeps_waiters e h h'.
Proof. intros H. unfold keeps_waiters. rewrite H. reflexivity. Qed.

Lemma future_at_pending f h :
  f < length (futures h) -> future_at f h = Pending -> futures h !! f = Some Pending.
Proof.
  intros Hlt Hf. unfold future_at in Hf.
  destruct (lookup_lt_is_Some_2 _ _ Hlt) as [x Hx]. rewrite Hx in Hf |- *. cbn in Hf. congruence.
Qed.

(** What the stretch does to the waiters. *)
Lemma run_task_waiters e (r : Res unit) h1 e' :
  waiters_exist h1 ->
  completes e h1 r ->
  settles e' h1 (stop_heap r) \/ keeps_waiters e' h1 (stop_heap r).
Proof.
  intros Hw Hc.
  destruct r as [x h2|u d h2 k|u fld h2 k|fu h2 k]; cbn in Hc; cbn [stop_heap].
  - destruct Hc as (-> & hb & out & Her & -> & Hout).
    destruct (decide (e = e')) as [<-|Hne].
    + left. unfold settles. rewrite finished_waiting, finished_flag.
      destruct (decide (e = e)); [|congruence].
      split; [reflexivity|]. split; [reflexivity|]. exists out. split; [exact Hout|].
      intros f Hin Hpend. unfold future_at. rewrite finished_futures.
      rewrite (settle_all_pending out _ (futures hb) f); [reflexivity| |].
      * rewrite (erase_waiting _ _ _ e Her). exact Hin.
      * rewrite (erase_futures _ _ _ Her). apply future_at_pending; [|exact Hpend].
        apply (Hw e f Hin).
    + right. apply keeps_waiters_same. rewrite finished_waiting.
      destruct (decide (e = e')); [congruence|].
      symmetry. apply (erase_waiting _ _ _ e' Her).
  - right. apply keeps_waiters_same. symmetry. apply (erase_waiting _ _ _ e' (proj1 Hc)).
  - right. apply keeps_waiters_same. symmetry. apply (erase_waiting _ _ _ e' (proj1 Hc)).
  - contradiction.
Qed.

Lemma heap_settle_task e r rest p : heap (settle_task e r rest p) = with_spawned [] (stop_heap r).
Proof. destruct r; reflexivity. Qed.

(** A readiness request leaves flags alone and registers a real future. *)
Lemma ready_heap_flag e h e' :
  _is_downloading (entry_at e' (ready_heap e h)) = _is_downloading (entry_at e' h).
Proof.
  unfold ready_heap. destruct (is_downloaded (entry_at e h)); [reflexivity|].
  unfold entry_at. cbn [entries with_entries].
  destruct (decide (e = e')) as [->|Hne].
  - rewrite list_lookup_alter_eq. destruct (entries h !! e'); reflexivity.
  - rewrite list_lookup_alter_ne by exact Hne. reflexivity.
Qed.

Lemma ready_heap_waiting e h e' :
  _waiting_futures (entry_at e' (ready_heap e h))
  = _waiting_futures (entry_at e' h)
    ++ (if is_downloaded (entry_at e h) then []
        else if decide (e = e') then
               match entries h !! e with Some _ => [length (futures h)] | None => [] end
             else []).
Proof.
  unfold ready_heap. destruct (is_downloaded (entry_at e h)); [rewrite app_nil_r; reflexivity|].
  unfold entry_at. cbn [entries with_entries].
  destruct (decide (e = e')) as [->|Hne].
  - rewrite list_lookup_alter_eq. destruct (entries h !! e'); cbn; [reflexivity|].
    rewrite ?app_nil_r. reflexivity.
  - rewrite list_lookup_alter_ne by exact Hne. rewrite app_nil_r. reflexivity.
Qed.

Lemma ready_heap_futures_length e h :
  length (futures (ready_heap e h)) = S (length (futures h)).
Proof.
  unfold ready_heap. destruct (is_downloaded (entry_at e h)); cbn; rewrite length_app; cbn; lia.
Qed.

Lemma ready_heap_waiters e h : waiters_exist h -> waiters_exist (ready_heap e h).
Proof.
  intros Hw e' f. rewrite ready_heap_waiting, ready_heap_futures_length.
  intros Hin. apply elem_of_app in Hin as [Hin|Hin].
  - specialize (Hw e' f Hin). lia.
  - destruct (is_downloaded (entry_at e h)); [inversion Hin|].
    destruct (decide (e = e')); [|inversion Hin].
    destruct (entries h !! e); [|inversion Hin].
    apply list_elem_of_singleton in Hin. lia.
Qed.

Lemma ready_heap_spawned e h :
  spawned (ready_heap e h)
  = spawned h ++ (if is_downloaded (entry_at e h) then [] else [e]).
Proof.
  unfold ready_heap. destruct (is_downloaded (entry_at e h)); cbn; rewrite ?app_nil_r; reflexivity.
Qed.

Section LoopInvariant.
Context (X : Externals).

Lemma set_flag_entry e h e' :
  _is_downloading
    (entry_at e' (with_entries (alter (set_is_downloading true) e (entries h)) h))
  = if decide (e = e') then
      match entries h !! e with Some _ => true | None => false end
    else _is_downloading (entry_at e' h).
Proof.
  unfold entry_at. cbn [entries with_entries].
  destruct (decide (e = e')) as [->|Hne].
  - rewrite list_lookup_alter_eq. destruct (entries h !! e'); reflexivity.
  - rewrite list_lookup_alter_ne by exact Hne. reflexivity.
Qed.

Lemma set_flag_waiting e h e' :
  _waiting_futures
    (entry_at e' (with_entries (alter (set_is_downloading true) e (entries h)) h))
  = _waiting_futures (entry_at e' h).
Proof.
  unfold entry_at. cbn [entries with_entries].
  destruct (decide (e = e')) as [->|Hne].
  - rewrite list_lookup_alter_eq. destruct (entries h !! e'); reflexivity.
  - rewrite list_lookup_alter_ne by exact Hne. reflexivity.
Qed.

Lemma settles_transfer e h h1 h' :
  (forall e0, _waiting_futures (entry_at e0 h1) = _waiting_futures (entry_at e0 h)) ->
  futures h1 = futures h ->
  settles e h1 h' \/ keeps_waiters e h1 h' ->
  settles e h (with_spawned [] h') \/ keeps_waiters e h (with_spawned [] h').
Proof.
  intros Hw Hf [(H1 & H2 & out & Hout & H3)|Hk].
  - left. split; [exact H1|]. split; [exact H2|]. exists out. split; [exact Hout|].
    intros f Hin Hp. apply H3; [rewrite Hw; exact Hin|].
    unfold future_at in *. rewrite Hf. exact Hp.
  - right. unfold keeps_waiters in *. rewrite <- Hw. exact Hk.
Qed.

(** Every event keeps the invariant, and either settles the waiters of
    an entry together or keeps them. *)
Lemma exec_inv a l l' :
  inv l ->
  exec X a l = Some l' ->
  inv l'
  /\ forall e, settles e (heap l) (heap l') \/ keeps_waiters e (heap l) (heap l').
Proof.
  intros (Hsp & Hp & Hr & Hcount & Hw) Hexec.
  destruct l as [h rd pk]. cbn [heap ready parked] in *.
  destruct a as [e| |i x|i x|fs'|f]; cbn [exec heap ready parked] in Hexec.
  - (* a request *)
    destruct (Nat.ltb_spec e (length (entries h))) as [He|]; [|discriminate].
    rewrite get_ready_future_eq in Hexec. injection Hexec as <-.
    unfold flush. cbn [heap]. split.
    + unfold inv. cbn [heap ready parked].
      change (entries (with_spawned [] (ready_heap e h))) with (entries (ready_heap e h)).
      rewrite ready_heap_length, ready_heap_spawned, Hsp. cbn [app].
      split; [reflexivity|]. split; [exact Hp|]. split.
      { apply Forall_app. split; [exact Hr|].
        destruct (is_downloaded (entry_at e h)); cbn; [constructor|].
        constructor; [exact He|constructor]. }
      split.
      { intros e'. unfold active, owners. cbn [parked ready].
        rewrite omap_resumed_app, omap_resumed_start, app_nil_r.
        change (entry_at e' (with_spawned [] (ready_heap e h)))
          with (entry_at e' (ready_heap e h)).
        rewrite ready_heap_flag. apply Hcount. }
      { apply (ready_heap_waiters e h Hw). }
    + intros e'. right. unfold keeps_waiters.
      change (entry_at e' (with_spawned [] (ready_heap e h)))
        with (entry_at e' (ready_heap e h)).
      rewrite ready_heap_waiting. apply prefix_app_r. reflexivity.
  - (* the loop runs a callback *)
    unfold run_next in Hexec. cbn [ready heap parked] in Hexec.
    destruct rd as [|[e|e c] rest]; [discriminate| |]; injection Hexec as <-;
      inversion Hr as [|? ? Hok Hrest]; subst.
    + (* a task starts *)
      cbn in Hok.
      destruct (_is_downloading (entry_at e h)) eqn:Hflag.
      * rewrite (download_guard X e h Hflag). cbn [settle_task]. unfold flush. rewrite Hsp.
        cbn [map heap]. rewrite app_nil_r. split.
        { unfold inv. cbn [heap ready parked].
          split; [reflexivity|]. split; [exact Hp|]. split; [exact Hrest|].
          split; [|exact Hw].
          intros e'. specialize (Hcount e'). unfold active, owners in *.
          cbn [parked ready] in *.
          change (omap resumed (Start e :: rest)) with (omap resumed rest) in Hcount.
          exact Hcount. }
        { intros e'. right. apply keeps_waiters_same. reflexivity. }
      * pose proof (download_completes X e h Hflag) as Hc.
        set (h1 := with_entries (alter (set_is_downloading true) e (entries h)) h) in *.
        assert (Hlen1 : length (entries h1) = length (entries h))
          by (unfold h1; cbn; apply length_alter).
        destruct (lookup_lt_is_Some_2 _ _ Hok) as [x0 Hx0].
        assert (Hw1 : waiters_exist h1).
        { intros e' f. unfold h1. rewrite set_flag_waiting. apply Hw. }
        split.
        { apply (run_task_inv e _ rest pk h1); try rewrite Hlen1; auto.
          - intros e'. specialize (Hcount e'). unfold active, owners in Hcount.
            cbn [parked ready] in Hcount.
            change (omap resumed (Start e :: rest)) with (omap resumed rest) in Hcount.
            rewrite Hcount.
            unfold h1. rewrite set_flag_entry.
            destruct (decide (e = e')) as [<-|]; [rewrite Hflag|]; reflexivity.
          - unfold h1. rewrite set_flag_entry, Hx0.
            destruct (decide (e = e)); [reflexivity|congruence]. }
        { intros e'. rewrite heap_settle_task.
          apply (settles_transfer e' h h1).
          - intros e0. unfold h1. apply set_flag_waiting.
          - reflexivity.
          - apply (run_task_waiters e _ h1 e' Hw1 Hc). }
    + (* a task resumes *)
      destruct Hok as [He Hc]. specialize (Hc h).
      assert (Hflag : _is_downloading (entry_at e h) = true).
      { specialize (Hcount e). unfold active, owners in Hcount.
        cbn [parked ready] in Hcount.
        change (omap resumed (Resume e c :: rest)) with (e :: omap resumed rest) in Hcount.
        rewrite count_occ_app in Hcount. cbn [count_occ] in Hcount.
        destruct (Nat.eq_dec e e); [|congruence].
        destruct (_is_downloading (entry_at e h)); [reflexivity|lia]. }
      split.
      { apply (run_task_inv e _ rest pk h); auto.
        intros e'. specialize (Hcount e'). unfold active, owners in Hcount.
        cbn [parked ready] in Hcount.
        change (omap resumed (Resume e c :: rest)) with (e :: omap resumed rest) in Hcount.
        rewrite count_occ_app in Hcount |- *. cbn [count_occ] in Hcount.
        destruct (decide (e = e')) as [<-|Hne].
        - rewrite Hflag in Hcount. destruct (Nat.eq_dec e e); [lia|congruence].
        - destruct (Nat.eq_dec e e'); [congruence|exact Hcount]. }
      { intros e'. rewrite heap_settle_task.
        apply (settles_transfer e' h h); auto.
        apply (run_task_waiters e _ h e' Hw Hc). }
  - (* the resolver answers *)
    destruct (pk !! i) as [[e r]|] eqn:Hi; [|discriminate].
    destruct r as [?|u d h0 k|?|?]; try discriminate. injection Hexec as <-.
    pose proof (Forall_lookup_1 _ _ _ _ Hp Hi) as [He Hk]. cbn in He, Hk.
    split.
    + unfold inv. cbn [heap ready parked].
      split; [exact Hsp|]. split; [apply Forall_delete, Hp|]. split.
      { apply Forall_app. split; [exact Hr|]. constructor; [|constructor].
        split; [exact He|]. intros h1. apply Hk. }
      split; [|exact Hw].
      intros e'. specialize (Hcount e'). unfold active, owners in *.
      cbn [parked ready] in *. rewrite omap_resumed_app.
      rewrite !count_occ_app in *.
      rewrite (count_parked_delete pk i _ e' Hi) in Hcount. cbn [fst] in Hcount.
      change (omap resumed [Resume e (k x)]) with [e]. rewrite count_one.
      rewrite <- Hcount. 
      destruct (decide (e = e')); lia.
    + intros e'. right. apply keeps_waiters_same. reflexivity.
  - (* a probe answers *)
    destruct (pk !! i) as [[e r]|] eqn:Hi; [|discriminate].
    destruct r as [?|?|u fld h0 k|?]; try discriminate. injection Hexec as <-.
    pose proof (Forall_lookup_1 _ _ _ _ Hp Hi) as [He Hk]. cbn in He, Hk.
    split.
    + unfold inv. cbn [heap ready parked].
      split; [exact Hsp|]. split; [apply Forall_delete, Hp|]. split.
      { apply Forall_app. split; [exact Hr|]. constructor; [|constructor].
        split; [exact He|]. intros h1. apply Hk. }
      split; [|exact Hw].
      intros e'. specialize (Hcount e'). unfold active, owners in *.
      cbn [parked ready] in *. rewrite omap_resumed_app.
      rewrite !count_occ_app in *.
      rewrite (count_parked_delete pk i _ e' Hi) in Hcount. cbn [fst] in Hcount.
      change (omap resumed [Resume e (k x)]) with [e]. rewrite count_one.
      rewrite <- Hcount.
      destruct (decide (e = e')); lia.
    + intros e'. right. apply keeps_waiters_same. reflexivity.
  - (* the files change *)
    injection Hexec as <-. split.
    + unfold inv. cbn [heap ready parked]. auto.
    + intros e'. right. apply keeps_waiters_same. reflexivity.
  - (* a waiter is abandoned *)
    destruct (future_at f h); try discriminate. injection Hexec as <-. split.
    + unfold inv. cbn [heap ready parked]. repeat (split; [assumption|]).
      intros e' g Hin. cbn [futures with_futures]. rewrite length_insert. apply (Hw e' g Hin).
    + intros e'. right. apply keeps_waiters_same. reflexivity.
Qed.

Lemma steps_inv l0 l : inv l0 -> steps X l0 l -> inv l.
Proof.
intros H0 Hs. induction Hs as [|l1 l2 l3 _ IH [a Ha]]; [exact H0|].
apply (exec_inv a l2 l3 (IH H0) Ha).
Qed.

Lemma run_steps sched : forall l l', run X sched l = Some l' -> steps X l l'.
Proof.
induction sched as [|a sched IH]; intros l l' Hrun; cbn in Hrun.
- injection Hrun as <-. constructor.
- destruct (exec X a l) as [l1|] eqn:Ha; [|discriminate].
  specialize (IH l1 l' Hrun). clear Hrun.
  induction IH as [|l2 l3 l4 _ IH2 Hstep].
  + econstructor; [constructor|]. exists a. exact Ha.
  + econstructor; [apply IH2; exact Ha|exact Hstep].
Qed.

(** On every schedule, from a loop with nothing in progress: an entry has
  at most one [_download] past its guard, and its flag is set exactly
  then; a [_download] that starts meanwhile returns at once and leaves
  the heap as it is; the waiters of an entry are settled all at once,
  with one outcome, the entry or an exception, or else are kept. *)
Theorem single_flight l0 l :
inv l0 ->
steps X l0 l ->
(forall e, active e l <= 1)
/\ (forall e, _is_downloading (entry_at e (heap l)) = true <-> active e l = 1)
/\ (forall e, _is_downloading (entry_at e (heap l)) = true ->
              _download X e (heap l) = Done (inr tt) (heap l))
/\ (forall a l', exec X a l = Some l' ->
      forall e, settles e (heap l) (heap l') \/ keeps_waiters e (heap l) (heap l')).
Proof.
intros H0 Hs. pose proof (steps_inv l0 l H0 Hs) as Hinv.
pose proof Hinv as (_ & _ & _ & Hcount & _).
split; [|split; [|split]].
- intros e. rewrite Hcount. destruct (_is_downloading _); lia.
- intros e. rewrite Hcount. destruct (_is_downloading _); split; congruence.
- intros e. apply download_guard.
- intros a l' Ha. apply (exec_inv a l l' Hinv Ha).
Qed.

End LoopInvariant.

(** A loop with nothing to run, no flag set and real waiters. *)
Lemma inv_idle h :
  spawned h = [] ->
  (forall e, _is_downloading (entry_at e h) = false) ->
  waiters_exist h ->
  inv (mkLoop h [] []).
Proof.
  intros Hsp Hfl Hw. unfold inv. cbn [heap ready parked].
  split; [exact Hsp|]. split; [constructor|]. split; [constructor|]. split; [|exact Hw].
  intros e. rewrite Hfl. reflexivity.
Qed.

Lemma single_flight_example :
  forall l, run Sample.X Sample.two_callers Sample.idle = Some l ->
            forall e, active e l <= 1.
Proof.
  intros l Hrun. apply (single_flight Sample.X Sample.idle l).
  - apply inv_idle; [reflexivity| |].
    + intros [|[|e]]; reflexivity.
    + intros [|[|e]] f Hin; inversion Hin.
  - apply (run_steps Sample.X _ _ _ Hrun).
Qed.

(** ** Schedules that go wrong *)

(** C1 at [Sample.two_callers]: both requests are made while the entry is
    not downloaded, both waiters receive the entry, and the routine passes
    its guard twice and asks the resolver to download twice: the task of
    the second request starts after the first has cleared the flag, finds
    the file of the first, cannot learn the remote length, and downloads
    again.  And at [Sample.same_tick], with the file in the folder: the
    routine passes its guard twice as well, and the resolver is never
    asked. *)
Theorem two_callers_download_twice :
  (fun l => is_downloaded (entry_at 0 (heap l)))
     <$> run Sample.X (take 4 Sample.two_callers) Sample.idle = Some false
  /\ (fun l => (futures (heap l), length (ready l), length (parked l)))
       <$> run Sample.X (take 6 Sample.two_callers) Sample.idle
     = Some ([Finished (inr 0); Finished (inr 0)], 1, 0)
  /\ downloads_parked <$> run Sample.X Sample.two_callers Sample.idle = Some 1
  /\ routines_begun Sample.X Sample.two_callers Sample.idle = 2
  /\ invocations Sample.X Sample.two_callers Sample.idle = 2
  /\ (fun l => (futures (heap l), filename (entry_at 0 (heap l))))
       <$> run Sample.X Sample.same_tick Sample.named_cached
     = Some ([Finished (inr 0); Finished (inr 0)], PStr "audio_cache/youtube-a.m4a")
  /\ routines_begun Sample.X Sample.same_tick Sample.named_cached = 2
  /\ invocations Sample.X Sample.same_tick Sample.named_cached = 0.
Proof. repeat split; vm_compute; reflexivity. Qed.

(** C5 at [Sample.lost_file]: the download fails on the missing file, the
    waiter receives the error and the flag is cleared, but the entry keeps
    the file name it was given before the digest was computed: it counts as
    downloaded, and the next request is answered at once with the entry,
    without a new download. *)
Theorem failed_download_counts_as_downloaded :
  (fun l => (futures (heap l), entry_at 0 (heap l),
             FS.isfile "audio_cache/generic-a.mp3" (fs (heap l))))
     <$> run Sample.X Sample.lost_file Sample.idle
  = Some ([Finished (inl (FileNotFoundError "audio_cache/generic-a.mp3"))],
          set_filename (PStr "audio_cache/generic-a.mp3") Sample.generic_entry,
          false)
  /\ is_downloaded (set_filename (PStr "audio_cache/generic-a.mp3") Sample.generic_entry) = true
  /\ (fun l => (future_at 1 (heap l), length (ready l), length (parked l)))
       <$> run Sample.X (Sample.lost_file ++ [Request 0]) Sample.idle
     = Some (Finished (inr 0), 0, 0).
Proof. repeat split; vm_compute; reflexivity. Qed.

(** C6 at [Sample.empty_cached] and [Sample.probe_times_out]: the probe
    fails, the remote length is taken to be 0, which is the size of the
    empty file in the folder, and the entry is resolved to that file; the
    resolver is never asked to download. *)
Theorem failed_probe_reuses_empty_file :
  (fun l => (filename (entry_at 0 (heap l)),
             FS.getsize "audio_cache/generic-a-44444444.mp3" (fs (heap l)),
             futures (heap l), length (ready l), length (parked l)))
     <$> run Sample.X Sample.probe_times_out Sample.empty_cached
  = Some (PStr "audio_cache/generic-a-44444444.mp3", inr 0%Z, [Finished (inr 0)], 0, 0)
  /\ invocations Sample.X Sample.probe_times_out Sample.empty_cached = 0.
Proof. repeat split; vm_compute; reflexivity. Qed.

(** ** Entries of the named extractors *)

Lemma index_of_mem x (l : list string) i : PyStr.index_of x l = Some i -> PyStr.mem x l = true.
Proof.
  revert i. unfold PyStr.mem. induction l as [|y l IH]; intros i Hidx; [discriminate|].
  cbn [PyStr.index_of existsb] in *. destruct (String.eqb_spec y x) as [->|Hne].
  - rewrite String.eqb_refl. reflexivity.
  - destruct (PyStr.index_of x l) as [j|]; [|discriminate].
    destruct (String.eqb_spec x y); [congruence|]. apply (IH j eq_refl).
Qed.

Lemma index_of_none x (l : list string) : PyStr.index_of x l = None -> PyStr.mem x l = false.
Proof.
  unfold PyStr.mem. induction l as [|y l IH]; intros Hidx; [reflexivity|].
  cbn [PyStr.index_of existsb] in *. destruct (String.eqb_spec y x) as [->|Hne]; [discriminate|].
  destruct (PyStr.index_of x l) as [j|]; [discriminate|].
  destruct (String.eqb_spec x y); [congruence|]. apply IH. reflexivity.
Qed.

(** Setting the flag changes nothing else. *)
Lemma entry_at_begun {B} (g : PlaylistEntry -> B) e h e' :
  (forall b x, g (set_is_downloading b x) = g x) ->
  g (entry_at e' (begun e h)) = g (entry_at e' h).
Proof.
  intros Hg. unfold entry_at, begun. cbn [entries with_entries].
  destruct (decide (e = e')) as [->|Hne].
  - rewrite list_lookup_alter_eq. destruct (entries h !! e'); cbn; [apply Hg|reflexivity].
  - rewrite list_lookup_alter_ne by exact Hne. reflexivity.
Qed.

Lemma download_begins X e h :
  _is_downloading (entry_at e h) = false ->
  _download X e h
  = finallyR
      (catchR
         (bindR (download_body X e (begun e h))
            (fun _ => _for_each_future e (fun future => set_result future e)))
         (fun ex => _for_each_future e (fun future => set_exception future ex)))
      (fun h => with_entries (alter (set_is_downloading false) e (entries h)) h).
Proof.
  intros Hf. unfold _download. unfold bind at 1, self. cbn [bindR]. rewrite Hf.
  unfold bind at 1, update_entry, modify. cbn [bindR]. reflexivity.
Qed.

(** How [_download] wraps the end of its [try] block. *)
Lemma download_wrap_done e (x : exn + unit) hb :
  finallyR
    (catchR
       (bindR (Done x hb) (fun _ => _for_each_future e (fun future => set_result future e)))
       (fun ex => _for_each_future e (fun future => set_exception future ex)))
    (fun h => with_entries (alter (set_is_downloading false) e (entries h)) h)
  = Done (inr tt)
      (finished e (match x with inr _ => inr e | inl ex => inl ex end) hb).
Proof.
  destruct x as [ex|[]]; cbn [bindR catchR].
  - unfold set_exception. rewrite for_each_future_settle. reflexivity.
  - unfold set_result. rewrite for_each_future_settle. reflexivity.
Qed.

Section NamedCache.
Context (X : Externals).

(** The [try] block of [_download] for an entry of a named extractor. *)
Lemma download_body_named e h p ldir :
  expected_filename (entry_at e h) = PStr p ->
  String.eqb (PyStr.split_head "-" (PyStr.basename p)) "generic" = false ->
  FS.listdir (download_folder (entry_at e h)) (fs h) = inr ldir ->
  download_body X e h
  = (if PyStr.mem (PyStr.basename p) ldir then
       update_entry e
         (set_filename (PStr (PyStr.path_join (download_folder (entry_at e h)) (PyStr.basename p))))
     else if PyStr.mem (rsplit1_head "." (PyStr.basename p)) (map (rsplit1_head ".") ldir) then
       i <- lift (list_index (rsplit1_head "." (PyStr.basename p)) (map (rsplit1_head ".") ldir)) ;;
       name <- lift (list_item ldir i) ;;
       update_entry e (set_filename (PStr (PyStr.path_join (download_folder (entry_at e h)) name)))
     else _really_download X e false) h.
Proof.
  intros Hexp Hgen Hdir.
  unfold download_body. unfold bind at 1, self. cbn [bindR].
  unfold bind at 1, fs_test. cbn [bindR]. 
  rewrite (listdir_exists _ _ _ Hdir).
  unfold bind at 1. cbn [bindR ret]. rewrite Hexp.
  unfold bind at 1, lift. cbn [bindR os_path_basename]. rewrite Hgen.
  unfold bind at 1, fs_read. rewrite Hdir. cbn [bindR]. reflexivity.
Qed.

End NamedCache.

Lemma named_length v e h : length (entries (named v e h)) = length (entries h).
Proof. unfold named. cbn. apply length_alter. Qed.

Lemma begun_length e h : length (entries (begun e h)) = length (entries h).
Proof. unfold begun. cbn. apply length_alter. Qed.

(** What the end of a [_download] that found its file looks like. *)
Lemma finished_named e v r h :
  e < length (entries h) ->
  let h' := finished e r (named v e (begun e h)) in
  filename (entry_at e h') = v
  /\ _is_downloading (entry_at e h') = false
  /\ _waiting_futures (entry_at e h') = []
  /\ fs h' = fs h
  /\ queue h' = queue h
  /\ futures h' = settle_all r (_waiting_futures (entry_at e h)) (futures h).
Proof.
  intros Hlt h'. destruct (lookup_lt_is_Some_2 _ _ Hlt) as [x Hx].
  unfold h', finished, resolved, named, begun, entry_at.
  cbn [entries with_entries with_futures futures fs queue].
  rewrite !list_lookup_alter_eq, Hx. cbn. repeat split; reflexivity.
Qed.

Section NamedCacheThm.
Context (X : Externals).

(** X14. An entry of a named extractor whose name is in the listing of
    the folder, be it the name of a file or of a directory.  With the
    expected base name there, or else with a name that is the same up to
    the extension, the first in the order of the listing, [_download]
    ends at once: the entry takes that name under the folder as its file
    name, every waiter is handed the entry, the resolver is not asked and
    no file is touched. *)
Theorem named_cache_hit e h p ldir :
  e < length (entries h) ->
  _is_downloading (entry_at e h) = false ->
  expected_filename (entry_at e h) = PStr p ->
  PyStr.split_head "-" (PyStr.basename p) <> "generic" ->
  FS.listdir (download_folder (entry_at e h)) (fs h) = inr ldir ->
  let folder := download_folder (entry_at e h) in
  let base := PyStr.basename p in
  forall name,
    (PyStr.mem base ldir = true /\ name = base
     \/ PyStr.mem base ldir = false
        /\ exists i, PyStr.index_of (rsplit1_head "." base) (map (rsplit1_head ".") ldir) = Some i
                     /\ ldir !! i = Some name) ->
    exists h',
      _download X e h = Done (inr tt) h'
      /\ h' = finished e (inr e) (named (PStr (PyStr.path_join folder name)) e (begun e h))
      /\ filename (entry_at e h') = PStr (PyStr.path_join folder name)
      /\ fs h' = fs h
      /\ futures h' = settle_all (inr e) (_waiting_futures (entry_at e h)) (futures h).
Proof.
  intros Hlt Hflag Hexp Hgen Hdir folder base name Hcase.
  apply String.eqb_neq in Hgen.
  rewrite (download_begins X e h Hflag).
  rewrite (download_body_named X e (begun e h) p ldir).
  2:{ rewrite (entry_at_begun expected_filename); [exact Hexp|reflexivity]. }
  2:{ exact Hgen. }
  2:{ rewrite (entry_at_begun download_folder); [exact Hdir|reflexivity]. }
  rewrite (entry_at_begun download_folder) by reflexivity.
  fold base. fold folder.
  assert (Hend : forall v,
    finallyR
      (catchR
         (bindR (update_entry e (set_filename v) (begun e h))
            (fun _ => _for_each_future e (fun future => set_result future e)))
         (fun ex => _for_each_future e (fun future => set_exception future ex)))
      (fun h => with_entries (alter (set_is_downloading false) e (entries h)) h)
    = Done (inr tt) (finished e (inr e) (named v e (begun e h)))).
  { intros v. unfold update_entry, modify. fold (named v e (begun e h)).
    apply download_wrap_done. }
  destruct (finished_named e (PStr (PyStr.path_join folder name)) (inr e) h Hlt)
    as (Hfn & _ & _ & Hfs & _ & Hfut).
  destruct Hcase as [[Hmem ->]|(Hmem & i & Hidx & Hname)]; rewrite Hmem.
  - rewrite Hend. eexists. split; [reflexivity|]. repeat split; assumption.
  - rewrite (index_of_mem _ _ _ Hidx).
    unfold bind at 1, lift, list_index. rewrite Hidx. cbn [bindR].
    unfold bind at 1, list_item. rewrite Hname. cbn [bindR].
    rewrite Hend. eexists. split; [reflexivity|]. repeat split; assumption.
Qed.

(** X15. An entry of a named extractor for which the listing of the
    folder, files and directories, has neither the expected base name nor
    a name that is the same up to the extension.  [_download] asks the
    resolver to download.  The entry takes the file
    name that the resolver's naming gives to the result, as it is: no
    digest, no renaming; every waiter is handed the entry.  When the
    resolver raises, or returns [None], every waiter is handed an
    [ExtractionError] and the file name is left alone. *)
Theorem named_cache_miss e h p ldir :
  _is_downloading (entry_at e h) = false ->
  expected_filename (entry_at e h) = PStr p ->
  PyStr.split_head "-" (PyStr.basename p) <> "generic" ->
  FS.listdir (download_folder (entry_at e h)) (fs h) = inr ldir ->
  PyStr.index_of (PyStr.basename p) ldir = None ->
  PyStr.index_of (rsplit1_head "." (PyStr.basename p)) (map (rsplit1_head ".") ldir) = None ->
  exists k,
    _download X e h = AwaitInfo (url (entry_at e h)) true (begun e h) k
    /\ (forall result h2,
          k (inr (Some result)) h2
          = Done (inr tt) (finished e (inr e) (named (PStr (prepare_filename X result)) e h2)))
    /\ (forall ex h2,
          k (inl ex) h2 = Done (inr tt) (finished e (inl (ExtractionError (exn_str ex))) h2))
    /\ (forall h2,
          k (inr None) h2
          = Done (inr tt)
              (finished e (inl (ExtractionError "ytdl broke and hell if I know why")) h2)).
Proof.
  intros Hflag Hexp Hgen Hdir Hbase Hnoex.
  apply String.eqb_neq in Hgen.
  rewrite (download_begins X e h Hflag).
  rewrite (download_body_named X e (begun e h) p ldir).
  2:{ rewrite (entry_at_begun expected_filename); [exact Hexp|reflexivity]. }
  2:{ exact Hgen. }
  2:{ rewrite (entry_at_begun download_folder); [exact Hdir|reflexivity]. }
  rewrite (index_of_none _ _ Hbase), (index_of_none _ _ Hnoex).
  unfold _really_download. unfold bind at 1, self. cbn [bindR].
  unfold bind at 1, try_except, extract_info. cbn [bindR catchR finallyR].
  rewrite (entry_at_begun url) by reflexivity.
  eexists. split; [reflexivity|]. cbn beta. repeat split.
  - intros result h2. cbn [bindR catchR]. unfold bind at 1, update_entry, modify.
    cbn [bindR ret]. fold (named (PStr (prepare_filename X result)) e h2).
    apply (download_wrap_done e (inr tt)).
  - intros ex h2. cbn [bindR catchR raise]. apply (download_wrap_done e (inl _)).
  - intros h2. cbn [bindR catchR raise]. apply (download_wrap_done e (inl _)).
Qed.

End NamedCacheThm.

Lemma named_cache_hit_witness :
  exists h',
    _download Sample.X 0 (heap Sample.named_cached) = Done (inr tt) h'
    /\ filename (entry_at 0 h') = PStr "audio_cache/youtube-a.m4a".
Proof.
  assert (Hlt : 0 < length (entries (heap Sample.named_cached))) by (cbn; lia).
  assert (Hgen : PyStr.split_head "-" (PyStr.basename "audio_cache/youtube-a.m4a") <> "generic")
    by discriminate.
  destruct (named_cache_hit Sample.X 0 (heap Sample.named_cached)
              "audio_cache/youtube-a.m4a" ["youtube-a.m4a"]
              Hlt eq_refl eq_refl Hgen eq_refl "youtube-a.m4a"
              (or_introl (conj eq_refl eq_refl)))
    as (h' & Hrun & _ & Hfn & _).
  exists h'. split; [exact Hrun|exact Hfn].
Defined.

(** ** Handing an outcome to the waiters *)

Lemma settle_all_lookup r l : forall fs f,
  settle_all r l fs !! f
  = match fs !! f with
    | Some Pending => if decide (f ∈ l) then Some (Finished r) else Some Pending
    | v => v
    end.
Proof.
  induction l as [|g l IH]; intros fs f.
  - change (settle_all r [] fs) with fs.
    destruct (fs !! f) as [[| |?]|]; reflexivity.
  - unfold settle_all in *. cbn [foldl]. rewrite IH. unfold settle_one.
    destruct (decide (f = g)) as [->|Hne].
    + destruct (fs !! g) as [v|] eqn:Hg; cbn [default from_option id].
      * destruct v; rewrite ?Hg; try reflexivity.
        rewrite list_lookup_insert_eq by (apply lookup_lt_Some in Hg; exact Hg).
        destruct (decide (g ∈ g :: l)) as [|Hn]; [reflexivity|].
        exfalso. apply Hn. left.
      * rewrite list_insert_ge by (apply lookup_ge_None in Hg; lia).
        rewrite Hg. reflexivity.
    + assert (Hsame : (match default Pending (fs !! g) with
                       | Pending => <[g := Finished r]> fs
                       | _ => fs
                       end) !! f = fs !! f).
      { destruct (default Pending (fs !! g)); try reflexivity.
        apply list_lookup_insert_ne. congruence. }
      rewrite Hsame. destruct (fs !! f) as [[| |?]|]; try reflexivity.
      destruct (decide (f ∈ l)) as [Hin|Hnin], (decide (f ∈ g :: l)) as [Hin'|Hnin'];
        try reflexivity.
      * exfalso. apply Hnin'. right. exact Hin.
      * exfalso. apply elem_of_cons in Hin' as [?|?]; [congruence|contradiction].
Qed.

(** X18. [_for_each_future] with the callbacks of [_download], [set_result] and
    [set_exception]: the list of waiters is emptied; every waiter that is
    pending takes the outcome; a waiter that was cancelled, or that has an
    outcome already, is left as it is, and so is every future that is not
    a waiter of the entry.  The call itself never raises. *)
Theorem for_each_future_outcomes e r h :
  let waiters := _waiting_futures (entry_at e h) in
  exists h',
    _for_each_future e (fun future => settle future r) h = Done (inr tt) h'
    /\ _waiting_futures (entry_at e h') = []
    /\ (forall e', e' <> e -> entry_at e' h' = entry_at e' h)
    /\ length (futures h') = length (futures h)
    /\ forall f,
         futures h' !! f
         = match futures h !! f with
           | Some Pending => if decide (f ∈ waiters) then Some (Finished r) else Some Pending
           | v => v
           end.
Proof.
  intros waiters. exists (resolved e r h).
  split; [apply for_each_future_settle|].
  unfold resolved. cbn [futures with_futures].
  split; [|split; [|split]].
  - unfold entry_at. cbn [entries with_entries with_futures].
    rewrite list_lookup_alter_eq. destruct (entries h !! e); reflexivity.
  - intros e' Hne. unfold entry_at. cbn [entries with_entries with_futures].
    rewrite list_lookup_alter_ne by congruence. reflexivity.
  - apply settle_all_length.
  - intros f. apply settle_all_lookup.
Qed.

(** ** Adding an entry: the remaining paths *)

(** The entry object that [add_entry] constructs, once it is added. *)
Lemma entry_at_entered {B} (g : PlaylistEntry -> B) X song_url meta info h :
  (forall l x, g (set_waiting_futures l x) = g x) ->
  g (entry_at (length (entries h)) (entered X song_url meta info h))
  = g (new_entry (folder h) (PStr song_url)
         (dict_get info "title" (PStr "Untitled"))
         (py_or (dict_get info "duration" (PInt 0)) (PInt 0))
         (PStr (prepare_filename X info)) meta).
Proof.
  intros Hg. unfold entered. set (x := new_entry _ _ _ _ _ _).
  set (h0 := with_entries (entries h ++ [x]) h).
  assert (Hx : entries h0 !! length (entries h) = Some x).
  { unfold h0. cbn. rewrite lookup_app_r by lia. rewrite Nat.sub_diag. reflexivity. }
  assert (Hready : forall h1, entries h1 = entries h0 ->
            g (entry_at (length (entries h)) (ready_heap (length (entries h)) h1)) = g x).
  { intros h1 H1. unfold ready_heap.
    destruct (is_downloaded (entry_at (length (entries h)) h1));
      unfold entry_at; cbn [entries with_entries with_futures with_spawned];
      rewrite ?list_lookup_alter_eq, H1, Hx; cbn; [reflexivity|apply Hg]. }
  unfold added_heap. destruct (queue h0) as [|e0 q].
  - apply Hready. reflexivity.
  - destruct (Nat.eqb e0 (length (entries h))).
    + apply Hready. reflexivity.
    + unfold entry_at. cbn [entries with_entries with_emitted with_queue]. rewrite Hx. reflexivity.
Qed.

Section AddEntryPaths.
Context (X : Externals).

Lemma add_entry_answered song_url meta h h1 (info : dict) :
  info <> [] ->
  eq_str (dict_get info "_type" PNone) "playlist" = false ->
  answer_info (add_entry X song_url meta h) (inr (Some info)) h1
  = Some (bindR (check_content_type song_url info h1)
            (fun _ => enqueue X song_url meta info)).
Proof.
  intros Hne Hpl. destruct info as [|kv info]; [congruence|].
  unfold add_entry, answer_info, try_except, extract_info.
  unfold bind at 1. cbn [bindR catchR]. rewrite Hpl. reflexivity.
Qed.

(** X3. A result of a named extractor, that is neither [generic] nor
    [Dropbox], is not probed.  When the resolver answers and no key of
    the metadata names a parameter of the constructor, [add_entry]
    constructs the entry, adds it at the end of the queue and returns it
    with the length of the queue, its position counted from 1.  The title
    is ['Untitled'] when the result has none; the duration is 0 when the
    result has none or a false one.  With such a key the constructor
    raises [TypeError], and so does [add_entry], on the heap as it was. *)
Theorem add_entry_named_source song_url m h h1 (info : dict) ext :
  info <> [] ->
  eq_str (dict_get info "_type" PNone) "playlist" = false ->
  getitem info "extractor" = inr ext ->
  eq_str ext "generic" || eq_str ext "Dropbox" = false ->
  let e := length (entries h1) in
  let h2 := entered X song_url m info h1 in
  (forall key,
     clash init_parameters m = Some key ->
     answer_info (add_entry X song_url m h) (inr (Some info)) h1
     = Some (Done (inl (multiple_values "__init__" key)) h1))
  /\ (clash init_parameters m = None ->
      answer_info (add_entry X song_url m h) (inr (Some info)) h1
        = Some (Done (inr (e, length (queue h2))) h2)
      /\ queue h2 = queue h1 ++ [e]
      /\ url (entry_at e h2) = PStr song_url
      /\ title (entry_at e h2) = default (PStr "Untitled") (assoc "title" info)
      /\ duration (entry_at e h2)
         = match assoc "duration" info with
           | Some d => if truthy d then d else PInt 0
           | None => PInt 0
           end
      /\ expected_filename (entry_at e h2) = PStr (prepare_filename X info)
      /\ meta (entry_at e h2) = m
      /\ filename (entry_at e h2) = PNone).
Proof.
  intros Hne Hpl Hext Hgen e h2.
  rewrite (add_entry_answered song_url m h h1 info Hne Hpl).
  rewrite (check_content_type_other song_url info ext h1 Hext Hgen). cbn [bindR].
  rewrite enqueue_eq. split.
  - intros key Hkey. rewrite (enqueued_refused X _ _ _ _ key Hkey). reflexivity.
  - intros Hm. rewrite (enqueued_plain X _ _ _ _ Hm). fold e. fold h2.
    assert (Hq : queue h2 = queue h1 ++ [e]) by apply entered_queue.
    split; [rewrite Hq, length_app; cbn; do 4 f_equal; lia|].
    split; [exact Hq|].
    unfold h2, e.
    rewrite (entry_at_entered url), (entry_at_entered title), (entry_at_entered duration),
      (entry_at_entered expected_filename), (entry_at_entered meta),
      (entry_at_entered filename) by reflexivity.
    cbn [url title duration expected_filename meta filename new_entry].
    repeat split.
    unfold py_or, dict_get.
    destruct (assoc "duration" info) as [d|]; cbn [default from_option id]; [|reflexivity].
    destruct (truthy d); reflexivity.
Qed.

(** X4. Missing keys of the resolver's result.  Without ['extractor'],
    [add_entry] raises [KeyError] and adds nothing.  A generic result
    without ['url'] is not probed: the [KeyError] is caught like a failed
    probe, and [add_entry] goes on to construct the entry, which is added
    unless a key of the metadata names a parameter of the constructor. *)
Theorem add_entry_missing_keys song_url m h h1 (info : dict) :
  info <> [] ->
  eq_str (dict_get info "_type" PNone) "playlist" = false ->
  (assoc "extractor" info = None ->
     answer_info (add_entry X song_url m h) (inr (Some info)) h1
     = Some (Done (inl (KeyError "extractor")) h1))
  /\ (forall ext,
        assoc "extractor" info = Some ext ->
        eq_str ext "generic" || eq_str ext "Dropbox" = true ->
        assoc "url" info = None ->
        answer_info (add_entry X song_url m h) (inr (Some info)) h1
        = Some (match clash init_parameters m with
                | Some key => Done (inl (multiple_values "__init__" key)) h1
                | None =>
                    Done (inr (length (entries h1), S (length (queue h1))))
                         (entered X song_url m info h1)
                end)).
Proof.
  intros Hne Hpl. rewrite (add_entry_answered song_url m h h1 info Hne Hpl). split.
  - intros Hext. unfold check_content_type, bind, lift, getitem. rewrite Hext. reflexivity.
  - intros ext Hext Hgen Hurl.
    rewrite (check_content_type_no_url song_url info ext (KeyError "url") h1).
    + cbn [bindR]. rewrite enqueue_eq. reflexivity.
    + unfold getitem. rewrite Hext. reflexivity.
    + exact Hgen.
    + unfold getitem. rewrite Hurl. reflexivity.
Qed.

(** X5. The content types that pass.  For a generic or Dropbox result with a
    URL, a response whose content type is not rejected, whatever it is,
    or that has no content type, lets [add_entry] go on to construct the
    entry: it is added and returned with its position, unless a key of
    the metadata names a parameter of the constructor, which raises
    [TypeError] and leaves the heap as the response found it. *)
Theorem add_entry_accepts_type song_url m h h1 (info : dict) ext u :
  info <> [] ->
  eq_str (dict_get info "_type" PNone) "playlist" = false ->
  getitem info "extractor" = inr ext ->
  eq_str ext "generic" || eq_str ext "Dropbox" = true ->
  getitem info "url" = inr u ->
  exists k,
    answer_info (add_entry X song_url m h) (inr (Some info)) h1 = Some (AwaitHead u 5 h1 k)
    /\ forall response_headers h2,
         (forall content_type,
            assoc "CONTENT-TYPE" response_headers = Some content_type ->
            rejected_type content_type = false) ->
         k (inr response_headers) h2
         = match clash init_parameters m with
           | Some key => Done (inl (multiple_values "__init__" key)) h2
           | None =>
               Done (inr (length (entries h2), S (length (queue h2))))
                    (entered X song_url m info h2)
           end.
Proof.
  intros Hne Hpl Hext Hgen Hurl.
  rewrite (add_entry_answered song_url m h h1 info Hne Hpl).
  destruct (check_content_type_probe song_url info ext u h1 Hext Hgen Hurl) as (k & Hk & Hans).
  rewrite Hk. cbn [bindR]. eexists. split; [reflexivity|]. cbn beta.
  intros hs h2 Hok. rewrite Hans. unfold checked.
  destruct (assoc "CONTENT-TYPE" hs) as [ct|].
  - rewrite (Hok ct eq_refl). cbn [bindR]. apply enqueue_eq.
  - cbn [bindR]. apply enqueue_eq.
Qed.

End AddEntryPaths.

Lemma add_entry_named_source_witness :
  answer_info (add_entry Sample.X "http://youtu.be/a" [] Sample.empty_heap)
    (inr (Some Sample.video_a)) Sample.empty_heap
  = Some (Done (inr (0, 1)) Sample.one_entry).
Proof.
  refine (proj1 (proj2 (add_entry_named_source Sample.X "http://youtu.be/a" [] Sample.empty_heap
                          Sample.empty_heap Sample.video_a (PStr "youtube")
                          _ eq_refl eq_refl eq_refl) eq_refl)).
  discriminate.
Defined.

Lemma add_entry_missing_keys_witness :
  answer_info (add_entry Sample.X "http://example.com/a" [] Sample.empty_heap)
    (inr (Some [("title", PStr "a")])) Sample.empty_heap
  = Some (Done (inl (KeyError "extractor")) Sample.empty_heap).
Proof.
  refine (proj1 (add_entry_missing_keys Sample.X "http://example.com/a" [] Sample.empty_heap
                   Sample.empty_heap [("title", PStr "a")] _ eq_refl) eq_refl).
  discriminate.
Defined.

Lemma add_entry_accepts_type_witness :
  exists k,
    answer_info (add_entry Sample.X "http://example.com/a.zip" [] Sample.empty_heap)
      (inr (Some Sample.zip_info)) Sample.empty_heap
    = Some (AwaitHead (PStr "http://example.com/a.zip") 5 Sample.empty_heap k)
    /\ k (inr [("CONTENT-TYPE", "application/ogg")]) Sample.empty_heap
       = Done (inr (0, 1))
           (entered Sample.X "http://example.com/a.zip" [] Sample.zip_info Sample.empty_heap).
Proof.
  destruct (add_entry_accepts_type Sample.X "http://example.com/a.zip" [] Sample.empty_heap
              Sample.empty_heap Sample.zip_info (PStr "generic") (PStr "http://example.com/a.zip"))
    as (k & Hk & Hok); try reflexivity; [discriminate|].
  exists k. split; [exact Hk|]. apply (Hok [("CONTENT-TYPE", "application/ogg")]).
  intros ct Hct. injection Hct as <-. reflexivity.
Defined.

(** ** Queries on the playlist *)

(** The entries that were there before [add_entry] constructed its own. *)
Lemma entry_at_entered_old X song_url m info h e :
  e < length (entries h) ->
  entry_at e (entered X song_url m info h) = entry_at e h.
Proof.
  intros Hlt. unfold entered. set (x := new_entry _ _ _ _ _ _).
  set (h0 := with_entries (entries h ++ [x]) h).
  assert (H0 : entry_at e h0 = entry_at e h).
  { unfold entry_at, h0. cbn. rewrite lookup_app_l by exact Hlt. reflexivity. }
  assert (Hready : entry_at e (ready_heap (length (entries h))
                      (with_emitted (emitted h0 ++ [length (entries h)])
                         (with_queue (queue h0 ++ [length (entries h)]) h0)))
                   = entry_at e h0).
  { unfold ready_heap. destruct (is_downloaded _); [reflexivity|].
    unfold entry_at. cbn [entries with_entries with_futures with_spawned with_emitted with_queue].
    rewrite list_lookup_alter_ne by lia. reflexivity. }
  unfold added_heap. destruct (queue h0) as [|e0 q].
  - rewrite Hready. exact H0.
  - destruct (Nat.eqb e0 (length (entries h))); [rewrite Hready; exact H0|exact H0].
Qed.

Lemma map_entered_old {B} (g : PlaylistEntry -> B) X song_url m info h (q : list nat) :
  Forall (fun e => e < length (entries h)) q ->
  map (fun e => g (entry_at e (entered X song_url m info h))) q
  = map (fun e => g (entry_at e h)) q.
Proof.
  induction 1 as [|e q He _ IH]; [reflexivity|].
  cbn. rewrite IH, entry_at_entered_old by exact He. reflexivity.
Qed.

(** [estimate_time_until], step by step. *)
Lemma estimate_time_until_eq position player h :
  estimate_time_until position player h
  = match islice (queue h) (position - 1) with
    | inl ex => Done (inl ex) h
    | inr ahead =>
        match py_sum 0 (map (fun e => duration (entry_at e h)) ahead) with
        | inl ex => Done (inl ex) h
        | inr estimated_time =>
            (if negb (is_stopped player) then
               match current_entry player with
               | Some c =>
                   match as_number (duration (entry_at c h)) with
                   | Some d => ret (estimated_time + (d - progress player))%Z
                   | None => raise (TypeError "unsupported operand type(s) for -")
                   end
               | None => ret estimated_time
               end
             else ret estimated_time) h
        end
    end.
Proof.
  unfold estimate_time_until. unfold bind at 1, get_heap. cbn [bindR].
  unfold bind at 1, lift. destruct (islice (queue h) (position - 1)) as [ex|ahead];
    cbn [bindR]; [reflexivity|].
  unfold bind at 1. destruct (py_sum 0 _) as [ex|t]; reflexivity.
Qed.

Section Queries.
Context (X : Externals).

(** X8. The position that [add_entry] returns is the position to ask
    [estimate_time_until] about: with the durations of the entries that were
    queued before being numbers, the estimate is their sum, the new entry
    not included, and the rest of the entry that is playing, if any. *)
Theorem estimate_time_until_added song_url m info h total player :
  Forall (fun e => e < length (entries h)) (queue h) ->
  py_sum 0 (map (fun e => duration (entry_at e h)) (queue h)) = inr total ->
  (Z.of_nat (length (queue h)) <= sys_maxsize)%Z ->
  let h2 := entered X song_url m info h in
  let position := Z.of_nat (length (queue h2)) in
  (is_stopped player = true \/ current_entry player = None ->
     estimate_time_until position player h2 = Done (inr total) h2)
  /\ (forall c d,
        is_stopped player = false ->
        current_entry player = Some c ->
        as_number (duration (entry_at c h2)) = Some d ->
        estimate_time_until position player h2
        = Done (inr (total + (d - progress player))%Z) h2).
Proof.
  intros Hq Hsum Hmax h2 position.
  assert (Hq2 : queue h2 = queue h ++ [length (entries h)]) by apply entered_queue.
  assert (Hpos : (position - 1)%Z = Z.of_nat (length (queue h))).
  { unfold position. rewrite Hq2, length_app. cbn. lia. }
  rewrite estimate_time_until_eq. unfold islice. rewrite Hpos.
  destruct (Z.ltb_spec (Z.of_nat (length (queue h))) 0) as [|_]; [lia|].
  destruct (Z.ltb_spec sys_maxsize (Z.of_nat (length (queue h)))) as [|_]; [lia|].
  cbn [orb]. rewrite Nat2Z.id, Hq2, take_app_length.
  assert (Hmap : map (fun e => duration (entry_at e h2)) (queue h)
                 = map (fun e => duration (entry_at e h)) (queue h))
    by (apply (map_entered_old duration), Hq).
  rewrite Hmap, Hsum. split.
  - intros [Hs|Hc]; [rewrite Hs; reflexivity|].
    rewrite Hc. destruct (negb (is_stopped player)); reflexivity.
  - intros c d Hs Hc Hd. rewrite Hs, Hc, Hd. reflexivity.
Qed.

(** X9. The ends of the range of positions.  A position below 1 makes
    [estimate_time_until] raise [ValueError], as [islice] does not take a
    negative stop; a position beyond the queue gives what the position
    behind the last entry gives; the first position with nothing playing
    gives 0. *)
Theorem estimate_time_until_edges position player h :
  ((position <= 0)%Z ->
     exists msg, estimate_time_until position player h = Done (inl (ValueError msg)) h)
  /\ ((Z.of_nat (length (queue h)) < position <= sys_maxsize)%Z ->
      estimate_time_until position player h
      = estimate_time_until (Z.of_nat (length (queue h)) + 1) player h)
  /\ (is_stopped player = true -> estimate_time_until 1 player h = Done (inr 0%Z) h).
Proof.
  split; [|split].
  - intros Hpos. eexists. rewrite estimate_time_until_eq. unfold islice.
    destruct (Z.ltb_spec (position - 1) 0) as [_|]; [|lia]. reflexivity.
  - intros [Hlo Hhi]. rewrite !estimate_time_until_eq. unfold islice.
    destruct (Z.ltb_spec (position - 1) 0) as [|_]; [lia|].
    destruct (Z.ltb_spec sys_maxsize (position - 1)) as [|_]; [lia|].
    destruct (Z.ltb_spec (Z.of_nat (length (queue h)) + 1 - 1) 0) as [|_]; [lia|].
    destruct (Z.ltb_spec sys_maxsize (Z.of_nat (length (queue h)) + 1 - 1)) as [|_]; [lia|].
    cbn [orb]. rewrite !take_ge by lia. reflexivity.
  - intros Hs. rewrite estimate_time_until_eq. cbn. rewrite Hs. reflexivity.
Qed.

End Queries.

Lemma estimate_time_until_added_witness :
  estimate_time_until 2 (mkPlayer true None 0) Sample.two_entries
  = Done (inr 120%Z) Sample.two_entries.
Proof.
  refine (proj1 (estimate_time_until_added Sample.X "http://youtu.be/b" [] Sample.video_b
                   Sample.one_entry 120 (mkPlayer true None 0) _ eq_refl _) (or_introl eq_refl)).
  - repeat constructor.
  - cbn. unfold sys_maxsize. lia.
Defined.

Lemma estimate_time_until_edges_witness :
  (exists msg, estimate_time_until 0 (mkPlayer true None 0) Sample.two_entries
               = Done (inl (ValueError msg)) Sample.two_entries)
  /\ estimate_time_until 7 (mkPlayer true None 0) Sample.two_entries
     = estimate_time_until 3 (mkPlayer true None 0) Sample.two_entries.
Proof.
  destruct (estimate_time_until_edges 0 (mkPlayer true None 0) Sample.two_entries) as (H0 & _ & _).
  destruct (estimate_time_until_edges 7 (mkPlayer true None 0) Sample.two_entries) as (_ & H7 & _).
  split.
  - apply H0. lia.
  - apply H7. cbn. unfold sys_maxsize. lia.
Defined.

Lemma filter_ext_Forall {A} (f g : A -> bool) (l : list A) :
  Forall (fun x => f x = g x) l -> List.filter f l = List.filter g l.
Proof.
  induction 1 as [|x l Hx _ IH]; [reflexivity|]. cbn. rewrite Hx, IH. reflexivity.
Qed.

Section Counting.
Context (X : Externals).

(** X10. Adding an entry raises the count of a user by one exactly when the
    author under which the entry was added is that user, an entry added
    without author counting as one of [None]; the count never exceeds the
    length of the queue. *)
Theorem count_for_user_added is_user song_url m info h :
  Forall (fun e => e < length (entries h)) (queue h) ->
  let h2 := entered X song_url m info h in
  count_for_user is_user h2
  = count_for_user is_user h + (if is_user (meta_get m "author") then 1 else 0)
  /\ count_for_user is_user h2 <= length (queue h2).
Proof.
  intros Hq h2. split.
  - unfold count_for_user. unfold h2 at 2. rewrite entered_queue.
    rewrite List.filter_app, length_app. f_equal.
    + f_equal. apply filter_ext_Forall. eapply Forall_impl; [exact Hq|].
      intros e He. cbn beta. unfold h2. rewrite entry_at_entered_old by exact He. reflexivity.
    + cbn [List.filter]. unfold h2. rewrite (entry_at_entered meta) by reflexivity.
      cbn [meta new_entry]. destruct (is_user (meta_get m "author")); reflexivity.
  - unfold count_for_user. apply List.filter_length_le.
Qed.

(** X2. [clear] empties the queue and nothing else.  When the entry was added
    to an empty playlist, the download that was scheduled for it as the
    head stays scheduled, and its waiter stays registered. *)
Theorem clear_keeps_downloads e h :
  queue h = [] ->
  e < length (entries h) ->
  is_downloaded (entry_at e h) = false ->
  exists h',
    (_add_entry e ;;; clear) h = Done (inr tt) h'
    /\ queue h' = []
    /\ peek h' = Done (inr None) h'
    /\ (forall b, get_next_entry b h' = Done (inr None) h')
    /\ (forall is_user, count_for_user is_user h' = 0)
    /\ spawned h' = spawned h ++ [e]
    /\ _waiting_futures (entry_at e h') = _waiting_futures (entry_at e h) ++ [length (futures h)]
    /\ future_at (length (futures h)) h' = Pending.
Proof.
  intros Hq Hlt Hnd. unfold bind. rewrite _add_entry_eq. cbn [bindR]. unfold clear, modify.
  eexists. split; [reflexivity|].
  split; [reflexivity|]. split; [reflexivity|].
  split; [intros b; apply get_next_entry_empty; reflexivity|].
  split; [reflexivity|].
  unfold added_heap. rewrite Hq.
  assert (Hr : readied e h
                 (ready_heap e (with_emitted (emitted h ++ [e]) (with_queue (queue h ++ [e]) h))))
    by (apply ready_heap_readied; auto).
  destruct Hr as [_ Hr]. rewrite Hnd in Hr. rewrite Hq in Hr. destruct Hr as (Hf & Hs & Hw).
  split; [exact Hs|]. split; [exact Hw|exact Hf].
Qed.

End Counting.

Lemma count_for_user_added_witness :
  count_for_user (fun v => match v with MMember u => eq_str (member_id u) "77" | _ => false end)
    (entered Sample.X "http://youtu.be/b" [("author", MMember Sample.alice)] Sample.video_b
       Sample.one_entry) = 1.
Proof.
  refine (proj1 (count_for_user_added Sample.X _ "http://youtu.be/b"
                   [("author", MMember Sample.alice)] Sample.video_b Sample.one_entry _)).
  repeat constructor.
Defined.

Lemma clear_keeps_downloads_witness :
  exists h',
    (_add_entry 0 ;;; clear) Sample.constructed = Done (inr tt) h'
    /\ queue h' = [] /\ spawned h' = [0].
Proof.
  destruct (clear_keeps_downloads 0 Sample.constructed eq_refl) as (h' & Hrun & Hq & _ & _ & _ & Hs & _).
  - cbn. lia.
  - reflexivity.
  - exists h'. auto.
Defined.

(** ** Snapshots, both ways *)

Section SnapshotRoundTrip.
Context (X : Externals).

(** X11. An entry that is saved and loaded again keeps its URL, title,
    duration and metadata.  The file name of a downloaded entry comes back
    as the expected file name; the expected file name itself, the file
    name of an entry that is not downloaded, the flag and the waiters do
    not come back. *)
Theorem snapshot_restores_entry folder x :
  known X (meta x) ->
  (s <~ to_json x ;; from_json X folder s)
  = inr (new_entry folder (url x) (title x) (duration x)
           (if is_downloaded x then filename x else PNone) (meta x)).
Proof.
  intros Hk. unfold to_json.
  inversion Hk as [Hm|c Hc Hm|c a Hc Ha Hm]; cbn [meta_items meta_item ebind].
  - unfold from_json. cbn. destruct (is_downloaded x); reflexivity.
  - unfold from_json. cbn. rewrite Hc. cbn. destruct (is_downloaded x); reflexivity.
  - unfold from_json. cbn. rewrite Hc. cbn. rewrite Ha. destruct (is_downloaded x); reflexivity.
Qed.

End SnapshotRoundTrip.

Section RestoredEntries.
Context (X : Externals).

(** What [from_json] leaves in the attributes of the entry it returns. *)
Lemma from_json_attributes folder data x dl :
  from_json X folder data = inr x ->
  subscript data "downloaded" = inr dl ->
  filename x = PNone
  /\ _is_downloading x = false
  /\ _waiting_futures x = []
  /\ download_folder x = folder
  /\ (truthy dl = false -> expected_filename x = PNone)
  /\ (truthy dl = true -> subscript data "filename" = inr (expected_filename x)).
Proof.
  unfold from_json. intros H Hdl.
  destruct (subscript data "url") as [?|u]; [discriminate|]; cbn [ebind] in H.
  destruct (subscript data "title") as [?|t]; [discriminate|]; cbn [ebind] in H.
  destruct (subscript data "duration") as [?|d]; [discriminate|]; cbn [ebind] in H.
  rewrite Hdl in H; cbn [ebind] in H.
  destruct (if truthy dl then subscript data "filename" else inr PNone) as [?|fname] eqn:Hfn;
    [discriminate|]; cbn [ebind] in H.
  destruct (subscript data "meta") as [?|dmeta]; [discriminate|]; cbn [ebind] in H.
  destruct (py_in "channel" dmeta) as [?|hc]; [discriminate|]; cbn [ebind] in H.
  match type of H with (ebind ?a _ = _) => destruct a as [?|m1]; [discriminate|] end;
    cbn [ebind] in H.
  destruct (py_in "author" dmeta) as [?|ha]; [discriminate|]; cbn [ebind] in H.
  match type of H with (ebind ?a _ = _) => destruct a as [?|m2]; [discriminate|] end;
    cbn [ebind] in H.
  injection H as <-. cbn.
  repeat split.
  - intros Hf. rewrite Hf in Hfn. congruence.
  - intros Ht. rewrite Ht in Hfn. exact Hfn.
Qed.

Lemma download_named_exact e h p ldir :
  _is_downloading (entry_at e h) = false ->
  expected_filename (entry_at e h) = PStr p ->
  PyStr.split_head "-" (PyStr.basename p) <> "generic" ->
  FS.listdir (download_folder (entry_at e h)) (fs h) = inr ldir ->
  PyStr.mem (PyStr.basename p) ldir = true ->
  _download X e h
  = Done (inr tt)
      (finished e (inr e)
         (named (PStr (PyStr.path_join (download_folder (entry_at e h)) (PyStr.basename p)))
            e (begun e h))).
Proof.
  intros Hflag Hexp Hgen Hdir Hmem. apply String.eqb_neq in Hgen.
  rewrite (download_begins X e h Hflag).
  rewrite (download_body_named X e (begun e h) p ldir).
  2:{ rewrite (entry_at_begun expected_filename); [exact Hexp|reflexivity]. }
  2:{ exact Hgen. }
  2:{ rewrite (entry_at_begun download_folder); [exact Hdir|reflexivity]. }
  rewrite (entry_at_begun download_folder) by reflexivity. rewrite Hmem.
  unfold update_entry, modify.
  apply (download_wrap_done e (inr tt)).
Qed.

(** X13. An entry that was loaded from a snapshot, when it is asked to get
    ready.  A snapshot that says not downloaded gives an entry without
    expected file name: its download raises on [os.path.basename], every
    waiter receives that exception, and the resolver is never asked.  A
    snapshot that says downloaded gives an entry that expects the file
    named in the snapshot: for a named extractor, with a file of that
    base name in the folder, the entry takes that file and nothing is
    downloaded. *)
Theorem restored_entry_download folder data x dl h e :
  from_json X folder data = inr x ->
  subscript data "downloaded" = inr dl ->
  entries h !! e = Some x ->
  (truthy dl = false ->
     exists ex hb,
       _download X e h = Done (inr tt) (finished e (inl ex) hb)
       /\ entries hb = entries (begun e h)
       /\ futures hb = futures h)
  /\ (forall p ldir,
        truthy dl = true ->
        subscript data "filename" = inr (PStr p) ->
        PyStr.split_head "-" (PyStr.basename p) <> "generic" ->
        FS.listdir folder (fs h) = inr ldir ->
        PyStr.mem (PyStr.basename p) ldir = true ->
        exists h',
          _download X e h = Done (inr tt) h'
          /\ filename (entry_at e h') = PStr (PyStr.path_join folder (PyStr.basename p))
          /\ is_downloaded (entry_at e h')
             = negb (String.eqb (PyStr.path_join folder (PyStr.basename p)) EmptyString)
          /\ fs h' = fs h).
Proof.
  intros Hfrom Hdl Hx.
  destruct (from_json_attributes folder data x dl Hfrom Hdl)
    as (Hfn & Hflag & Hw & Hfolder & Hnone & Hsome).
  assert (He : entry_at e h = x) by (unfold entry_at; rewrite Hx; reflexivity).
  assert (Hlt : e < length (entries h)) by (apply lookup_lt_Some in Hx; exact Hx).
  split.
  - intros Hf. specialize (Hnone Hf).
    rewrite (download_begins X e h) by (rewrite He; exact Hflag).
    unfold download_body. unfold bind at 1, self. cbn [bindR].
    unfold bind at 1, fs_test. cbn [bindR].
    rewrite (entry_at_begun expected_filename), (entry_at_begun download_folder) by reflexivity.
    rewrite He, Hnone.
    destruct (FS.exists_ (download_folder x) (fs (begun e h))) eqn:Hex.
    + unfold bind at 1. cbn [bindR ret]. unfold bind at 1, lift. cbn [bindR os_path_basename].
      do 2 eexists. split; [exact (download_wrap_done e (inl _) _)|]. split; reflexivity.
    + unfold bind at 1, fs_write.
      destruct (FS.makedirs (download_folder x) (fs (begun e h))) as [ex|fs']; cbn [bindR].
      * do 2 eexists. split; [exact (download_wrap_done e (inl _) _)|]. split; reflexivity.
      * unfold bind at 1, lift. cbn [bindR os_path_basename].
        do 2 eexists. split; [exact (download_wrap_done e (inl _) _)|]. split; reflexivity.
  - intros p ldir Ht Hp Hgen Hdir Hmem. specialize (Hsome Ht).
    assert (Hexp : expected_filename x = PStr p) by congruence.
    rewrite (download_named_exact e h p ldir); rewrite ?He; auto; [|congruence].
    rewrite Hfolder. eexists. split; [reflexivity|].
    destruct (finished_named e (PStr (PyStr.path_join folder (PyStr.basename p))) (inr e) h Hlt)
      as (Hfn' & Hfl' & _ & Hfs' & _).
    split; [exact Hfn'|]. split; [|exact Hfs'].
    unfold is_downloaded. rewrite Hfl', Hfn'. reflexivity.
Qed.

(** X12. A snapshot whose channel the bot does not know, and that names no
    author, is loaded with the name of the channel in place of the
    channel; the entry that comes back cannot be saved again, as a name has
    no [id]. *)
Theorem unknown_channel_cannot_be_saved folder data x (d : dict) dch id name :
  from_json X folder data = inr x ->
  subscript data "meta" = inr (PDict d) ->
  assoc "channel" d = Some dch ->
  assoc "author" d = None ->
  subscript dch "id" = inr id ->
  get_channel X id = None ->
  subscript dch "name" = inr name ->
  meta x = [("channel", MVal name)]
  /\ exists msg, to_json x = inl (AttributeError msg).
Proof.
  unfold from_json. intros H Hmeta Hch Hau Hid Hget Hname.
  destruct (subscript data "url") as [?|u]; [discriminate|]; cbn [ebind] in H.
  destruct (subscript data "title") as [?|t]; [discriminate|]; cbn [ebind] in H.
  destruct (subscript data "duration") as [?|du]; [discriminate|]; cbn [ebind] in H.
  destruct (subscript data "downloaded") as [?|dl]; [discriminate|]; cbn [ebind] in H.
  destruct (if truthy dl then subscript data "filename" else inr PNone) as [?|fname];
    [discriminate|]; cbn [ebind] in H.
  rewrite Hmeta in H. cbn [ebind py_in] in H. rewrite Hch, Hau in H. cbn [ebind subscript] in H.
  unfold getitem in H. rewrite Hch in H. cbn [ebind] in H.
  rewrite Hid in H. cbn [ebind] in H. rewrite Hget, Hname in H. cbn in H.
  injection H as <-. cbn. split; [reflexivity|]. eexists. reflexivity.
Qed.

End RestoredEntries.

Lemma snapshot_restores_entry_witness :
  (s <~ to_json Cases.requested ;; from_json Sample.X "audio_cache" s)
  = inr (new_entry "audio_cache" (PStr "http://youtu.be/a") (PStr "A") (PInt 120) PNone
           [("channel", MChannel Sample.lobby); ("author", MMember Sample.alice)]).
Proof.
  apply (snapshot_restores_entry Sample.X "audio_cache" Cases.requested).
  apply known_author; reflexivity.
Defined.

Lemma restored_entry_download_witness :
  (exists ex hb,
     _download Sample.X 0
       (Cases.holding (new_entry "audio_cache" (PStr "http://example.com/a") (PStr "a")
                         (PInt 10) PNone []) [])
     = Done (inr tt) (finished 0 (inl ex) hb))
  /\ (exists h',
        _download Sample.X 0
          (Cases.holding (new_entry "audio_cache" (PStr "http://example.com/a") (PStr "a")
                            (PInt 10) (PStr "audio_cache/youtube-a.m4a") [])
             [("audio_cache/youtube-a.m4a", "AAAA")])
        = Done (inr tt) h'
        /\ filename (entry_at 0 h') = PStr "audio_cache/youtube-a.m4a").
Proof.
  split.
  - destruct (proj1 (restored_entry_download Sample.X "audio_cache"
                       (Sample.snapshot false PNone) _ (PBool false)
                       (Cases.holding _ []) 0 eq_refl eq_refl eq_refl) eq_refl)
      as (ex & hb & Hrun & _).
    exists ex, hb. exact Hrun.
  - destruct (proj2 (restored_entry_download Sample.X "audio_cache"
                       (Sample.snapshot true (PStr "audio_cache/youtube-a.m4a")) _ (PBool true)
                       (Cases.holding _ [("audio_cache/youtube-a.m4a", "AAAA")]) 0
                       eq_refl eq_refl eq_refl)
                    "audio_cache/youtube-a.m4a" ["youtube-a.m4a"] eq_refl eq_refl)
      as (h' & Hrun & Hfn & _).
    + discriminate.
    + reflexivity.
    + reflexivity.
    + exists h'. split; [exact Hrun|exact Hfn].
Defined.

Lemma unknown_channel_cannot_be_saved_witness :
  exists x,
    from_json Sample.X "audio_cache" Cases.stray_snapshot = inr x
    /\ meta x = [("channel", MVal (PStr "general"))]
    /\ exists msg, to_json x = inl (AttributeError msg).
Proof.
  eexists. split; [reflexivity|].
  apply (unknown_channel_cannot_be_saved Sample.X "audio_cache" Cases.stray_snapshot _
           [("channel", PDict [("type", PStr "Channel"); ("id", PStr "9");
                               ("name", PStr "general")])]
           (PDict [("type", PStr "Channel"); ("id", PStr "9"); ("name", PStr "general")])
           (PStr "9") (PStr "general")); reflexivity.
Defined.

(** ** The digest of a file *)

Lemma substring_all (s : string) : forall m,
  String.length s <= m -> String.substring 0 m s = s.
Proof.
  induction s as [|a s IH]; intros m Hm; [destruct m; reflexivity|].
  destruct m as [|m]; [cbn in Hm; lia|]. cbn. rewrite IH by (cbn in Hm; lia). reflexivity.
Qed.

Lemma substring_tail (s : string) : forall k,
  k <= String.length s ->
  exists p, s = p +:+ String.substring k (String.length s - k) s /\ String.length p = k.
Proof.
  induction s as [|a s IH]; intros k Hk.
  - cbn in Hk. assert (k = 0) by lia. subst. exists EmptyString. split; reflexivity.
  - destruct k as [|k].
    + exists EmptyString. rewrite Nat.sub_0_r, substring_all by lia. split; reflexivity.
    + destruct (IH k) as (p & Hp & Hl); [cbn in Hk; lia|].
      exists (String a p). cbn [String.length String.substring Nat.sub]. split.
      * rewrite append_cons. f_equal. exact Hp.
      * cbn. rewrite Hl. reflexivity.
Qed.

Lemma last_chars_suffix limit (s : string) :
  exists p,
    s = p +:+ PyStr.last_chars limit s
    /\ String.length (PyStr.last_chars limit s)
       = if Nat.eqb limit 0 then String.length s else Nat.min limit (String.length s).
Proof.
  unfold PyStr.last_chars. destruct limit as [|n]; [exists EmptyString; split; reflexivity|].
  cbn [Nat.eqb]. destruct (Nat.le_gt_cases (String.length s) (S n)) as [Hle|Hgt].
  - replace (String.length s - S n) with 0 by lia. rewrite substring_all by exact Hle.
    exists EmptyString. split; [reflexivity|lia].
  - destruct (substring_tail s (String.length s - S n)) as (p & Hp & Hl); [lia|].
    replace (String.length s - (String.length s - S n)) with (S n) in Hp by lia.
    exists p. split; [exact Hp|].
    apply (f_equal String.length) in Hp. rewrite length_append, Hl in Hp. lia.
Qed.

Section Digest.
Context (X : Externals).

(** X19. [md5sum] reads the file and changes nothing.  Of a file that is
    there it returns the end of the digest of the bytes: the last [limit]
    characters; the whole digest when [limit] is 0, the default, since
    [s[-0:]] is [s], or when [limit] is not less than its length.  Of a
    file that is not there it raises what [open] raises. *)
Theorem md5sum_suffix fname limit h :
  match FS.read fname (fs h) with
  | inr content =>
      exists r p,
        md5sum X fname limit h = Done (inr r) h
        /\ md5_hexdigest X content = p +:+ r
        /\ String.length r
           = if Nat.eqb limit 0 then String.length (md5_hexdigest X content)
             else Nat.min limit (String.length (md5_hexdigest X content))
  | inl ex => md5sum X fname limit h = Done (inl ex) h
  end.
Proof.
  unfold md5sum, bind, fs_read. destruct (FS.read fname (fs h)) as [ex|content]; cbn [bindR].
  - reflexivity.
  - destruct (last_chars_suffix limit (md5_hexdigest X content)) as (p & Hp & Hl).
    exists (PyStr.last_chars limit (md5_hexdigest X content)), p.
    split; [reflexivity|]. split; assumption.
Qed.

End Digest.

(** ** How long a coroutine waits *)

Lemma within_mono {A} (r : Res A) : forall n m, n <= m -> within r n -> within r m.
Proof.
  induction r as [x h|u d h k IH|u t h k IH|f h k IH]; intros n m Hle Hr; cbn in *.
  - exact I.
  - destruct n as [|n]; [contradiction|]. destruct m as [|m]; [lia|].
    intros x h1. apply (IH x h1 n m); [lia|apply Hr].
  - destruct n as [|n]; [contradiction|]. destruct m as [|m]; [lia|].
    intros x h1. apply (IH x h1 n m); [lia|apply Hr].
  - destruct n as [|n]; [contradiction|]. destruct m as [|m]; [lia|].
    intros x h1. apply (IH x h1 n m); [lia|apply Hr].
Qed.

Lemma within_bindR {A B} (r : Res A) (f : A -> M B) n m :
  within r n -> (forall a, withinM (f a) m) -> within (bindR r f) (n + m).
Proof.
  revert n. induction r as [x h|u d h k IH|u t h k IH|fu h k IH]; intros n Hr Hf; cbn in *.
  - destruct x as [ex|a]; [exact I|]. apply (within_mono _ m); [lia|apply Hf].
  - destruct n as [|n]; [contradiction|]. cbn. intros x h1. apply IH; [apply Hr|exact Hf].
  - destruct n as [|n]; [contradiction|]. cbn. intros x h1. apply IH; [apply Hr|exact Hf].
  - destruct n as [|n]; [contradiction|]. cbn. intros x h1. apply IH; [apply Hr|exact Hf].
Qed.

Lemma within_catchR {A} (r : Res A) (handler : exn -> M A) n m :
  within r n -> (forall ex, withinM (handler ex) m) -> within (catchR r handler) (n + m).
Proof.
  revert n. induction r as [x h|u d h k IH|u t h k IH|fu h k IH]; intros n Hr Hf; cbn in *.
  - destruct x as [ex|a]; [|exact I]. apply (within_mono _ m); [lia|apply Hf].
  - destruct n as [|n]; [contradiction|]. cbn. intros x h1. apply IH; [apply Hr|exact Hf].
  - destruct n as [|n]; [contradiction|]. cbn. intros x h1. apply IH; [apply Hr|exact Hf].
  - destruct n as [|n]; [contradiction|]. cbn. intros x h1. apply IH; [apply Hr|exact Hf].
Qed.

Lemma within_finallyR {A} (r : Res A) fin n : within r n -> within (finallyR r fin) n.
Proof.
  revert n. induction r as [x h|u d h k IH|u t h k IH|fu h k IH]; intros n Hr; cbn in *.
  - exact I.
  - destruct n as [|n]; [contradiction|]. intros x h1. apply IH, Hr.
  - destruct n as [|n]; [contradiction|]. intros x h1. apply IH, Hr.
  - destruct n as [|n]; [contradiction|]. intros x h1. apply IH, Hr.
Qed.

Lemma withinM_bind {A B} n m (a : M A) (f : A -> M B) :
  withinM a n -> (forall x, withinM (f x) m) -> withinM (bind a f) (n + m).
Proof. intros Ha Hf h. apply within_bindR; [apply Ha|exact Hf]. Qed.

Lemma withinM_try_except {A} n m (a : M A) (handler : exn -> M A) :
  withinM a n -> (forall ex, withinM (handler ex) m) -> withinM (try_except a handler) (n + m).
Proof. intros Ha Hf h. apply within_catchR; [apply Ha|exact Hf]. Qed.

Lemma withinM_try_finally {A} n (a : M A) fin : withinM a n -> withinM (try_finally a fin) n.
Proof. intros Ha h. apply within_finallyR, Ha. Qed.

Lemma withinM_ret {A} (a : A) n : withinM (ret a) n.
Proof. intros h. exact I. Qed.

Lemma withinM_raise {A} ex n : withinM (@raise A ex) n.
Proof. intros h. exact I. Qed.

Lemma withinM_lift {A} (r : exn + A) n : withinM (lift r) n.
Proof. intros h. exact I. Qed.

Lemma withinM_self e n : withinM (self e) n.
Proof. intros h. exact I. Qed.

Lemma withinM_get_heap n : withinM get_heap n.
Proof. intros h. exact I. Qed.

Lemma withinM_modify f n : withinM (modify f) n.
Proof. intros h. exact I. Qed.

Lemma withinM_update_entry e f n : withinM (update_entry e f) n.
Proof. intros h. exact I. Qed.

Lemma withinM_fs_read {A} (f : FS.t -> exn + A) n : withinM (fs_read f) n.
Proof. intros h. exact I. Qed.

Lemma withinM_fs_test f n : withinM (fs_test f) n.
Proof. intros h. exact I. Qed.

Lemma withinM_fs_write f n : withinM (fs_write f) n.
Proof. intros h. unfold fs_write. destruct (f (fs h)); exact I. Qed.

Lemma withinM_extract_info u d n : withinM (extract_info u d) (S n).
Proof. intros h. cbn. intros x h1. exact I. Qed.

Lemma withinM_get_header u fld n : withinM (get_header u fld) (S n).
Proof. intros h. cbn. intros [ex|hs] h1; exact I. Qed.

Lemma withinM_for_each_future e r n :
  withinM (_for_each_future e (fun future => settle future r)) n.
Proof. intros h. rewrite for_each_future_settle. exact I. Qed.

Lemma withinM_get_ready_future e n : withinM (get_ready_future e) n.
Proof. intros h. rewrite get_ready_future_eq. exact I. Qed.

Lemma withinM_add_entry_ e n : withinM (_add_entry e) n.
Proof. intros h. rewrite _add_entry_eq. exact I. Qed.

Lemma withinM_peek n : withinM peek n.
Proof. intros h. exact I. Qed.

Lemma withinM_await_future f n : withinM (await_future f) (S n).
Proof.
  intros h. unfold await_future. destruct (future_at f h); cbn; auto.
Qed.

Create HintDb within.
#[local] Hint Resolve withinM_ret withinM_raise withinM_lift withinM_self withinM_get_heap
  withinM_modify withinM_update_entry withinM_fs_read withinM_fs_test withinM_fs_write
  withinM_extract_info withinM_get_header withinM_for_each_future withinM_get_ready_future
  withinM_add_entry_ withinM_peek withinM_await_future : within.

(** One step through a program, the answers it may wait for shared out
    between the parts of a sequence. *)
Ltac within_step :=
  match goal with
  | |- withinM (bind _ _) ?n =>
      first
        [ apply (withinM_bind 0 n); [solve [repeat within_step]|intros ?]
        | match n with
          | S ?n' => apply (withinM_bind 1 n'); [solve [repeat within_step]|intros ?]
          end
        | apply (withinM_bind n 0); [solve [repeat within_step]|intros ?] ]
  | |- withinM (try_except _ _) ?n =>
      apply (withinM_try_except n 0); [|intros ?]
  | |- withinM (try_finally _ _) _ => apply withinM_try_finally
  | |- withinM (if ?b then _ else _) _ => destruct b
  | |- withinM (match ?x with _ => _ end) _ => destruct x
  | |- withinM _ _ => solve [auto with within]
  end.

Section Bounded.
Context (X : Externals).

Lemma withinM_md5sum fname limit n : withinM (md5sum X fname limit) n.
Proof. unfold md5sum. repeat within_step. Qed.

Lemma withinM_really_download e hash n : withinM (_really_download X e hash) (S n).
Proof.
  unfold _really_download. pose proof (withinM_md5sum) as Hmd5.
  repeat within_step.
Qed.

Lemma withinM_download_body e n : withinM (download_body X e) (S (S n)).
Proof.
  unfold download_body. pose proof (withinM_really_download) as Hreal.
  repeat within_step.
Qed.

Lemma withinM_check_content_type song_url info n :
  withinM (check_content_type song_url info) (S n).
Proof. unfold check_content_type. repeat within_step. Qed.

Lemma withinM_download e : withinM (_download X e) 2.
Proof.
  unfold _download.
  pose proof (withinM_download_body e) as Hbody.
  assert (Hset : forall r, withinM (_for_each_future e (fun future => settle future r)) 0)
    by (intros r; apply withinM_for_each_future).
  unfold set_result, set_exception.
  repeat within_step.
Qed.

Lemma withinM_add_entry song_url m : withinM (add_entry X song_url m) 2.
Proof.
  unfold add_entry.
  pose proof (withinM_check_content_type song_url) as Hcheck.
  assert (Henq : forall info, withinM (enqueue X song_url m info) 0).
  { intros info h. rewrite enqueue_eq. unfold enqueued.
    destruct (clash init_parameters m); exact I. }
  repeat within_step.
Qed.

Lemma withinM_get_next_entry b : withinM (get_next_entry b) 1.
Proof. unfold get_next_entry. repeat within_step. Qed.

(** X20. The coroutines come back.  A [_download] ends after at most two
    answers from the network, whatever the answers are: one of a probe and
    one of the resolver; [add_entry] returns or raises after at most two,
    one of the resolver and one of a probe; [get_next_entry] after at most
    one, the outcome of the future it awaits. *)
Theorem awaits_are_bounded :
  (forall e h, within (_download X e h) 2)
  /\ (forall song_url m h, within (add_entry X song_url m h) 2)
  /\ (forall b h, within (get_next_entry b h) 1).
Proof.
  split; [|split].
  - intros e. apply withinM_download.
  - intros song_url m. apply withinM_add_entry.
  - intros b. apply withinM_get_next_entry.
Qed.

End Bounded.

(** ** No waiter is left behind *)

Lemma begun_waiting e h e' :
  _waiting_futures (entry_at e' (begun e h)) = _waiting_futures (entry_at e' h).
Proof. apply (entry_at_begun _waiting_futures). reflexivity. Qed.

Lemma begun_flag e h e' :
  _is_downloading (entry_at e' (begun e h))
  = if decide (e = e') then
      match entries h !! e with Some _ => true | None => false end
    else _is_downloading (entry_at e' h).
Proof. apply set_flag_entry. Qed.

(** Where a task of [e] stops, seen from the heap it ran on. *)
Lemma completes_stop e h1 (r : Res unit) :
  completes e h1 r ->
  spawned (stop_heap r) = spawned h1
  /\ length (futures (stop_heap r)) = length (futures h1)
  /\ (forall e', e' <> e ->
        _waiting_futures (entry_at e' (stop_heap r)) = _waiting_futures (entry_at e' h1)
        /\ _is_downloading (entry_at e' (stop_heap r)) = _is_downloading (entry_at e' h1))
  /\ match r with
     | Done _ _ =>
         _waiting_futures (entry_at e (stop_heap r)) = []
         /\ _is_downloading (entry_at e (stop_heap r)) = false
         /\ exists out,
              forall f,
                futures (stop_heap r) !! f
                = match futures h1 !! f with
                  | Some Pending =>
                      if decide (f ∈ _waiting_futures (entry_at e h1))
                      then Some (Finished out) else Some Pending
                  | v => v
                  end
     | _ =>
         _waiting_futures (entry_at e (stop_heap r)) = _waiting_futures (entry_at e h1)
         /\ _is_downloading (entry_at e (stop_heap r)) = _is_downloading (entry_at e h1)
         /\ futures (stop_heap r) = futures h1
     end.
Proof.
  intros Hc.
  assert (Hawait : forall h2, erase e h2 = erase e h1 ->
    spawned h2 = spawned h1
    /\ length (futures h2) = length (futures h1)
    /\ (forall e', e' <> e ->
          _waiting_futures (entry_at e' h2) = _waiting_futures (entry_at e' h1)
          /\ _is_downloading (entry_at e' h2) = _is_downloading (entry_at e' h1))
    /\ _waiting_futures (entry_at e h2) = _waiting_futures (entry_at e h1)
    /\ _is_downloading (entry_at e h2) = _is_downloading (entry_at e h1)
    /\ futures h2 = futures h1).
  { intros h2 Her. rewrite (erase_futures _ _ _ Her).
    split; [apply (erase_spawned _ _ _ Her)|]. split; [reflexivity|].
    split; [intros e' _; split; [apply (erase_waiting _ _ _ e' Her)|apply (erase_flag _ _ _ e' Her)]|].
    split; [apply (erase_waiting _ _ _ e Her)|]. split; [apply (erase_flag _ _ _ e Her)|reflexivity]. }
  destruct r as [x h2|u d h2 k|u fld h2 k|fu h2 k]; cbn in Hc; cbn [stop_heap].
  - destruct Hc as (-> & hb & out & Her & -> & Hout).
    rewrite finished_spawned, (erase_spawned _ _ _ Her), finished_futures, settle_all_length,
      (erase_futures _ _ _ Her).
    split; [reflexivity|]. split; [reflexivity|]. split.
    + intros e' Hne. rewrite finished_waiting, finished_flag.
      destruct (decide (e = e')); [congruence|].
      split; [apply (erase_waiting _ _ _ e' Her)|apply (erase_flag _ _ _ e' Her)].
    + rewrite finished_waiting, finished_flag. destruct (decide (e = e)); [|congruence].
      split; [reflexivity|]. split; [reflexivity|]. exists out. intros f.
      rewrite settle_all_lookup, (erase_waiting _ _ _ e Her). reflexivity.
  - destruct Hc as [Her _]. apply Hawait, Her.
  - destruct Hc as [Her _]. apply Hawait, Her.
  - contradiction.
Qed.

Lemma settle_task_ready e r rest p h1 :
  completes e h1 r -> spawned h1 = [] -> ready (settle_task e r rest p) = rest.
Proof.
  intros Hc Hsp. destruct (completes_stop e h1 r Hc) as (Hs & _).
  rewrite Hsp in Hs.
  destruct r; cbn [settle_task flush ready stop_heap] in *; rewrite Hs; cbn; apply app_nil_r.
Qed.

Lemma settle_task_parked e r rest p :
  parked (settle_task e r rest p)
  = match r with
    | Done _ _ => p
    | _ => p ++ [(e, r)]
    end.
Proof. destruct r; reflexivity. Qed.

(** A stretch of a task keeps the two properties. *)
Lemma task_served e (r : Res unit) rest p h h1 :
  completes e h1 r ->
  (forall e', _waiting_futures (entry_at e' h1) = _waiting_futures (entry_at e' h)) ->
  (forall e', e' <> e -> _is_downloading (entry_at e' h1) = _is_downloading (entry_at e' h)) ->
  _is_downloading (entry_at e h1) = true ->
  (forall e', e' <> e -> _waiting_futures (entry_at e' h) <> [] ->
              _is_downloading (entry_at e' h) = true \/ e' ∈ omap starts rest) ->
  served (settle_task e r rest p).
Proof.
  intros Hc Hw1 Hf1 Hflag Hold e' Hw.
  rewrite heap_settle_task in *.
  change (entry_at e' (with_spawned [] (stop_heap r))) with (entry_at e' (stop_heap r)) in *.
  destruct (completes_stop e h1 r Hc) as (_ & _ & Hother & Hself).
  assert (Hready : forall x, x ∈ omap starts rest -> x ∈ omap starts (ready (settle_task e r rest p))).
  { intros x Hx. destruct r; cbn [settle_task flush ready];
      rewrite omap_app; apply elem_of_app; left; exact Hx. }
  destruct (decide (e' = e)) as [->|Hne].
  - destruct r as [x h2|u d h2 k|u fld h2 k|fu h2 k]; cbn [stop_heap] in *.
    + destruct Hself as (Hnil & _). congruence.
    + left. destruct Hself as (_ & -> & _). exact Hflag.
    + left. destruct Hself as (_ & -> & _). exact Hflag.
    + left. destruct Hself as (_ & -> & _). exact Hflag.
  - destruct (Hother e' Hne) as [Hwe Hfe]. rewrite Hwe, Hw1 in Hw. rewrite Hfe, Hf1 by exact Hne.
    destruct (Hold e' Hne Hw) as [?|Hin]; [left; assumption|right; apply Hready, Hin].
Qed.

Lemma task_tracked e (r : Res unit) h1 :
  completes e h1 r -> tracked h1 -> tracked (stop_heap r).
Proof.
  intros Hc Ht f Hf.
  destruct (completes_stop e h1 r Hc) as (_ & _ & Hother & Hself).
  assert (Hkeep : futures h1 !! f = Some Pending ->
            (forall e', f ∈ _waiting_futures (entry_at e' h1) ->
                        f ∈ _waiting_futures (entry_at e' (stop_heap r))) ->
            exists e', f ∈ _waiting_futures (entry_at e' (stop_heap r))).
  { intros Hp Hin. destruct (Ht f Hp) as [e' He']. exists e'. apply Hin, He'. }
  destruct r as [x h2|u d h2 k|u fld h2 k|fu h2 k]; cbn [stop_heap] in *.
  - destruct Hself as (_ & _ & out & Hfut). rewrite Hfut in Hf.
    destruct (futures h1 !! f) as [[| |?]|] eqn:Hf1; try discriminate.
    destruct (decide (f ∈ _waiting_futures (entry_at e h1))) as [|Hnin]; [discriminate|].
    destruct (Ht f Hf1) as [e' He']. exists e'.
    destruct (decide (e' = e)) as [->|Hne]; [contradiction|].
    rewrite (proj1 (Hother e' Hne)). exact He'.
  - destruct Hself as (Hw & _ & Hfut). rewrite Hfut in Hf. apply Hkeep; [exact Hf|].
    intros e' He'. destruct (decide (e' = e)) as [->|Hne];
      [rewrite Hw|rewrite (proj1 (Hother e' Hne))]; exact He'.
  - destruct Hself as (Hw & _ & Hfut). rewrite Hfut in Hf. apply Hkeep; [exact Hf|].
    intros e' He'. destruct (decide (e' = e)) as [->|Hne];
      [rewrite Hw|rewrite (proj1 (Hother e' Hne))]; exact He'.
  - destruct Hself as (Hw & _ & Hfut). rewrite Hfut in Hf. apply Hkeep; [exact Hf|].
    intros e' He'. destruct (decide (e' = e)) as [->|Hne];
      [rewrite Hw|rewrite (proj1 (Hother e' Hne))]; exact He'.
Qed.

Lemma tracked_begun e h : tracked h -> tracked (begun e h).
Proof.
  intros Ht f Hf. destruct (Ht f Hf) as [e' He']. exists e'. rewrite begun_waiting. exact He'.
Qed.

Section Served.
Context (X : Externals).

Lemma exec_served a l l' :
  inv l -> served l -> tracked (heap l) -> exec X a l = Some l' ->
  served l' /\ tracked (heap l').
Proof.
  intros (Hsp & Hp & Hr & Hcount & Hw) Hs Ht Hexec.
  destruct l as [h rd pk]. unfold served in Hs. cbn [heap ready parked] in *.
  destruct a as [e| |i x|i x|fs'|f]; cbn [exec heap ready parked] in Hexec.
  - (* a request *)
    destruct (Nat.ltb_spec e (length (entries h))) as [He|]; [|discriminate].
    rewrite get_ready_future_eq in Hexec. injection Hexec as <-.
    unfold flush, served. cbn [heap ready parked]. split.
    + intros e'.
      change (entry_at e' (with_spawned [] (ready_heap e h))) with (entry_at e' (ready_heap e h)).
      rewrite ready_heap_flag, ready_heap_waiting, ready_heap_spawned, Hsp, omap_app.
      intros Hne.
      destruct (_waiting_futures (entry_at e' h)) as [|f0 l0] eqn:Hwe.
      * right. apply elem_of_app. right. cbn [app] in *.
        destruct (is_downloaded (entry_at e h)); [congruence|].
        destruct (decide (e = e')) as [->|]; [|congruence]. cbn. left.
      * destruct (Hs e') as [?|Hin]; [rewrite Hwe; discriminate|left; assumption|].
        right. apply elem_of_app. left. exact Hin.
    + intros f.
      change (futures (with_spawned [] (ready_heap e h))) with (futures (ready_heap e h)).
      intros Hf.
      assert (Hcase : f < length (futures h) /\ futures h !! f = Some Pending
                      \/ f = length (futures h) /\ is_downloaded (entry_at e h) = false).
      { unfold ready_heap in Hf. destruct (is_downloaded (entry_at e h));
          cbn [futures with_futures with_entries with_spawned] in Hf;
          destruct (Nat.lt_ge_cases f (length (futures h))) as [Hlt|Hge].
        - left. rewrite lookup_app_l in Hf by exact Hlt. auto.
        - rewrite lookup_app_r in Hf by exact Hge.
          destruct (f - length (futures h)) as [|[|?]]; discriminate.
        - left. rewrite lookup_app_l in Hf by exact Hlt. auto.
        - right. rewrite lookup_app_r in Hf by exact Hge.
          destruct (f - length (futures h)) as [|n] eqn:Hd; [|destruct n; discriminate].
          split; [lia|reflexivity]. }
      destruct Hcase as [[Hlt Hold]|[-> Hnd]].
      * destruct (Ht f Hold) as [e' He']. exists e'.
        change (entry_at e' (with_spawned [] (ready_heap e h))) with (entry_at e' (ready_heap e h)).
        rewrite ready_heap_waiting. apply elem_of_app. left. exact He'.
      * exists e.
        change (entry_at e (with_spawned [] (ready_heap e h))) with (entry_at e (ready_heap e h)).
        rewrite ready_heap_waiting, Hnd. destruct (decide (e = e)); [|congruence].
        destruct (lookup_lt_is_Some_2 _ _ He) as [x0 ->].
        apply elem_of_app. right. left.
  - (* the loop runs a callback *)
    unfold run_next in Hexec. cbn [ready heap parked] in Hexec.
    destruct rd as [|[e|e c] rest]; [discriminate| |]; injection Hexec as <-;
      inversion Hr as [|? ? Hok Hrest]; subst.
    + cbn in Hok. destruct (_is_downloading (entry_at e h)) eqn:Hflag.
      * rewrite (download_guard X e h Hflag). cbn [settle_task]. unfold flush, served.
        cbn [heap ready parked]. rewrite Hsp. cbn [map]. rewrite app_nil_r. split; [|exact Ht].
        intros e' Hne. change (entry_at e' (with_spawned [] h)) with (entry_at e' h) in *.
        destruct (Hs e' Hne) as [?|Hin]; [left; assumption|].
        cbn [omap starts] in Hin. change (e' ∈ e :: omap starts rest) in Hin.
        apply elem_of_cons in Hin as [->|Hin]; [left; exact Hflag|right; exact Hin].
      * pose proof (download_completes X e h Hflag) as Hc. fold (begun e h) in Hc. split.
        { apply (task_served e _ rest pk h (begun e h) Hc).
          - intros e'. apply begun_waiting.
          - intros e' Hne. rewrite begun_flag. destruct (decide (e = e')); [congruence|reflexivity].
          - rewrite begun_flag. destruct (decide (e = e)); [|congruence].
            destruct (lookup_lt_is_Some_2 _ _ Hok) as [x0 ->]. reflexivity.
          - intros e' Hne Hwe. destruct (Hs e' Hwe) as [?|Hin]; [left; assumption|].
            change (e' ∈ e :: omap starts rest) in Hin.
            apply elem_of_cons in Hin as [->|Hin]; [congruence|right; exact Hin]. }
        { rewrite heap_settle_task.
          apply (task_tracked e _ (begun e h) Hc), tracked_begun, Ht. }
    + destruct Hok as [He Hc]. specialize (Hc h).
      assert (Hflag : _is_downloading (entry_at e h) = true).
      { specialize (Hcount e). unfold active, owners in Hcount.
        cbn [parked ready] in Hcount.
        change (omap resumed (Resume e c :: rest)) with (e :: omap resumed rest) in Hcount.
        rewrite count_occ_app in Hcount. cbn [count_occ] in Hcount.
        destruct (Nat.eq_dec e e); [|congruence].
        destruct (_is_downloading (entry_at e h)); [reflexivity|lia]. }
      split.
      { apply (task_served e _ rest pk h h Hc); auto. }
      { rewrite heap_settle_task. apply (task_tracked e _ h Hc), Ht. }
  - (* the resolver answers *)
    destruct (pk !! i) as [[e r]|] eqn:Hi; [|discriminate].
    destruct r as [?|u d h0 k|?|?]; try discriminate. injection Hexec as <-.
    unfold served. cbn [heap ready parked]. split; [|exact Ht].
    intros e' Hne. destruct (Hs e' Hne) as [?|Hin]; [left; assumption|].
    right. rewrite omap_app. apply elem_of_app. left. exact Hin.
  - (* a probe answers *)
    destruct (pk !! i) as [[e r]|] eqn:Hi; [|discriminate].
    destruct r as [?|?|u fld h0 k|?]; try discriminate. injection Hexec as <-.
    unfold served. cbn [heap ready parked]. split; [|exact Ht].
    intros e' Hne. destruct (Hs e' Hne) as [?|Hin]; [left; assumption|].
    right. rewrite omap_app. apply elem_of_app. left. exact Hin.
  - (* the files change *)
    injection Hexec as <-. split; [exact Hs|exact Ht].
  - (* a waiter is abandoned *)
    destruct (future_at f h) eqn:Hfa; try discriminate. injection Hexec as <-.
    split; [exact Hs|]. intros g Hg. cbn [heap futures with_futures] in Hg.
    rewrite list_lookup_insert in Hg.
    destruct (decide (f = g /\ f < length (futures h))); [discriminate|].
    destruct (Ht g Hg) as [e' He']. exists e'. exact He'.
Qed.

Lemma steps_served l0 l :
  inv l0 -> served l0 -> tracked (heap l0) -> steps X l0 l ->
  inv l /\ served l /\ tracked (heap l).
Proof.
  intros H0 Hs Ht Hsteps. induction Hsteps as [|l1 l2 l3 _ IH [a Ha]]; [auto|].
  destruct (IH H0 Hs Ht) as (Hi & Hs2 & Ht2).
  split; [apply (exec_inv X a l2 l3 Hi Ha)|]. apply (exec_served a l2 l3 Hi Hs2 Ht2 Ha).
Qed.

(** At rest, nobody waits. *)
Lemma rest_settled l :
  inv l -> served l -> tracked (heap l) -> at_rest l ->
  (forall e, _waiting_futures (entry_at e (heap l)) = [])
  /\ forall f v, futures (heap l) !! f = Some v -> v <> Pending.
Proof.
  intros (_ & _ & _ & Hcount & _) Hs Ht [Hrd Hpk].
  assert (Hnone : forall e, _waiting_futures (entry_at e (heap l)) = []).
  { intros e. destruct (_waiting_futures (entry_at e (heap l))) as [|f0 l0] eqn:Hw; [reflexivity|].
    exfalso. destruct (Hs e) as [Hflag|Hin]; [rewrite Hw; discriminate| |].
    - specialize (Hcount e). unfold active, owners in Hcount. rewrite Hrd, Hpk, Hflag in Hcount.
      cbn in Hcount. discriminate.
    - rewrite Hrd in Hin. inversion Hin. }
  split; [exact Hnone|].
  intros f v Hf ->. destruct (Ht f Hf) as [e He]. rewrite Hnone in He. inversion He.
Qed.

(** X22. The promise of [get_ready_future], that the future will resolve at
    one point, as an invariant of the loop: on every schedule, an entry
    that has waiters has a [_download] in progress or one that the loop is
    going to start, and every pending future is the waiter of an entry.
    So when the loop has nothing to run and nothing in flight, no entry
    has waiters and no future is pending. *)
Theorem no_waiter_is_left_behind l0 l :
  inv l0 -> served l0 -> tracked (heap l0) ->
  steps X l0 l ->
  served l
  /\ tracked (heap l)
  /\ (at_rest l ->
        (forall e, _waiting_futures (entry_at e (heap l)) = [])
        /\ forall f v, futures (heap l) !! f = Some v -> v <> Pending).
Proof.
  intros H0 Hs Ht Hsteps.
  destruct (steps_served l0 l H0 Hs Ht Hsteps) as (Hi & Hs' & Ht').
  split; [exact Hs'|]. split; [exact Ht'|]. apply rest_settled; assumption.
Qed.

End Served.

(** ** The loop comes to rest *)

Lemma steps_trans X l1 l2 l3 : steps X l1 l2 -> steps X l2 l3 -> steps X l1 l3.
Proof.
  intros H12 H23. induction H23 as [|l2 l3 l4 _ IH Hstep]; [exact H12|].
  econstructor; [apply IH, H12|exact Hstep].
Qed.

Section ComesToRest.
Context (X : Externals).
Context (info_answer : pyval -> bool -> exn + option dict).
Context (head_answer : pyval -> Z -> exn + headers).

Local Abbreviation drained := (drain X info_answer head_answer).
Local Abbreviation next := (next_action info_answer head_answer).

Lemma drain_stuck fuel l :
  match next l with
  | Some a => exec X a l = None
  | None => True
  end ->
  drained fuel l = l.
Proof.
  intros H. destruct fuel as [|n]; [reflexivity|]. cbn [drain].
  destruct (next l) as [a|]; [rewrite H|]; reflexivity.
Qed.

Lemma drain_app fuel1 fuel2 : forall l,
  drained (fuel1 + fuel2) l = drained fuel2 (drained fuel1 l).
Proof.
  induction fuel1 as [|n IH]; intros l; [reflexivity|].
  cbn [Nat.add drain].
  destruct (next l) as [a|] eqn:Hn.
  - destruct (exec X a l) as [l'|] eqn:Ha; [apply IH|].
    symmetry. apply drain_stuck. rewrite Hn. exact Ha.
  - symmetry. apply drain_stuck. rewrite Hn. exact I.
Qed.

Lemma drain_steps fuel : forall l, steps X l (drained fuel l).
Proof.
  induction fuel as [|n IH]; intros l; [constructor|]. cbn [drain].
  destruct (next l) as [a|]; [|constructor].
  destruct (exec X a l) as [l'|] eqn:Ha; [|constructor].
  apply (steps_trans X l l'); [|apply IH].
  econstructor; [constructor|]. exists a. exact Ha.
Qed.

(** The loop runs the callback at the head of its queue. *)
Lemma run_ready l r rest :
  inv l -> ready l = r :: rest ->
  exists l1, exec X Run l = Some l1 /\ inv l1 /\ ready l1 = rest
             /\ exists p', parked l1 = parked l ++ p'.
Proof.
  intros Hinv Hrd. pose proof Hinv as (Hsp & Hp & Hr & Hcount & Hw).
  destruct l as [h rd pk]. cbn [heap ready parked] in *. subst rd.
  inversion Hr as [|? ? Hok Hrest]; subst.
  assert (Htask : forall e res h1,
            completes e h1 res -> spawned h1 = [] ->
            exec X Run (mkLoop h (r :: rest) pk) = Some (settle_task e res rest pk) ->
            exists l1, exec X Run (mkLoop h (r :: rest) pk) = Some l1 /\ inv l1 /\ ready l1 = rest
                       /\ exists p', parked l1 = pk ++ p').
  { intros e res h1 Hc Hs1 Hex. eexists. split; [exact Hex|].
    split; [apply (exec_inv X Run _ _ Hinv Hex)|].
    split; [apply (settle_task_ready e res rest pk h1 Hc Hs1)|].
    rewrite settle_task_parked. destruct res; [exists []; rewrite app_nil_r|eexists..]; reflexivity. }
  destruct r as [e|e c].
  - cbn in Hok. destruct (_is_downloading (entry_at e h)) eqn:Hflag.
    + assert (Hex : exec X Run (mkLoop h (Start e :: rest) pk)
                    = Some (flush h rest pk)).
      { cbn [exec run_next ready heap parked]. rewrite (download_guard X e h Hflag). reflexivity. }
      eexists. split; [exact Hex|]. split; [apply (exec_inv X Run _ _ Hinv Hex)|].
      unfold flush. cbn [ready parked]. rewrite Hsp. cbn. rewrite app_nil_r.
      split; [reflexivity|]. exists []. rewrite app_nil_r. reflexivity.
    + apply (Htask e (_download X e h) (begun e h)).
      * apply (download_completes X e h Hflag).
      * exact Hsp.
      * reflexivity.
  - destruct Hok as [He Hc]. apply (Htask e (c h) h); [apply Hc|exact Hsp|reflexivity].
Qed.

(** The callbacks of the queue, one after the other. *)
Lemma drain_ready n : forall l,
  length (ready l) = n -> inv l ->
  exists fuel, inv (drained fuel l) /\ ready (drained fuel l) = [].
Proof.
  induction n as [|n IH]; intros l Hlen Hinv.
  - exists 0. cbn [drain]. split; [exact Hinv|]. destruct (ready l); [reflexivity|discriminate].
  - destruct (ready l) as [|r rest] eqn:Hrd; [discriminate|].
    destruct (run_ready l r rest Hinv Hrd) as (l1 & Hex & Hinv1 & Hrd1 & _).
    destruct (IH l1) as (fuel & Hi & Hr); [rewrite Hrd1; cbn in Hlen; lia|exact Hinv1|].
    exists (S fuel). cbn [drain]. unfold next_action. rewrite Hrd, Hex. auto.
Qed.

(** The task that was parked last is answered until it ends. *)
Lemma finish_last (r : Res unit) : forall l e p,
  inv l -> ready l = [] -> parked l = p ++ [(e, r)] ->
  exists fuel,
    inv (drained fuel l) /\ ready (drained fuel l) = [] /\ parked (drained fuel l) = p.
Proof.
  assert (Hgo : forall l e p c,
    inv l -> ready l = [Resume e c] -> parked l = p ->
    (forall l2 p2, inv l2 -> ready l2 = [] -> parked l2 = p ++ [(e, c (heap l))] ->
       c (heap l) = p2 ->
       exists fuel, inv (drained fuel l2) /\ ready (drained fuel l2) = []
                    /\ parked (drained fuel l2) = p) ->
    exists fuel, inv (drained fuel l) /\ ready (drained fuel l) = []
                 /\ parked (drained fuel l) = p).
  { intros l e p c Hinv Hrd Hpk Hrec.
    destruct (run_ready l _ _ Hinv Hrd) as (l2 & Hex & Hinv2 & Hrd2 & _).
    assert (Hl2 : l2 = settle_task e (c (heap l)) [] (parked l)).
    { destruct l as [h rd pk]. cbn [ready] in Hrd. subst rd.
      cbn [exec run_next ready heap parked] in Hex. injection Hex as <-. reflexivity. }
    assert (Hpk2 : parked l2 = match c (heap l) with
                               | Done _ _ => p
                               | _ => p ++ [(e, c (heap l))]
                               end).
    { rewrite Hl2, settle_task_parked, Hpk. reflexivity. }
    assert (Hone : forall fuel, drained (S fuel) l = drained fuel l2).
    { intros fuel. cbn [drain]. unfold next_action. rewrite Hrd, Hex. reflexivity. }
    destruct (c (heap l)) as [x h2|u d h2 k|u t h2 k|f h2 k] eqn:Hc.
    - exists 1. rewrite Hone. cbn [drain]. auto.
    - destruct (Hrec l2 (AwaitInfo u d h2 k) Hinv2 Hrd2 Hpk2 eq_refl) as (fuel & H).
      exists (S fuel). rewrite Hone. exact H.
    - destruct (Hrec l2 (AwaitHead u t h2 k) Hinv2 Hrd2 Hpk2 eq_refl) as (fuel & H).
      exists (S fuel). rewrite Hone. exact H.
    - destruct (Hrec l2 (AwaitFuture f h2 k) Hinv2 Hrd2 Hpk2 eq_refl) as (fuel & H).
      exists (S fuel). rewrite Hone. exact H. }
  induction r as [x h0|u d h0 k IH|u t h0 k IH|f h0 k IH]; intros l e p Hinv Hrd Hpk.
  - exfalso. destruct Hinv as (_ & Hp & _). rewrite Hpk in Hp.
    apply Forall_app in Hp as [_ Hp]. inversion Hp as [|? ? [_ Hbad] _]. exact Hbad.
  - set (a := AnswerInfo (length p) (info_answer u d)).
    assert (Hnext : next l = Some a).
    { unfold next_action, answer_last. rewrite Hrd, Hpk, last_snoc, length_app. cbn.
      unfold a. do 2 f_equal. lia. }
    assert (Hex : exec X a l
                  = Some (mkLoop (heap l) [Resume e (k (info_answer u d))] p)).
    { unfold a. cbn [exec]. rewrite Hpk, list_lookup_middle by reflexivity.
      rewrite Hrd. cbn [app]. do 2 f_equal.
      rewrite delete_middle. apply app_nil_r. }
    pose proof (exec_inv X a _ _ Hinv Hex) as [Hinv1 _].
    destruct (Hgo _ e p (k (info_answer u d)) Hinv1 eq_refl eq_refl) as (fuel & H).
    + intros l2 p2 Hinv2 Hrd2 Hpk2 _. cbn [heap] in Hpk2.
      apply (IH (info_answer u d) (heap l) l2 e p Hinv2 Hrd2 Hpk2).
    + exists (S fuel). cbn [drain]. rewrite Hnext, Hex. exact H.
  - set (a := AnswerHead (length p) (head_answer u t)).
    assert (Hnext : next l = Some a).
    { unfold next_action, answer_last. rewrite Hrd, Hpk, last_snoc, length_app. cbn.
      unfold a. do 2 f_equal. lia. }
    assert (Hex : exec X a l
                  = Some (mkLoop (heap l) [Resume e (k (head_answer u t))] p)).
    { unfold a. cbn [exec]. rewrite Hpk, list_lookup_middle by reflexivity.
      rewrite Hrd. cbn [app]. do 2 f_equal.
      rewrite delete_middle. apply app_nil_r. }
    pose proof (exec_inv X a _ _ Hinv Hex) as [Hinv1 _].
    destruct (Hgo _ e p (k (head_answer u t)) Hinv1 eq_refl eq_refl) as (fuel & H).
    + intros l2 p2 Hinv2 Hrd2 Hpk2 _. cbn [heap] in Hpk2.
      apply (IH (head_answer u t) (heap l) l2 e p Hinv2 Hrd2 Hpk2).
    + exists (S fuel). cbn [drain]. rewrite Hnext, Hex. exact H.
  - exfalso. destruct Hinv as (_ & Hp & _). rewrite Hpk in Hp.
    apply Forall_app in Hp as [_ Hp]. inversion Hp as [|? ? [_ Hbad] _]. exact Hbad.
Qed.

(** The parked tasks, from the last to the first. *)
Lemma drain_parked p : forall l,
  inv l -> ready l = [] -> parked l = p ->
  exists fuel, inv (drained fuel l) /\ at_rest (drained fuel l).
Proof.
  induction p as [|[e r] p IH] using rev_ind; intros l Hinv Hrd Hpk.
  - exists 0. split; [exact Hinv|]. split; assumption.
  - destruct (finish_last r l e p Hinv Hrd Hpk) as (fuel1 & Hi1 & Hr1 & Hp1).
    destruct (IH _ Hi1 Hr1 Hp1) as (fuel2 & Hi2 & Hrest).
    exists (fuel1 + fuel2). rewrite drain_app. auto.
Qed.

Lemma drain_rest l :
  inv l -> exists fuel, inv (drained fuel l) /\ at_rest (drained fuel l).
Proof.
  intros Hinv.
  destruct (drain_ready (length (ready l)) l eq_refl Hinv) as (fuel1 & Hi1 & Hr1).
  destruct (drain_parked _ _ Hi1 Hr1 eq_refl) as (fuel2 & Hi2 & Hrest).
  exists (fuel1 + fuel2). rewrite drain_app. auto.
Qed.

(** X23. Every request is answered.  Let the loop run the callbacks of its
    queue and then answer the parked tasks, the last one first, with
    whatever the resolver and the probes answer: after finitely many
    steps the loop has nothing to run and nothing in flight, and every
    future has an outcome or was cancelled. *)
Theorem every_request_is_answered l :
  inv l -> served l -> tracked (heap l) ->
  exists fuel,
    steps X l (drained fuel l)
    /\ at_rest (drained fuel l)
    /\ (forall e, _waiting_futures (entry_at e (heap (drained fuel l))) = [])
    /\ forall f v, futures (heap (drained fuel l)) !! f = Some v -> v <> Pending.
Proof.
  intros Hinv Hs Ht. destruct (drain_rest l Hinv) as (fuel & Hi & Hrest).
  exists fuel. pose proof (drain_steps fuel l) as Hsteps.
  destruct (steps_served X l _ Hinv Hs Ht Hsteps) as (_ & Hs' & Ht').
  split; [exact Hsteps|]. split; [exact Hrest|].
  apply rest_settled; assumption.
Qed.

End ComesToRest.

(** ** A generic entry that is not in the folder *)

Section GenericMiss.
Context (X : Externals).

Lemma download_body_generic_miss e h p noex ext ldir :
  expected_filename (entry_at e h) = PStr p ->
  PyStr.split_head "-" (PyStr.basename p) = "generic" ->
  PyStr.rsplit1 "." (PyStr.basename p) = [noex; ext] ->
  FS.listdir (download_folder (entry_at e h)) (fs h) = inr ldir ->
  PyStr.index_of noex (map (rsplit1_head "-") ldir) = None ->
  download_body X e h = _really_download X e true h.
Proof.
  intros Hexp Hgen Hsplit Hdir Hidx.
  unfold download_body. unfold bind at 1, self. cbn [bindR].
  unfold bind at 1, fs_test. cbn [bindR]. 
  rewrite (listdir_exists _ _ _ Hdir).
  unfold bind at 1. cbn [bindR ret]. rewrite Hexp.
  unfold bind at 1, lift. cbn [bindR os_path_basename]. rewrite Hgen.
  change (String.eqb "generic" "generic") with true. cbn iota.
  unfold bind at 1, fs_read. rewrite Hdir. cbn [bindR].
  unfold bind at 1. rewrite Hsplit. cbn [bindR unpack2 fst].
  rewrite (index_of_none _ _ Hidx). reflexivity.
Qed.

(** X16. A generic entry whose name, up to the last dash, is not in the
    listing of the folder, files and directories.  The
    [_download] asks the resolver to download at once, without a probe.
    When the resolver raises, or returns [None], every waiter receives an
    [ExtractionError] and nothing else has changed but the flag, which is
    cleared: an entry that had no file name is not downloaded, and the
    next request schedules a new download.  When the resolver returns a
    result whose file can be read, the entry takes the name with the
    digest; the file is unlinked when a file of that name is there and
    renamed otherwise, and every waiter receives the entry, or else the
    exception that the unlinking or the renaming has raised. *)
Theorem generic_cache_miss e h p noex ext ldir :
  _is_downloading (entry_at e h) = false ->
  expected_filename (entry_at e h) = PStr p ->
  PyStr.split_head "-" (PyStr.basename p) = "generic" ->
  PyStr.rsplit1 "." (PyStr.basename p) = [noex; ext] ->
  FS.listdir (download_folder (entry_at e h)) (fs h) = inr ldir ->
  PyStr.index_of noex (map (rsplit1_head "-") ldir) = None ->
  exists k,
    _download X e h = AwaitInfo (url (entry_at e h)) true (begun e h) k
    /\ (forall ex h2,
          k (inl ex) h2 = Done (inr tt) (finished e (inl (ExtractionError (exn_str ex))) h2))
    /\ (forall h2,
          k (inr None) h2
          = Done (inr tt)
              (finished e (inl (ExtractionError "ytdl broke and hell if I know why")) h2))
    /\ (forall out h2,
          e < length (entries h2) ->
          filename (entry_at e h2) = PNone ->
          let h3 := finished e (inl out) h2 in
          is_downloaded (entry_at e h3) = false
          /\ _is_downloading (entry_at e h3) = false
          /\ readied e h3 (ready_heap e h3))
    /\ (forall result content h2,
          FS.read (prepare_filename X result) (fs h2) = inr content ->
          let unhashed := prepare_filename X result in
          let fname := hashed_name X content unhashed in
          k (inr (Some result)) h2
          = Done (inr tt)
              match settle_file unhashed fname (fs h2) with
              | inr fs' => finished e (inr e) (with_fs fs' (named (PStr fname) e h2))
              | inl ex => finished e (inl ex) (named (PStr fname) e h2)
              end).
Proof.
  intros Hflag Hexp Hgen Hsplit Hdir Hidx.
  rewrite (download_begins X e h Hflag).
  rewrite (download_body_generic_miss e (begun e h) p noex ext ldir).
  2:{ rewrite (entry_at_begun expected_filename); [exact Hexp|reflexivity]. }
  2:{ exact Hgen. }
  2:{ exact Hsplit. }
  2:{ rewrite (entry_at_begun download_folder); [exact Hdir|reflexivity]. }
  2:{ exact Hidx. }
  destruct (really_download_awaits X e true (begun e h)) as [k0 Hk0].
  assert (Hans : forall x h2, answer_info (_really_download X e true (begun e h)) x h2
                              = Some (k0 x h2)).
  { intros x h2. rewrite Hk0. reflexivity. }
  rewrite Hk0. cbn [bindR catchR finallyR]. rewrite (entry_at_begun url) by reflexivity.
  eexists. split; [reflexivity|]. cbn beta.
  split; [|split; [|split]].
  - intros ex h2. pose proof (Hans (inl ex) h2) as Ha.
    rewrite really_download_fails in Ha. injection Ha as <-.
    apply (download_wrap_done e (inl _)).
  - intros h2. pose proof (Hans (inr None) h2) as Ha.
    rewrite really_download_nothing in Ha. injection Ha as <-.
    apply (download_wrap_done e (inl _)).
  - intros out h2 Hlt Hfn. set (h3 := finished e (inl out) h2).
    assert (Hx : entry_at e h3
                 = set_is_downloading false (set_waiting_futures [] (entry_at e h2))).
    { unfold h3, finished, resolved, entry_at. cbn [entries with_entries with_futures].
      destruct (lookup_lt_is_Some_2 _ _ Hlt) as [x0 Hx0].
      rewrite !list_lookup_alter_eq, Hx0. reflexivity. }
    assert (Hnd : is_downloaded (entry_at e h3) = false).
    { rewrite Hx. unfold is_downloaded. cbn. rewrite Hfn. reflexivity. }
    split; [exact Hnd|]. split; [rewrite Hx; reflexivity|].
    apply ready_heap_readied; try reflexivity.
    unfold h3. rewrite finished_length. exact Hlt.
  - intros result content h2 Hread.
    pose proof (really_download_hashed X e (begun e h) h2 result content Hread) as Hrun.
    cbn zeta in Hrun. rewrite Hans in Hrun. injection Hrun as Hrun. rewrite Hrun.
    destruct (settle_file _ _ (fs h2)) as [ex|fs'].
    + apply (download_wrap_done e (inl ex)).
    + apply (download_wrap_done e (inr tt)).
Qed.

End GenericMiss.

Lemma generic_cache_miss_witness :
  exists k,
    _download Sample.X 0 Sample.generic_a
    = AwaitInfo (PStr "http://example.com/a.mp3") true (begun 0 Sample.generic_a) k
    /\ k (inl TimeoutError) (begun 0 Sample.generic_a)
       = Done (inr tt)
           (finished 0 (inl (ExtractionError EmptyString)) (begun 0 Sample.generic_a)).
Proof.
  destruct (generic_cache_miss Sample.X 0 Sample.generic_a "audio_cache/generic-a.mp3"
              "generic-a" "mp3" [] eq_refl eq_refl eq_refl eq_refl eq_refl eq_refl)
    as (k & Hk & Hfail & _).
  exists k. split; [exact Hk|]. apply (Hfail TimeoutError).
Defined.

Lemma named_cache_miss_witness :
  exists k,
    _download Sample.X 0
      (Cases.holding (new_entry "audio_cache" (PStr "http://youtu.be/a") (PStr "A")
                        (PInt 120) (PStr "audio_cache/youtube-a.m4a") []) [])
    = AwaitInfo (PStr "http://youtu.be/a") true
        (begun 0 (Cases.holding (new_entry "audio_cache" (PStr "http://youtu.be/a") (PStr "A")
                                   (PInt 120) (PStr "audio_cache/youtube-a.m4a") []) [])) k.
Proof.
  assert (Hgen : PyStr.split_head "-" (PyStr.basename "audio_cache/youtube-a.m4a") <> "generic")
    by discriminate.
  destruct (named_cache_miss Sample.X 0
              (Cases.holding (new_entry "audio_cache" (PStr "http://youtu.be/a") (PStr "A")
                                (PInt 120) (PStr "audio_cache/youtube-a.m4a") []) [])
              "audio_cache/youtube-a.m4a" [] eq_refl eq_refl Hgen eq_refl eq_refl eq_refl)
    as (k & Hk & _).
  exists k. exact Hk.
Defined.

(** ** One download at a time *)

Section OneAtATime.
Context (X : Externals).

(** X21. From a playlist on which nothing is downloading, on every schedule
    of requests, runs of the loop, answers of the network, changes of the
    files and cancellations: no entry ever has two [_download] routines
    past the guard at the same time, so that the resolver is never
    downloading for one entry twice at once; the flag of an entry is set
    exactly while its one routine is in progress. *)
Theorem one_download_at_a_time h sched l :
  spawned h = [] ->
  (forall e, _is_downloading (entry_at e h) = false) ->
  waiters_exist h ->
  run X sched (mkLoop h [] []) = Some l ->
  forall e,
    active e l <= 1
    /\ count_occ Nat.eq_dec (map fst (parked l)) e <= 1
    /\ (_is_downloading (entry_at e (heap l)) = true <-> active e l = 1).
Proof.
  intros Hsp Hfl Hw Hrun e.
  pose proof (steps_inv X _ l (inv_idle h Hsp Hfl Hw) (run_steps X _ _ _ Hrun))
    as (_ & _ & _ & Hcount & _).
  specialize (Hcount e).
  assert (Hle : count_occ Nat.eq_dec (map fst (parked l)) e <= active e l).
  { unfold active, owners. rewrite count_occ_app. lia. }
  destruct (_is_downloading (entry_at e (heap l))); rewrite Hcount in *.
  - repeat split; auto.
  - repeat split; auto; discriminate.
Qed.

End OneAtATime.

Lemma one_download_at_a_time_witness :
  exists l,
    run Sample.X Sample.two_callers Sample.idle = Some l
    /\ active 0 l <= 1
    /\ count_occ Nat.eq_dec (map fst (parked l)) 0 <= 1.
Proof.
  destruct (run Sample.X Sample.two_callers Sample.idle) as [l|] eqn:Hrun;
    [|vm_compute in Hrun; discriminate Hrun].
  exists l. split; [reflexivity|].
  destruct (one_download_at_a_time Sample.X Sample.generic_a Sample.two_callers l) with (e := 0)
    as (Ha & Hp & _).
  - reflexivity.
  - intros [|[|e]]; reflexivity.
  - intros [|[|e]] f Hin; inversion Hin.
  - exact Hrun.
  - split; assumption.
Defined.

Lemma no_waiter_is_left_behind_witness :
  exists l,
    run Sample.X Sample.same_tick Sample.named_cached = Some l
    /\ served l /\ tracked (heap l).
Proof.
  destruct (run Sample.X Sample.same_tick Sample.named_cached) as [l|] eqn:Hrun;
    [|vm_compute in Hrun; discriminate Hrun].
  exists l. split; [reflexivity|].
  destruct (no_waiter_is_left_behind Sample.X Sample.named_cached l) as (Hs & Ht & _).
  - apply inv_idle; [reflexivity| |].
    + intros [|[|e]]; reflexivity.
    + intros [|[|e]] f Hin; inversion Hin.
  - intros [|[|e]] Hw; cbn in Hw; congruence.
  - intros f Hf. destruct f; discriminate Hf.
  - apply (run_steps Sample.X _ _ _ Hrun).
  - split; assumption.
Defined.

Lemma every_request_is_answered_witness :
  exists l fuel,
    run Sample.X [Request 0] Sample.idle = Some l
    /\ at_rest (drain Sample.X (fun _ _ => inl TimeoutError) (fun _ _ => inl TimeoutError) fuel l)
    /\ forall f v,
         futures (heap (drain Sample.X (fun _ _ => inl TimeoutError)
                          (fun _ _ => inl TimeoutError) fuel l)) !! f = Some v ->
         v <> Pending.
Proof.
  destruct (run Sample.X [Request 0] Sample.idle) as [l|] eqn:Hrun;
    [|vm_compute in Hrun; discriminate Hrun].
  exists l.
  assert (H0 : inv Sample.idle).
  { apply inv_idle; [reflexivity| |].
    - intros [|[|e]]; reflexivity.
    - intros [|[|e]] f Hin; inversion Hin. }
  assert (Hs0 : served Sample.idle) by (intros [|[|e]] Hw; cbn in Hw; congruence).
  assert (Ht0 : tracked (heap Sample.idle)) by (intros f Hf; destruct f; discriminate Hf).
  destruct (steps_served Sample.X Sample.idle l H0 Hs0 Ht0 (run_steps Sample.X _ _ _ Hrun))
    as (Hi & Hs & Ht).
  destruct (every_request_is_answered Sample.X (fun _ _ => inl TimeoutError)
              (fun _ _ => inl TimeoutError) l Hi Hs Ht) as (fuel & _ & Hrest & _ & Hfut).
  exists fuel. split; [reflexivity|]. split; [exact Hrest|exact Hfut].
Defined.

(** ** Importing a playlist *)

Lemma appended_length x h : length (entries (appended x h)) = S (length (entries h)).
Proof.
  unfold appended. rewrite added_heap_length. cbn. rewrite length_app. cbn. lia.
Qed.

Lemma appended_queue x h : queue (appended x h) = queue h ++ [length (entries h)].
Proof. unfold appended. rewrite added_heap_queue. reflexivity. Qed.

Lemma ready_heap_folder e h : folder (ready_heap e h) = folder h.
Proof. unfold ready_heap. destruct (is_downloaded _); reflexivity. Qed.

Lemma appended_folder x h : folder (appended x h) = folder h.
Proof.
  unfold appended, added_heap. cbn [queue with_entries].
  destruct (queue h) as [|e0 q]; [rewrite ready_heap_folder; reflexivity|].
  destruct (Nat.eqb e0 (length (entries h))); [rewrite ready_heap_folder|]; reflexivity.
Qed.

(** An entry without its waiters: what a readiness request leaves alone. *)
Lemma bare_ready_heap e e' h :
  set_waiting_futures [] (entry_at e' (ready_heap e h))
  = set_waiting_futures [] (entry_at e' h).
Proof.
  unfold ready_heap. destruct (is_downloaded (entry_at e h)); [reflexivity|].
  unfold entry_at. cbn [entries with_entries with_spawned with_futures].
  destruct (decide (e = e')) as [->|Hne].
  - rewrite list_lookup_alter_eq. destruct (entries h !! e'); reflexivity.
  - rewrite list_lookup_alter_ne by exact Hne. reflexivity.
Qed.

Lemma bare_appended x h e :
  set_waiting_futures [] (entry_at e (appended x h))
  = set_waiting_futures [] (default (new_entry EmptyString PNone PNone PNone PNone [])
                              ((entries h ++ [x]) !! e)).
Proof.
  unfold appended, added_heap. cbn [queue with_entries].
  destruct (queue h) as [|e0 q]; [rewrite bare_ready_heap; reflexivity|].
  destruct (Nat.eqb e0 (length (entries h))); [rewrite bare_ready_heap|]; reflexivity.
Qed.

Lemma usable_item X url_field m folder entry_data :
  usable m url_field entry_data = true ->
  exists x, item_entry X url_field m folder entry_data = Some x
            /\ set_waiting_futures [] x = x.
Proof.
  intros Hu. unfold item_entry. rewrite Hu. unfold usable in Hu.
  destruct (clash init_parameters m); [discriminate|].
  destruct entry_data as [| | | | |d]; try discriminate.
  destruct (assoc url_field d); [|discriminate]. eexists. split; reflexivity.
Qed.

Lemma unusable_item X url_field m folder entry_data :
  usable m url_field entry_data = false ->
  item_entry X url_field m folder entry_data = None.
Proof.
  intros Hu. unfold item_entry. rewrite Hu.
  destruct entry_data as [| | | | |d]; try reflexivity.
  destruct (assoc url_field d); reflexivity.
Qed.

Section ImportFacts.
Context (X : Externals) (url_field : string) (m : list (string * metaval)).

Lemma imported_cons entry_data items h :
  imported X url_field m (entry_data :: items) h
  = imported X url_field m items
      (match item_entry X url_field m (folder h) entry_data with
       | Some x => appended x h
       | None => h
       end).
Proof. reflexivity. Qed.

Lemma imported_facts items : forall h,
  let h2 := imported X url_field m items h in
  let n := length (List.filter (usable m url_field) items) in
  folder h2 = folder h
  /\ length (entries h2) = length (entries h) + n
  /\ queue h2 = queue h ++ seq (length (entries h)) n
  /\ (forall e, e < length (entries h) ->
        set_waiting_futures [] (entry_at e h2) = set_waiting_futures [] (entry_at e h))
  /\ (forall i entry_data,
        List.filter (usable m url_field) items !! i = Some entry_data ->
        exists x,
          item_entry X url_field m (folder h) entry_data = Some x
          /\ set_waiting_futures [] (entry_at (length (entries h) + i) h2) = x).
Proof.
  induction items as [|d items IH]; intros h; cbv zeta.
  - cbn. rewrite Nat.add_0_r, app_nil_r. repeat split; auto. intros i d Hd. discriminate Hd.
  - rewrite imported_cons. cbn [List.filter].
    destruct (usable m url_field d) eqn:Hu.
    + destruct (usable_item X url_field m (folder h) d Hu) as (x & Hx & Hbare). rewrite Hx.
      destruct (IH (appended x h)) as (Hf & Hl & Hq & Hold & Hnew).
      rewrite appended_folder in Hf, Hnew. rewrite appended_length in Hl, Hq, Hold, Hnew.
      rewrite appended_queue in Hq.
      assert (Hat : forall e, e < length (entries h) ->
                set_waiting_futures [] (entry_at e (appended x h))
                = set_waiting_futures [] (entry_at e h)).
      { intros e He. rewrite bare_appended, lookup_app_l by exact He. reflexivity. }
      split; [exact Hf|]. split; [cbn [length]; lia|].
      split; [cbn [length seq]; rewrite Hq, <- app_assoc; reflexivity|]. split.
      * intros e He. rewrite Hold by lia. apply Hat, He.
      * intros [|i] d' Hd'.
        -- cbn in Hd'. injection Hd' as <-. exists x. split; [exact Hx|].
           rewrite Nat.add_0_r, Hold by lia.
           rewrite bare_appended, lookup_app_r by lia. rewrite Nat.sub_diag. exact Hbare.
        -- cbn in Hd'. destruct (Hnew i d' Hd') as (x' & Hx' & Hb').
           exists x'. split; [exact Hx'|].
           replace (length (entries h) + S i) with (S (length (entries h)) + i) by lia.
           exact Hb'.
    + rewrite (unusable_item X url_field m (folder h) d Hu). apply IH.
Qed.

Lemma import_entry_eq entry_data h :
  match item_entry X url_field m (folder h) entry_data with
  | Some x => import_entry X url_field m entry_data h
              = Done (inr (length (entries h))) (appended x h)
  | None => exists ex, import_entry X url_field m entry_data h = Done (inl ex) h
  end.
Proof.
  unfold import_entry, item_entry, usable. unfold bind at 1, lift.
  destruct entry_data as [| |z|s|l|d]; cbn [subscript bindR]; try (eexists; reflexivity).
  unfold getitem. destruct (assoc url_field d) as [u|]; cbn [bindR]; [|eexists; reflexivity].
  unfold bind at 1, construct.
  destruct (clash init_parameters m); cbn [bindR]; [eexists; reflexivity|].
  unfold bind. rewrite _add_entry_eq. reflexivity.
Qed.

Lemma import_entries_eq items : forall good bad h,
  import_entries X url_field m items good bad h
  = Done (inr (good ++ seq (length (entries h)) (length (List.filter (usable m url_field) items)),
               bad + (length items - length (List.filter (usable m url_field) items))))
      (imported X url_field m items h).
Proof.
  induction items as [|d items IH]; intros good bad h.
  - cbn. rewrite app_nil_r, Nat.add_0_r. reflexivity.
  - cbn [import_entries List.filter]. rewrite imported_cons.
    pose proof (List.filter_length_le (usable m url_field) items) as Hle.
    destruct (usable m url_field d) eqn:Hu.
    + destruct (usable_item X url_field m (folder h) d Hu) as (x & Hx & _).
      assert (Ht : truthy d = true).
      { unfold usable in Hu. destruct (clash init_parameters m); [discriminate|].
        destruct d as [| | | | |[|kv d]]; try discriminate. reflexivity. }
      rewrite Ht. unfold bind at 1, try_except. unfold bind at 1.
      pose proof (import_entry_eq d h) as Hone. rewrite Hx in Hone. rewrite Hone, Hx.
      cbn [bindR catchR ret]. rewrite IH.
      rewrite appended_length. cbn [length seq].
      rewrite <- app_assoc. reflexivity.
    + rewrite (unusable_item X url_field m (folder h) d Hu).
      assert (Hbad : import_entries X url_field m items good (S bad) h
                     = Done (inr (good ++ seq (length (entries h))
                                          (length (List.filter (usable m url_field) items)),
                                  bad + (length (d :: items)
                                         - length (List.filter (usable m url_field) items))))
                         (imported X url_field m items h)).
      { rewrite IH. do 3 f_equal. cbn [length]. lia. }
      destruct (truthy d); [|exact Hbad].
      unfold bind at 1, try_except. unfold bind at 1.
      pose proof (import_entry_eq d h) as Hone.
      rewrite (unusable_item X url_field m (folder h) d Hu) in Hone.
      destruct Hone as [ex Hone]. rewrite Hone.
      cbn [bindR catchR ret]. exact Hbad.
Qed.

End ImportFacts.

Lemma refused_none m url_field items key :
  clash init_parameters m = Some key ->
  List.filter (usable m url_field) items = [].
Proof.
  intros Hkey. induction items as [|d items IH]; [reflexivity|].
  cbn [List.filter]. unfold usable at 1. rewrite Hkey. exact IH.
Qed.

Lemma refused_imported X m url_field items key h :
  clash init_parameters m = Some key ->
  imported X url_field m items h = h.
Proof.
  intros Hkey. induction items as [|d items IH]; [reflexivity|].
  rewrite imported_cons, unusable_item; [exact IH|].
  unfold usable. rewrite Hkey. reflexivity.
Qed.

Section ImportFrom.
Context (X : Externals).

(** X6. [import_from] asks the resolver about the playlist and goes through
    its items when the answer is there.  Of every item that is a
    dictionary with the URL field, ['url'] for a generic result and
    ['webpage_url'] otherwise, it makes an entry and adds it, in the order
    of the items; every other item is counted and skipped, and none makes
    the call raise.  When a key of the metadata names a parameter of the
    constructor, no item makes an entry: all are skipped and nothing is
    added.  It returns the entries that it added and the position behind
    the queue as it was when the call began, before the resolver was
    asked.  It raises [ExtractionError] when the resolver raises or
    returns nothing, and [KeyError] when the result has no ['entries']. *)
Theorem import_from_best_effort playlist_url m h :
  exists k,
    import_from X playlist_url m h = AwaitInfo (PStr playlist_url) false h k
    /\ (forall ex h1,
          k (inl ex) h1
          = Done (inl (ExtractionError
                   ("Could not extract information from " +:+ playlist_url +:+ nl +:+ nl
                      +:+ exn_str ex))) h1)
    /\ (forall h1,
          k (inr None) h1
          = Done (inl (ExtractionError ("Could not extract information from " +:+ playlist_url))) h1
          /\ k (inr (Some [])) h1 = k (inr None) h1)
    /\ (forall info h1,
          info <> [] -> assoc "entries" info = None ->
          k (inr (Some info)) h1 = Done (inl (KeyError "entries")) h1)
    /\ (forall info items h1,
          info <> [] -> assoc "entries" info = Some (PList items) ->
          let added := List.filter (usable m (url_field_of info)) items in
          let good_entries := seq (length (entries h1)) (length added) in
          let h2 := imported X (url_field_of info) m items h1 in
          k (inr (Some info)) h1 = Done (inr (good_entries, S (length (queue h)))) h2
          /\ queue h2 = queue h1 ++ good_entries
          /\ length (entries h2) = length (entries h1) + length added
          /\ forall i entry_data,
               added !! i = Some entry_data ->
               exists x,
                 item_entry X (url_field_of info) m (folder h1) entry_data = Some x
                 /\ set_waiting_futures [] (entry_at (length (entries h1) + i) h2) = x)
    /\ (forall info items h1 key,
          info <> [] -> assoc "entries" info = Some (PList items) ->
          clash init_parameters m = Some key ->
          k (inr (Some info)) h1 = Done (inr ([], S (length (queue h)))) h1).
Proof.
  unfold import_from. unfold bind at 1, get_heap. cbn [bindR].
  unfold bind at 1, try_except, safe_extract_info. cbn [bindR catchR].
  eexists. split; [reflexivity|]. cbn beta.
  split; [|split; [|split; [|split]]].
  - intros ex h1. reflexivity.
  - intros h1. split; reflexivity.
  - intros info h1 Hne Hent. destruct info as [|kv info]; [congruence|].
    cbn [bindR catchR]. unfold bind at 1, lift, getitem. rewrite Hent. reflexivity.
  - intros info items h1 Hne Hent. destruct info as [|kv info]; [congruence|].
    cbn [bindR catchR]. unfold bind at 1, lift, getitem. rewrite Hent. cbn [bindR].
    unfold bind at 1. cbn [py_iter bindR]. unfold bind at 1.
    fold (url_field_of (kv :: info)). rewrite import_entries_eq. cbn [bindR ret fst].
    destruct (imported_facts X (url_field_of (kv :: info)) m items h1)
      as (_ & Hl & Hq & _ & Hnew).
    split; [reflexivity|]. split; [exact Hq|]. split; [exact Hl|exact Hnew].
  - intros info items h1 key Hne Hent Hkey. destruct info as [|kv info]; [congruence|].
    cbn [bindR catchR]. unfold bind at 1, lift, getitem. rewrite Hent. cbn [bindR].
    unfold bind at 1. cbn [py_iter bindR]. unfold bind at 1.
    fold (url_field_of (kv :: info)). rewrite import_entries_eq. cbn [bindR ret fst].
    rewrite (refused_none m (url_field_of (kv :: info)) items key Hkey).
    rewrite (refused_imported X m (url_field_of (kv :: info)) items key h1 Hkey).
    reflexivity.
Qed.

End ImportFrom.

(** ** Going through a playlist of videos *)

Lemma finishes_bindR_inv {A B} (r : Res A) (f : A -> M B) out h' :
  finishes (bindR r f) out h' ->
  (exists a h1, finishes r (inr a) h1 /\ finishes (f a h1) out h')
  \/ (exists ex, finishes r (inl ex) h' /\ out = inl ex).
Proof.
  induction r as [x h|u d h k IH|u t h k IH|fu h k IH]; cbn [bindR]; intros H.
  - destruct x as [ex|a].
    + apply finishes_done_inv in H as [-> ->]. right. exists ex. split; [constructor|reflexivity].
    + left. exists a, h. split; [constructor|exact H].
  - apply finishes_info_inv in H as (x & h1 & Hd & H).
    destruct (IH x h1 H) as [(a & h2 & Hr & Hf)|(ex & Hr & ->)].
    + left. exists a, h2. split; [econstructor; eauto|exact Hf].
    + right. exists ex. split; [econstructor; eauto|reflexivity].
  - apply finishes_head_inv in H as (x & h1 & Hd & H).
    destruct (IH x h1 H) as [(a & h2 & Hr & Hf)|(ex & Hr & ->)].
    + left. exists a, h2. split; [econstructor; eauto|exact Hf].
    + right. exists ex. split; [econstructor; eauto|reflexivity].
  - inversion H.
Qed.

Lemma finishes_catchR_inv {A} (r : Res A) (handler : exn -> M A) out h' :
  finishes (catchR r handler) out h' ->
  (exists a, finishes r (inr a) h' /\ out = inr a)
  \/ (exists ex h1, finishes r (inl ex) h1 /\ finishes (handler ex h1) out h').
Proof.
  induction r as [x h|u d h k IH|u t h k IH|fu h k IH]; cbn [catchR]; intros H.
  - destruct x as [ex|a].
    + right. exists ex, h. split; [constructor|exact H].
    + apply finishes_done_inv in H as [-> ->]. left. exists a. split; [constructor|reflexivity].
  - apply finishes_info_inv in H as (x & h1 & Hd & H).
    destruct (IH x h1 H) as [(a & Hr & ->)|(ex & h2 & Hr & Hf)].
    + left. exists a. split; [econstructor; eauto|reflexivity].
    + right. exists ex, h2. split; [econstructor; eauto|exact Hf].
  - apply finishes_head_inv in H as (x & h1 & Hd & H).
    destruct (IH x h1 H) as [(a & Hr & ->)|(ex & h2 & Hr & Hf)].
    + left. exists a. split; [econstructor; eauto|reflexivity].
    + right. exists ex, h2. split; [econstructor; eauto|exact Hf].
  - inversion H.
Qed.

Section AddEntryOutcome.
Context (X : Externals).

(** A call of [add_entry] that raises has added nothing. *)
Lemma add_entry_raises song_url m h ex h1 :
  finishes (add_entry X song_url m h) (inl ex) h1 -> drift h h1.
Proof.
  unfold add_entry, try_except, extract_info. unfold bind at 1. cbn [bindR catchR].
  intros H. apply finishes_info_inv in H as (x & h0 & Hd0 & Hk).
  destruct x as [ex0|[info|]]; cbn [bindR catchR] in Hk;
    try (apply finishes_done_inv in Hk as [_ ->]; exact Hd0).
  destruct info as [|kv info]; [apply finishes_done_inv in Hk as [_ ->]; exact Hd0|].
  destruct (eq_str (dict_get (kv :: info) "_type" PNone) "playlist");
    [apply finishes_done_inv in Hk as [_ ->]; exact Hd0|].
  assert (Hcheck : forall r h', finishes (check_content_type song_url (kv :: info) h0) r h' ->
                                drift h0 h').
  { clear. intros r h' H.
    destruct (getitem (kv :: info) "extractor") as [e0|ext] eqn:Hext.
    { unfold check_content_type, bind, lift in H. rewrite Hext in H. cbn [bindR] in H.
      apply finishes_done_inv in H as [_ ->]. apply drift_refl. }
    destruct (eq_str ext "generic" || eq_str ext "Dropbox") eqn:Hgen.
    - destruct (getitem (kv :: info) "url") as [e0|u] eqn:Hurl.
      + rewrite (check_content_type_no_url _ _ _ _ _ Hext Hgen Hurl) in H.
        apply finishes_done_inv in H as [_ ->]. apply drift_refl.
      + destruct (check_content_type_probe song_url _ _ _ h0 Hext Hgen Hurl) as (k & Hc & Hans).
        rewrite Hc in H. apply finishes_head_inv in H as (y & h2 & Hd2 & H).
        rewrite Hans in H. apply finishes_done_inv in H as [_ ->]. exact Hd2.
    - rewrite (check_content_type_other _ _ _ _ Hext Hgen) in H.
      apply finishes_done_inv in H as [_ ->]. apply drift_refl. }
  unfold bind in Hk. apply finishes_bindR_inv in Hk as [(a & h2 & Hc & He)|(ex1 & Hc & _)].
  - rewrite enqueue_eq in He. unfold enqueued in He.
    destruct (clash init_parameters m);
      apply finishes_done_inv in He as [He ->]; [|discriminate].
    apply (drift_trans _ _ _ Hd0), (Hcheck _ _ Hc).
  - apply (drift_trans _ _ _ Hd0), (Hcheck _ _ Hc).
Qed.

End AddEntryOutcome.

Section YoutubePlaylist.
Context (X : Externals) (py_str : pyval -> string) (wrong_type_is_extraction : bool).

Local Abbreviation loop := (youtube_entries X py_str wrong_type_is_extraction).

(** One round of the loop, for an item that is true and has an id. *)
Lemma youtube_entries_cons (info : dict) m w d id rest good bad h :
  getitem info "webpage_url" = inr (PStr w) ->
  truthy d = true ->
  subscript d "id" = inr id ->
  loop info m (d :: rest) good bad h
  = bindR
      (catchR
         (bindR (call_add_entry X (watch_url py_str w id) m h) (fun r => ret (Some r.1)))
         (fun e =>
            if is_extraction_error wrong_type_is_extraction e then ret None
            else lift (subscript d "id") ;;; ret None))
      (fun r =>
         match r with
         | Some entry => loop info m rest (good ++ [entry]) bad
         | None => loop info m rest good (S bad)
         end).
Proof.
  intros Hw Ht Hid. cbn [youtube_entries]. rewrite Ht.
  unfold bind at 1, lift. rewrite Hw. cbn [bindR].
  unfold bind at 1. cbn [py_split_before bindR].
  unfold bind at 1. rewrite Hid. cbn [bindR]. reflexivity.
Qed.

Lemma withinM_call_add_entry song_url m : withinM (call_add_entry X song_url m) 2.
Proof.
  unfold call_add_entry. destruct (clash add_entry_parameters m).
  - intros h. exact I.
  - apply withinM_add_entry.
Qed.

Lemma call_add_entry_returns song_url m h e n h1 :
  finishes (call_add_entry X song_url m h) (inr (e, n)) h1 ->
  finishes (add_entry X song_url m h) (inr (e, n)) h1.
Proof.
  unfold call_add_entry. destruct (clash add_entry_parameters m); [|auto].
  intros H. apply finishes_done_inv in H as [? _]. discriminate.
Qed.

Lemma call_add_entry_raises song_url m h ex h1 :
  finishes (call_add_entry X song_url m h) (inl ex) h1 -> drift h h1.
Proof.
  unfold call_add_entry. destruct (clash add_entry_parameters m).
  - intros H. apply finishes_done_inv in H as [_ ->]. apply drift_refl.
  - apply add_entry_raises.
Qed.

Lemma youtube_entries_within (info : dict) m w items :
  getitem info "webpage_url" = inr (PStr w) ->
  Forall (fun d => truthy d = true -> exists id, subscript d "id" = inr id) items ->
  forall good bad h, within (loop info m items good bad h) (2 * length items).
Proof.
  intros Hw Hall. induction Hall as [|d items Hd _ IH]; intros good bad h; [exact I|].
  replace (2 * length (d :: items)) with (2 + 2 * length items) by (cbn; lia).
  destruct (truthy d) eqn:Ht.
  - destruct (Hd eq_refl) as [id Hid].
    rewrite (youtube_entries_cons info m w d id items good bad h Hw Ht Hid).
    apply within_bindR.
    + replace 2 with (2 + 0) by reflexivity. apply within_catchR.
      * replace 2 with (2 + 0) by reflexivity. apply within_bindR.
        -- apply withinM_call_add_entry.
        -- intros a h1. exact I.
      * intros ex h1. destruct (is_extraction_error wrong_type_is_extraction ex); [exact I|].
        unfold bind, lift. rewrite Hid. exact I.
    + intros [e|] h1; apply IH.
  - cbn [youtube_entries]. rewrite Ht. apply (within_mono _ (2 * length items)); [lia|apply IH].
Qed.

Lemma youtube_entries_runs (info : dict) m w items :
  getitem info "webpage_url" = inr (PStr w) ->
  Forall (fun d => truthy d = true -> exists id, subscript d "id" = inr id) items ->
  forall good bad h r h',
    finishes (loop info m items good bad h) r h' ->
    exists added bad',
      r = inr (good ++ added, bad')
      /\ queue h' = queue h ++ added
      /\ length added + bad' = bad + length items.
Proof.
  intros Hw Hall. induction Hall as [|d items Hd _ IH]; intros good bad h r h' Hrun.
  - cbn in Hrun. apply finishes_done_inv in Hrun as [-> ->].
    exists [], bad. rewrite !app_nil_r. cbn. auto.
  - assert (Hskip : forall h1,
              finishes (loop info m items good (S bad) h1) r h' ->
              queue h1 = queue h ->
              exists added bad',
                r = inr (good ++ added, bad')
                /\ queue h' = queue h ++ added
                /\ length added + bad' = bad + length (d :: items)).
    { intros h1 H Hq. destruct (IH _ _ _ _ _ H) as (added & bad' & -> & Hq' & Hn).
      exists added, bad'. rewrite Hq', Hq. cbn [length]. split; [reflexivity|]. split; [reflexivity|lia]. }
    destruct (truthy d) eqn:Ht.
    + destruct (Hd eq_refl) as [id Hid].
      rewrite (youtube_entries_cons info m w d id items good bad h Hw Ht Hid) in Hrun.
      apply finishes_bindR_inv in Hrun as [(a & h1 & Htry & Hrest)|(ex & Htry & _)].
      * apply finishes_catchR_inv in Htry as [(a' & Hadd & Ha)|(ex & h2 & Hadd & Hh)].
        -- injection Ha as <-.
           apply finishes_bindR_inv in Hadd as [([e n] & h2 & Hadd & Hret)|(ex & _ & Hbad)];
             [|discriminate].
           apply finishes_done_inv in Hret as [Ha ->]. injection Ha as ->. cbn [fst] in Hrest.
           apply call_add_entry_returns in Hadd.
           apply add_entry_finishes in Hadd as (info1 & hd & [Hdq _] & -> & -> & _).
           destruct (IH _ _ _ _ _ Hrest) as (added & bad' & -> & Hq' & Hn).
           exists (length (entries hd) :: added), bad'.
           rewrite <- app_assoc. split; [reflexivity|].
           rewrite Hq', entered_queue, Hdq, <- app_assoc. cbn [length]. split; [reflexivity|lia].
        -- apply finishes_bindR_inv in Hadd as [([e n] & h3 & _ & Hret)|(ex' & Hadd & _)].
           { apply finishes_done_inv in Hret as [? _]. discriminate. }
           apply call_add_entry_raises in Hadd as [Hdq _].
           assert (Ha : a = None /\ h1 = h2).
           { destruct (is_extraction_error wrong_type_is_extraction ex).
             - apply finishes_done_inv in Hh as [Ha ->]. injection Ha as ->. auto.
             - unfold bind, lift in Hh. rewrite Hid in Hh. cbn [bindR] in Hh.
               apply finishes_done_inv in Hh as [Ha ->]. injection Ha as ->. auto. }
           destruct Ha as [-> ->]. apply (Hskip h2 Hrest Hdq).
      * exfalso.
        apply finishes_catchR_inv in Htry as [(a' & _ & Ha)|(ex0 & h2 & _ & Hh)]; [discriminate|].
        destruct (is_extraction_error wrong_type_is_extraction ex0).
        -- apply finishes_done_inv in Hh as [? _]. discriminate.
        -- unfold bind, lift in Hh. rewrite Hid in Hh. cbn [bindR] in Hh.
           apply finishes_done_inv in Hh as [? _]. discriminate.
    + cbn [youtube_entries] in Hrun. rewrite Ht in Hrun. apply (Hskip h Hrun eq_refl).
Qed.

(** With a keyword that [add_entry] refuses, every item is skipped. *)
Lemma youtube_entries_refused (info : dict) m w items key :
  getitem info "webpage_url" = inr (PStr w) ->
  Forall (fun d => truthy d = true -> exists id, subscript d "id" = inr id) items ->
  clash add_entry_parameters m = Some key ->
  forall good bad h,
    loop info m items good bad h = Done (inr (good, bad + length items)) h.
Proof.
  intros Hw Hall Hkey. induction Hall as [|d items Hd _ IH]; intros good bad h.
  - cbn. rewrite Nat.add_0_r. reflexivity.
  - replace (bad + length (d :: items)) with (S bad + length items) by (cbn; lia).
    destruct (truthy d) eqn:Ht.
    + destruct (Hd eq_refl) as [id Hid].
      rewrite (youtube_entries_cons info m w d id items good bad h Hw Ht Hid).
      unfold call_add_entry. rewrite Hkey. cbn [raise bindR catchR multiple_values
        is_extraction_error].
      unfold bind, lift. rewrite Hid. cbn [bindR ret]. apply IH.
    + cbn [youtube_entries]. rewrite Ht. apply IH.
Qed.

(** X7. [async_process_youtube_playlist] asks the resolver about the playlist
    and then adds the videos one by one with [add_entry], each under the
    page URL up to [playlist?list=] followed by [watch?v=] and the id of
    the item.  For a result whose page URL is a string and whose items all
    have an id, no failure of an [add_entry] ends the call: it comes back
    after at most two answers for each item, and what it returns is the
    list of the entries that were added, in the order of the items and
    not more than there are items, which is what the queue has gained.  A
    keyword of the metadata that names a parameter of [add_entry] makes
    every one of these calls raise before it has asked anything: the call
    returns the empty list at once.  It raises [ExtractionError] when the
    resolver raises or returns nothing for the playlist. *)
Theorem youtube_playlist_best_effort playlist_url m h :
  exists k,
    async_process_youtube_playlist X py_str wrong_type_is_extraction playlist_url m h
    = AwaitInfo (PStr playlist_url) false h k
    /\ (forall ex h1,
          k (inl ex) h1
          = Done (inl (ExtractionError
                   ("Could not extract information from " +:+ playlist_url +:+ nl +:+ nl
                      +:+ exn_str ex))) h1)
    /\ (forall h1,
          k (inr None) h1
          = Done (inl (ExtractionError ("Could not extract information from " +:+ playlist_url))) h1)
    /\ (forall info items w h1,
          info <> [] ->
          assoc "entries" info = Some (PList items) ->
          assoc "webpage_url" info = Some (PStr w) ->
          Forall (fun d => truthy d = true -> exists id, subscript d "id" = inr id) items ->
          within (k (inr (Some info)) h1) (2 * length items)
          /\ (forall d rest id,
                items = d :: rest -> truthy d = true -> subscript d "id" = inr id ->
                clash add_entry_parameters m = None ->
                exists k', k (inr (Some info)) h1
                           = AwaitInfo (PStr (watch_url py_str w id)) false h1 k')
          /\ (forall key,
                clash add_entry_parameters m = Some key ->
                k (inr (Some info)) h1 = Done (inr []) h1)
          /\ forall r h',
               finishes (k (inr (Some info)) h1) r h' ->
               exists good_entries,
                 r = inr good_entries
                 /\ queue h' = queue h1 ++ good_entries
                 /\ length good_entries <= length items).
Proof.
  unfold async_process_youtube_playlist.
  unfold bind at 1, try_except, safe_extract_info. cbn [bindR catchR].
  eexists. split; [reflexivity|]. cbn beta.
  split; [|split].
  - intros ex h1. reflexivity.
  - intros h1. reflexivity.
  - intros info items w h1 Hne Hent Hweb Hall. destruct info as [|kv info]; [congruence|].
    cbn [bindR catchR]. unfold bind, lift, getitem. rewrite Hent. cbn [bindR py_iter].
    assert (Hw : getitem (kv :: info) "webpage_url" = inr (PStr w))
      by (unfold getitem; rewrite Hweb; reflexivity).
    split; [|split; [|split]].
    + replace (2 * length items) with (2 * length items + 0) by lia.
      apply within_bindR; [apply (youtube_entries_within _ m w items Hw Hall)|].
      intros a h2. exact I.
    + intros d rest id -> Ht Hid Hm.
      rewrite (youtube_entries_cons _ m w d id rest [] 0 h1 Hw Ht Hid).
      unfold call_add_entry. rewrite Hm.
      destruct (add_entry_awaits X (watch_url py_str w id) m h1) as [k' ->].
      cbn [bindR catchR]. eexists. reflexivity.
    + intros key Hkey.
      rewrite (youtube_entries_refused _ m w items key Hw Hall Hkey). reflexivity.
    + intros r h' Hrun.
      apply finishes_bindR_inv in Hrun as [([good bad] & h2 & Hloop & Hret)|(ex & Hloop & _)].
      * apply finishes_done_inv in Hret as [-> ->].
        destruct (youtube_entries_runs _ m w items Hw Hall _ _ _ _ _ Hloop)
          as (added & bad' & Heq & Hq & Hn).
        injection Heq as -> ->. exists added. cbn [fst app]. split; [reflexivity|].
        split; [exact Hq|lia].
      * destruct (youtube_entries_runs _ m w items Hw Hall _ _ _ _ _ Hloop)
          as (added & bad' & Heq & _). discriminate.
Qed.

End YoutubePlaylist.

Lemma import_from_best_effort_witness :
  exists k h2,
    import_from Sample.X "http://tube.example/playlist?list=PL1" [] Sample.one_entry
    = AwaitInfo (PStr "http://tube.example/playlist?list=PL1") false Sample.one_entry k
    /\ k (inr (Some Cases.video_list)) Sample.one_entry = Done (inr ([1], 2)) h2
    /\ queue h2 = [0; 1]
    /\ url (entry_at 1 h2) = PStr "http://tube.example/watch?v=a".
Proof.
  destruct (import_from_best_effort Sample.X "http://tube.example/playlist?list=PL1" []
              Sample.one_entry) as (k & Hk & _ & _ & _ & Hok & _).
  destruct (Hok Cases.video_list
              [PDict [("id", PStr "a"); ("webpage_url", PStr "http://tube.example/watch?v=a");
                      ("title", PStr "A"); ("duration", PInt 120)];
               PNone;
               PDict [("id", PStr "b"); ("title", PStr "B")]]
              Sample.one_entry) as (Hrun & Hq & _ & Hnew).
  - discriminate.
  - reflexivity.
  - exists k. eexists. split; [exact Hk|]. split; [exact Hrun|]. split; [exact Hq|].
    destruct (Hnew 0 _ eq_refl) as (x & Hx & Hbare).
    injection Hx as <-. apply (f_equal url) in Hbare. exact Hbare.
Defined.

Example youtube_playlist_example :
  exists r h',
    answer_info
      (async_process_youtube_playlist Sample.X Sample.str_of true
         "http://tube.example/playlist?list=PL1" [] Sample.empty_heap)
      (inr (Some Cases.video_list)) Sample.empty_heap = Some r
    /\ finishes r (inr [0]) h'
    /\ queue h' = [0]
    /\ url (entry_at 0 h') = PStr "http://tube.example/watch?v=a".
Proof.
  eexists. eexists. split; [reflexivity|]. split.
  - eapply (finishes_info _ _ _ _ (inr (Some Sample.video_a))); [apply drift_refl|].
    eapply (finishes_info _ _ _ _ (inl TimeoutError)); [apply drift_refl|].
    apply finishes_done.
  - split; reflexivity.
Qed.

(** ** Shuffling *)

Lemma shuffle_down_permutes randbelow i : forall h,
  (forall n, 0 < n -> randbelow n < n) ->
  i < length (queue h) \/ i = 0 ->
  exists h',
    shuffle_down randbelow i h = Done (inr tt) h'
    /\ queue h' ≡ₚ queue h
    /\ with_queue (queue h) h' = h.
Proof.
  induction i as [|i IH]; intros h Hrand Hi.
  - exists h. split; [reflexivity|]. split; [reflexivity|]. destruct h; reflexivity.
  - destruct Hi as [Hi|]; [|discriminate].
    pose proof (Hrand (S (S i)) ltac:(lia)) as Hj.
    destruct (lookup_lt_is_Some_2 (queue h) (S i) Hi) as [a Ha].
    destruct (lookup_lt_is_Some_2 (queue h) (randbelow (S (S i))) ltac:(lia)) as [b Hb].
    cbn [shuffle_down]. unfold bind, exchange. rewrite Ha, Hb. cbn [bindR].
    set (h1 := with_queue _ h).
    assert (Hq1 : queue h1 ≡ₚ queue h) by (apply Permutation_insert_swap; assumption).
    destruct (IH h1 Hrand) as (h' & Hrun & Hperm & Hrest).
    { left. unfold h1. cbn [queue with_queue]. rewrite !length_insert. lia. }
    exists h'. split; [exact Hrun|]. split; [rewrite Hperm; exact Hq1|].
    assert (E1 : with_queue (queue h) (with_queue (queue h1) h') = with_queue (queue h) h')
      by (destruct h'; reflexivity).
    assert (E2 : with_queue (queue h) h1 = h) by (unfold h1; destruct h; reflexivity).
    rewrite <- E1, Hrest. exact E2.
Qed.

(** X1. [shuffle] puts the entries of the queue in another order: every
    entry is in the queue as often as before, and nothing but the order
    has changed.  No download is scheduled, not even for the entry that
    has come to the head. *)
Theorem shuffle_permutes randbelow h :
  (forall n, 0 < n -> randbelow n < n) ->
  exists h',
    shuffle randbelow h = Done (inr tt) h'
    /\ queue h' ≡ₚ queue h
    /\ length (queue h') = length (queue h)
    /\ entries h' = entries h
    /\ futures h' = futures h
    /\ spawned h' = spawned h
    /\ fs h' = fs h.
Proof.
  intros Hrand. unfold shuffle, bind, get_heap. cbn [bindR].
  destruct (shuffle_down_permutes randbelow (length (queue h) - 1) h Hrand)
    as (h' & Hrun & Hperm & Hrest); [lia|].
  exists h'. split; [exact Hrun|]. split; [exact Hperm|].
  split; [rewrite Hperm; reflexivity|].
  rewrite <- Hrest. repeat split.
Qed.

Lemma shuffle_permutes_witness :
  exists h',
    shuffle (fun _ => 0) Sample.two_entries = Done (inr tt) h'
    /\ queue h' ≡ₚ [0; 1].
Proof.
  destruct (shuffle_permutes (fun _ => 0) Sample.two_entries) as (h' & Hrun & Hperm & _).
  - intros n Hn. exact Hn.
  - exists h'. split; [exact Hrun|exact Hperm].
Defined.

Example shuffle_example :
  queue <$> (match shuffle (fun _ => 0) Sample.two_entries with
             | Done _ h' => Some h'
             | _ => None
             end) = Some [1; 0].
Proof. reflexivity. Qed.

(** ** A generic entry that is in the folder *)

Section GenericSizes.
Context (X : Externals).

(** X17. A generic entry whose name, up to the last dash, is in the
    listing of the folder, be it that of a file or of a directory.  The
    [_download] asks for the length of the remote file.  With the answer
    there, the folder is listed again and what stands at the place where
    the name was found in the first listing is measured: when its size is
    the remote length, or 0 where the probe or the conversion of its
    answer has raised, the entry takes it as its file, every waiter is
    handed the entry, and the resolver is not asked; when the sizes
    differ, the resolver is asked to download. *)
Theorem generic_cache_sizes e h p noex ext ldir i :
  _is_downloading (entry_at e h) = false ->
  expected_filename (entry_at e h) = PStr p ->
  PyStr.split_head "-" (PyStr.basename p) = "generic" ->
  PyStr.rsplit1 "." (PyStr.basename p) = [noex; ext] ->
  FS.listdir (download_folder (entry_at e h)) (fs h) = inr ldir ->
  PyStr.index_of noex (map (rsplit1_head "-") ldir) = Some i ->
  exists k,
    _download X e h = AwaitHead (url (entry_at e h)) 5 (begun e h) k
    /\ forall x h2 ldir2 name lsize,
         FS.listdir (download_folder (entry_at e h2)) (fs h2) = inr ldir2 ->
         ldir2 !! i = Some name ->
         FS.getsize (PyStr.path_join (download_folder (entry_at e h2)) name) (fs h2)
           = inr lsize ->
         (lsize = remote_size X x ->
            k x h2
            = Done (inr tt)
                (finished e (inr e)
                   (named (PStr (PyStr.path_join (download_folder (entry_at e h2)) name))
                      e h2)))
         /\ (lsize <> remote_size X x ->
               exists k2, k x h2 = AwaitInfo (url (entry_at e h2)) true h2 k2).
Proof.
  intros Hflag Hexp Hgen Hsplit Hdir Hidx.
  rewrite (download_begins X e h Hflag).
  destruct (generic_cache_probe X e (begun e h) p noex ext ldir i) as (k0 & Hk0 & Hans).
  { rewrite (entry_at_begun expected_filename); [exact Hexp|reflexivity]. }
  { exact Hgen. }
  { exact Hsplit. }
  { rewrite (entry_at_begun download_folder); [exact Hdir|reflexivity]. }
  { exact Hidx. }
  rewrite Hk0. cbn [bindR catchR finallyR]. rewrite (entry_at_begun url) by reflexivity.
  eexists. split; [reflexivity|]. cbn beta.
  intros x h2 ldir2 name lsize Hdir2 Hname Hsize.
  rewrite (Hans x h2 ldir2 name lsize Hdir2 Hname Hsize). split.
  - intros ->. rewrite Z.eqb_refl.
    fold (named (PStr (PyStr.path_join (download_folder (entry_at e h2)) name)) e h2).
    apply (download_wrap_done e (inr tt)).
  - intros Hne. destruct (Z.eqb_spec lsize (remote_size X x)) as [|_]; [contradiction|].
    destruct (really_download_awaits X e true h2) as [k2 ->].
    cbn [bindR catchR finallyR]. eexists. reflexivity.
Qed.

End GenericSizes.

Lemma generic_cache_sizes_witness :
  exists k,
    _download Sample.X 0 (heap Sample.empty_cached)
    = AwaitHead (PStr "http://example.com/a.mp3") 5 (begun 0 (heap Sample.empty_cached)) k
    /\ exists k2,
         k (inr [("CONTENT-LENGTH", "4")]) (begun 0 (heap Sample.empty_cached))
         = AwaitInfo (PStr "http://example.com/a.mp3") true (begun 0 (heap Sample.empty_cached)) k2.
Proof.
  destruct (generic_cache_sizes Sample.X 0 (heap Sample.empty_cached) "audio_cache/generic-a.mp3"
              "generic-a" "mp3" ["generic-a-44444444.mp3"] 0
              eq_refl eq_refl eq_refl eq_refl eq_refl eq_refl) as (k & Hk & Hans).
  exists k. split; [exact Hk|].
  destruct (Hans (inr [("CONTENT-LENGTH", "4")]) (begun 0 (heap Sample.empty_cached))
              ["generic-a-44444444.mp3"] "generic-a-44444444.mp3" 0%Z eq_refl eq_refl eq_refl)
    as [_ Hdiff].
  apply Hdiff. discriminate.
Defined.

(** * Callers on the loop *)




Lemma alike_refl h : alike h h.
Proof. repeat split; auto. Qed.

Lemma alike_trans h1 h2 h3 : alike h1 h2 -> alike h2 h3 -> alike h1 h3.
Proof.
  intros (He1 & Hf1 & Hs1 & Hl1) (He2 & Hf2 & Hs2 & Hl2).
  split; [|split; [congruence|split; [congruence|lia]]].
  intros e. destruct (He1 e) as [A B], (He2 e) as [C D]. split; congruence.
Qed.




Section OnTheLoop.
Context (X : Externals).







(** The loop leaves the queue and the number of entries alone. *)
Lemma erase_queue e h h0 : erase e h = erase e h0 -> queue h = queue h0.
Proof. intros H. apply (f_equal queue) in H. exact H. Qed.

Lemma completes_queue e h1 (r : Res unit) :
  completes e h1 r ->
  queue (stop_heap r) = queue h1 /\ length (entries (stop_heap r)) = length (entries h1).
Proof.
  destruct r as [x h2|u d h2 k|u fld h2 k|fu h2 k]; cbn [completes stop_heap].
  - intros (_ & hb & out & Her & -> & _). rewrite finished_length.
    split; [exact (erase_queue _ _ _ Her)|exact (erase_length _ _ _ Her)].
  - intros [Her _]. split; [exact (erase_queue _ _ _ Her)|exact (erase_length _ _ _ Her)].
  - intros [Her _]. split; [exact (erase_queue _ _ _ Her)|exact (erase_length _ _ _ Her)].
  - contradiction.
Qed.

Lemma exec_queue a l l' :
  inv l -> exec X a l = Some l' ->
  queue (heap l') = queue (heap l)
  /\ length (entries (heap l')) = length (entries (heap l)).
Proof.
  intros (Hsp & Hp & Hr & Hcount & Hw) Hexec.
  destruct l as [h rd pk]. cbn [heap ready parked] in *.
  destruct a as [e| |i x|i x|fs'|f]; cbn [exec heap ready parked] in Hexec.
  - destruct (Nat.ltb_spec e (length (entries h))) as [He|]; [|discriminate].
    rewrite get_ready_future_eq in Hexec. injection Hexec as <-.
    cbn [flush heap]. change (queue (with_spawned [] ?h0)) with (queue h0).
    change (entries (with_spawned [] ?h0)) with (entries h0).
    rewrite ready_heap_queue, ready_heap_length. auto.
  - unfold run_next in Hexec. cbn [ready heap parked] in Hexec.
    destruct rd as [|[e|e c] rest]; [discriminate| |]; injection Hexec as <-;
      inversion Hr as [|? ? Hok Hrest]; subst; rewrite heap_settle_task;
      change (queue (with_spawned [] ?h0)) with (queue h0);
      change (entries (with_spawned [] ?h0)) with (entries h0).
    + destruct (_is_downloading (entry_at e h)) eqn:Hflag.
      * rewrite (download_guard X e h Hflag). auto.
      * destruct (completes_queue e _ _ (download_completes X e h Hflag)) as [Hq Hl].
        rewrite Hq, Hl. cbn. rewrite length_alter. auto.
    + destruct Hok as [He Hc]. apply (completes_queue e h (c h) (Hc h)).
  - destruct (pk !! i) as [[e r]|]; [|discriminate].
    destruct r; try discriminate. injection Hexec as <-. auto.
  - destruct (pk !! i) as [[e r]|]; [|discriminate].
    destruct r; try discriminate. injection Hexec as <-. auto.
  - injection Hexec as <-. auto.
  - destruct (future_at f h); try discriminate. injection Hexec as <-. auto.
Qed.

Lemma steps_queue l l' :
  inv l -> steps X l l' ->
  queue (heap l') = queue (heap l)
  /\ length (entries (heap l')) = length (entries (heap l)).
Proof.
  intros Hinv Hsteps. induction Hsteps as [|l1 l2 l3 Hs IH [a Ha]]; [auto|].
  destruct (IH Hinv) as [Hq Hl].
  destruct (exec_queue a l2 l3 (steps_inv X l1 l2 Hinv Hs) Ha) as [Hq' Hl'].
  split; congruence.
Qed.

(** *** The ready future of an entry *)




End OnTheLoop.

(** ** Taking the next entry *)



Section Pops.
Context (X : Externals).




Lemma steps_valid l l' (q : list nat) :
  inv l -> steps X l l' ->
  Forall (fun e => e < length (entries (heap l))) q ->
  Forall (fun e => e < length (entries (heap l'))) q.
Proof.
  intros Hinv Hsteps. destruct (steps_queue X l l' Hinv Hsteps) as [_ ->]. auto.
Qed.


(** *** The calls end *)



End Pops.

(** ** Adding entries while the loop runs *)

Section Adds.
Context (X : Externals).





End Adds.


(** ** First in, first out *)

Section Fifo.
Context (X : Externals).


End Fifo.

(** ** Calls with the events written out *)

Section Scripts.
Context (X : Externals).

Lemma calls_with_sound {A} script : forall (r : Res A) rd pk x l',
  calls_with X script r rd pk = Some (x, l') -> calls X r rd pk x l'.
Proof.
  induction script as [|[sched w] script IH]; intros r rd pk x l' H.
  - destruct r; cbn in H; try discriminate. injection H as <- <-. constructor.
  - destruct r as [x0 h|u d h k|u t h k|f h k]; cbn [calls_with] in H.
    + injection H as <- <-. constructor.
    + destruct w as [y| |]; try discriminate.
      destruct (run X sched (flush h rd pk)) as [l2|] eqn:Hrun; [|discriminate].
      apply (calls_info X _ _ _ _ _ _ l2 y); [apply (run_steps X _ _ _ Hrun)|apply IH, H].
    + destruct w as [|y|]; try discriminate.
      destruct (run X sched (flush h rd pk)) as [l2|] eqn:Hrun; [|discriminate].
      apply (calls_head X _ _ _ _ _ _ l2 y); [apply (run_steps X _ _ _ Hrun)|apply IH, H].
    + destruct w; try discriminate.
      destruct (run X sched (flush h rd pk)) as [l2|] eqn:Hrun; [|discriminate].
      destruct (outcome f (heap l2)) as [y|] eqn:Hout; [|discriminate].
      apply (calls_future X _ _ _ _ _ l2 y);
        [apply (run_steps X _ _ _ Hrun)|exact Hout|apply IH, H].
Qed.

Lemma call_with_sound {A} (m : M A) script l x l' :
  call_with X m script l = Some (x, l') -> call X m l x l'.
Proof. apply calls_with_sound. Qed.

Lemma pops_with_sound b scripts : forall l rs l',
  pops_with X b scripts l = Some (rs, l') -> pops_on X b l rs l'.
Proof.
  induction scripts as [|script scripts IH]; intros l rs l' H; cbn [pops_with] in H.
  - injection H as <- <-. constructor.
  - destruct (call_with X (get_next_entry b) script l) as [[r l1]|] eqn:Hcall; [|discriminate].
    destruct (pops_with X b scripts l1) as [[rs' l2]|] eqn:Hrest; [|discriminate].
    injection H as <- <-.
    econstructor; [apply (call_with_sound _ _ _ _ _ Hcall)|constructor|apply IH, Hrest].
Qed.

End Scripts.




(** The two calls on that playlist, with the resolver answering for both
    videos: the calls return the first and then the second. *)
Example pops_return_the_entries :
  fst <$> pops_with Sample.X true [Cases.first_arrives; Cases.second_arrives] Cases.added
  = Some [inr (Some 0); inr (Some 1)].
Proof. vm_compute. reflexivity. Qed.

Lemma pops_return_the_entries_on_the_loop :
  exists l2, pops_on Sample.X true Cases.added [inr (Some 0); inr (Some 1)] l2.
Proof.
  destruct (pops_with Sample.X true [Cases.first_arrives; Cases.second_arrives] Cases.added)
    as [[rs l2]|] eqn:H; [|vm_compute in H; discriminate].
  assert (Hrs : rs = [inr (Some 0); inr (Some 1)]).
  { apply (f_equal (fmap fst)) in H. vm_compute in H. congruence. }
  exists l2. rewrite <- Hrs. apply (pops_with_sound Sample.X true _ _ _ _ H).
Qed.

